(** * Kyra resource manager (engines/kyra/resource/resource.cpp)

    A shallow embedding of [Kyra::Resource]: the archive cache, the three
    search layers, the loader dispatch of [loadArchive], the buffer reader
    [loadFileToBuf], the Kyrandia Mac installer loading and [reset].

    Archive objects live in an explicit heap indexed by pointers, so that
    pointer identity, ownership by the cache and [delete] are visible.  The
    calls made on member streams and loaders are recorded in a trace. *)

From stdpp Require Import gmap strings list fin_maps.
From Stdlib Require Import ZArith Lia Strings.Byte Strings.Ascii.

Open Scope Z_scope.

(** ** Outcomes

    [error(...)] never returns (fatal termination); dereferencing an
    [Archive*] that was deleted has no defined behaviour.  [Unfinished] is
    no outcome of the code: it says that a loop was cut off at the number of
    rounds the definition allows it, and only the loop of
    [loadFileList(const Common::Path &)] gives it. *)

Inductive Outcome (A : Type) : Type :=
  | Ret (a : A)
  | Fatal (msg : string)
  | Undefined
  | Unfinished.

Arguments Ret {A} a.
Arguments Fatal {A} msg.
Arguments Undefined {A}.
Arguments Unfinished {A}.

Definition obind {A B} (m : Outcome A) (k : A -> Outcome B) : Outcome B :=
  match m with
  | Ret a => k a
  | Fatal msg => Fatal msg
  | Undefined => Undefined
  | Unfinished => Unfinished
  end.

Notation "'let*' x ':=' m 'in' k" := (obind m (fun x => k))
  (at level 10, x pattern, m at level 100, k at level 200).

(** ** Strings: Common::String::toUppercase *)

(** Modelled from the spec: [Common::String] (common/str.cpp) is not among
    the sources.  Names are normalised to upper case character by character,
    the letters a to z becoming A to Z. *)
Module Str.

Definition toupper (c : ascii) : ascii :=
  let n := nat_of_ascii c in
  if ((97 <=? n) && (n <=? 122))%nat then ascii_of_nat (n - 32) else c.

Fixpoint toUppercase (s : string) : string :=
  match s with
  | EmptyString => EmptyString
  | String c s' => String (toupper c) (toUppercase s')
  end.

(** [a.equalsIgnoreCase(b)], the comparison of the case-insensitive
    containers. *)
Definition equalsIgnoreCase (a b : string) : bool :=
  String.eqb (toUppercase a) (toUppercase b).

Fixpoint rev_string (s : string) : string :=
  match s with
  | EmptyString => EmptyString
  | String c s' => rev_string s' +:+ String c EmptyString
  end.

(** [s.hasSuffix(x)] *)
Definition hasSuffix (s x : string) : bool :=
  String.prefix (rev_string x) (rev_string s).

End Str.

(** ** Streams: Common::SeekableReadStream over a byte sequence *)

(** Modelled from the spec: [Common::SeekableReadStream] (common/stream.h)
    is not among the sources.  A stream is a read-only byte sequence with a
    position; a read copies the bytes that remain, at most as many as were
    asked for. *)
Record Stream := mkStream { st_data : list byte; st_pos : Z }.

Module Strm.

Definition size (s : Stream) : Z := Z.of_nat (length (st_data s)).

Definition pos (s : Stream) : Z := st_pos s.

(** [seek(offset, SEEK_SET)] *)
Definition seek (s : Stream) (offset : Z) : Stream :=
  mkStream (st_data s) offset.

(** [read(buf, dataSize)]: copies the bytes that remain, at most
    [dataSize] of them, over the start of [buf]; returns the buffer, the
    number of bytes read and the advanced stream. *)
Definition read (s : Stream) (buf : list byte) (dataSize : Z)
  : list byte * Z * Stream :=
  let avail := Z.max 0 (size s - st_pos s) in
  let k := Z.min dataSize avail in
  let chunk := take (Z.to_nat k) (drop (Z.to_nat (st_pos s)) (st_data s)) in
  (chunk ++ drop (Z.to_nat k) buf, k, mkStream (st_data s) (st_pos s + k)).

End Strm.

(** ** Archives and their members *)

(** Modelled from the spec: [Common::Archive] (common/archive.h) is not
    among the sources.  An archive is a read-only container of named member
    files; a member name is matched without regard to case, and opening a
    member gives a fresh stream positioned at offset 0 whose size is the
    member's stored size. *)
Record Archive := mkArchive { arc_members : list (string * list byte) }.

(** A handle to one file: its name and, when the file can be opened, its
    bytes ([createReadStream] returns null otherwise). *)
Record ArchiveMember := mkMember { am_name : string; am_data : option (list byte) }.

Module Arc.

Definition find (a : Archive) (name : string) : option (string * list byte) :=
  List.find (fun e => Str.equalsIgnoreCase (fst e) name) (arc_members a).

Definition hasFile (a : Archive) (name : string) : bool :=
  bool_decide (is_Some (find a name)).

Definition memberOf (e : string * list byte) : ArchiveMember :=
  mkMember (fst e) (Some (snd e)).

Definition getMember (a : Archive) (name : string) : option ArchiveMember :=
  memberOf <$> find a name.

(** [listMatchingMembers(list, "*" + suffix)] *)
Definition listMatchingMembers (a : Archive) (suffix : string) : list ArchiveMember :=
  memberOf <$> List.filter
    (fun e => Str.hasSuffix (Str.toUppercase (fst e)) (Str.toUppercase suffix))
    (arc_members a).

(** [member->createReadStream()] *)
Definition createReadStream (m : ArchiveMember) : option Stream :=
  (fun d => mkStream d 0) <$> am_data m.

End Arc.

(** ** Search sets: Common::SearchSet *)

(** What a node of a search set points to.  [_files] holds the addresses of
    the global search manager and of the two layers of the same object, so a
    lookup through [_files] sees the current contents of those layers.
    [RefNull] is a null [Archive*], which [reset] can register when a load
    fails. *)
Inductive ArcRef :=
  | RefSearchMan
  | RefProtected
  | RefArchives
  | RefArc (p : nat)
  | RefNull.

#[global] Instance ArcRef_eq_dec : EqDecision ArcRef.
Proof. solve_decision. Defined.

Record Node := mkNode {
  n_priority : Z;
  n_name : string;
  n_arc : ArcRef;
  n_autoFree : bool
}.

#[global] Instance Node_eq_dec : EqDecision Node.
Proof. solve_decision. Defined.

(** Modelled from the spec: [Common::SearchSet] (common/archive.cpp) is not
    among the sources.  A search set is a list of named nodes kept in
    decreasing priority; among equal priorities the node registered first
    comes first; a lookup takes the first node that has the file.  A node's
    name is its key, so [add] leaves the set as it is when the name is
    already present.  Every [add] of resource.cpp passes
    [autoFree = false], so no operation of the set deletes an archive. *)
Module SearchSet.

Definition t := list Node.

Definition find (l : t) (name : string) : option Node :=
  List.find (fun n => String.eqb (n_name n) name) l.

Definition hasArchive (l : t) (name : string) : bool :=
  bool_decide (is_Some (find l name)).

Fixpoint insert (node : Node) (l : t) : t :=
  match l with
  | [] => [node]
  | n :: l' =>
      if n_priority n <? n_priority node then node :: n :: l'
      else n :: insert node l'
  end.

Definition add (name : string) (arc : ArcRef) (priority : Z) (autoFree : bool)
    (l : t) : t :=
  if hasArchive l name then l
  else insert (mkNode priority name arc autoFree) l.

Fixpoint remove (name : string) (l : t) : t :=
  match l with
  | [] => []
  | n :: l' => if String.eqb (n_name n) name then l' else n :: remove name l'
  end.

Definition clear (l : t) : t := [].

(** The first node, in list order, whose archive has the file.  [look]
    resolves a node's archive and searches it. *)
Fixpoint lookup {A} (look : ArcRef -> Outcome (option A)) (l : t)
  : Outcome (option A) :=
  match l with
  | [] => Ret None
  | n :: l' =>
      let* r := look (n_arc n) in
      match r with
      | Some x => Ret (Some x)
      | None => lookup look l'
      end
  end.

End SearchSet.

(** ** Loaders: ResArchiveLoader *)

(** The three loaders are defined in resource_intern.cpp; here a loader is
    its interface.  [isLoadable] receives the read-only stream by reference
    and may leave it at any position: it gives its answer and that
    position. *)
Record Loader := mkLoader {
  checkFilename : string -> bool;
  isLoadable : string -> Stream -> bool * Z;
  load : ArchiveMember -> Stream -> option Archive
}.

(** ** The calls made while loading *)

Inductive Event :=
  | EvCreateReadStream (member : string)
  | EvIsLoadable (loader : nat) (pos : Z)
  | EvSeek (offset : Z)
  | EvLoad (loader : nat) (pos : Z)
  | EvInstallerLoad (file : string)
  | EvStuffItLoad (name : string)
  | EvDelete (p : nat).

#[global] Instance Event_eq_dec : EqDecision Event.
Proof. solve_decision. Defined.

Definition is_parse (e : Event) : bool :=
  match e with
  | EvLoad _ _ | EvInstallerLoad _ | EvStuffItLoad _ => true
  | _ => false
  end.

(** The parse-count probe: how many times a loader produced, or tried to
    produce, an archive. *)
Definition parseCount (tr : list Event) : nat :=
  length (List.filter is_parse tr).

(** ** The Resource object *)

(** [ArchiveMap], the type of [_archiveCache], is declared in resource.h,
    which is not among the sources; its keys are compared exactly, which is
    why the code upper-cases a name before it looks it up. *)
Record Resource := mkResource {
  _archiveCache : gmap string nat;
  _files : SearchSet.t;
  _archiveFiles : SearchSet.t;
  _protectedFiles : SearchSet.t;
  _loaders : list Loader;
  _bigEndianPlatForm : bool;
  (** the global search manager, [Common::SearchManager::instance()] *)
  searchMan : Archive;
  (** the Archive objects that are alive, by address *)
  heap : gmap nat Archive;
  (** the next address [new] hands out *)
  next_ptr : nat;
  trace : list Event
}.

Definition set_archiveCache (f : gmap string nat -> gmap string nat) (r : Resource) :=
  mkResource (f (_archiveCache r)) (_files r) (_archiveFiles r) (_protectedFiles r)
    (_loaders r) (_bigEndianPlatForm r) (searchMan r) (heap r) (next_ptr r) (trace r).

Definition set_files (f : SearchSet.t -> SearchSet.t) (r : Resource) :=
  mkResource (_archiveCache r) (f (_files r)) (_archiveFiles r) (_protectedFiles r)
    (_loaders r) (_bigEndianPlatForm r) (searchMan r) (heap r) (next_ptr r) (trace r).

Definition set_archiveFiles (f : SearchSet.t -> SearchSet.t) (r : Resource) :=
  mkResource (_archiveCache r) (_files r) (f (_archiveFiles r)) (_protectedFiles r)
    (_loaders r) (_bigEndianPlatForm r) (searchMan r) (heap r) (next_ptr r) (trace r).

Definition set_protectedFiles (f : SearchSet.t -> SearchSet.t) (r : Resource) :=
  mkResource (_archiveCache r) (_files r) (_archiveFiles r) (f (_protectedFiles r))
    (_loaders r) (_bigEndianPlatForm r) (searchMan r) (heap r) (next_ptr r) (trace r).

Definition set_heap (f : gmap nat Archive -> gmap nat Archive) (r : Resource) :=
  mkResource (_archiveCache r) (_files r) (_archiveFiles r) (_protectedFiles r)
    (_loaders r) (_bigEndianPlatForm r) (searchMan r) (f (heap r)) (next_ptr r) (trace r).

Definition set_trace (f : list Event -> list Event) (r : Resource) :=
  mkResource (_archiveCache r) (_files r) (_archiveFiles r) (_protectedFiles r)
    (_loaders r) (_bigEndianPlatForm r) (searchMan r) (heap r) (next_ptr r) (f (trace r)).

Definition emit (evs : list Event) (r : Resource) : Resource :=
  set_trace (fun tr => tr ++ evs) r.

(** [new Archive]: the object gets the next address. *)
Definition alloc (a : Archive) (r : Resource) : nat * Resource :=
  (next_ptr r,
   mkResource (_archiveCache r) (_files r) (_archiveFiles r) (_protectedFiles r)
     (_loaders r) (_bigEndianPlatForm r) (searchMan r)
     (<[next_ptr r := a]> (heap r)) (S (next_ptr r)) (trace r)).

(** [delete p] *)
Definition free (p : nat) (r : Resource) : Resource :=
  emit [EvDelete p] (set_heap (delete p) r).

(** [p->...]: the object behind an [Archive*]. *)
Definition deref (r : Resource) (p : nat) : Outcome Archive :=
  match heap r !! p with
  | Some a => Ret a
  | None => Undefined
  end.

(** ** Lookups through the layers *)

(** A node of [_archiveFiles] or [_protectedFiles]: those two sets only
    ever receive archives. *)
Definition lookLayer (r : Resource) (name : string) (ref : ArcRef)
  : Outcome (option (string * list byte)) :=
  match ref with
  | RefArc p => let* a := deref r p in Ret (Arc.find a name)
  | RefSearchMan => Ret (Arc.find (searchMan r) name)
  | RefProtected | RefArchives => Ret None
  | RefNull => Undefined
  end.

(** A node of [_files]. *)
Definition lookFiles (r : Resource) (name : string) (ref : ArcRef)
  : Outcome (option (string * list byte)) :=
  match ref with
  | RefProtected => SearchSet.lookup (lookLayer r name) (_protectedFiles r)
  | RefArchives => SearchSet.lookup (lookLayer r name) (_archiveFiles r)
  | _ => lookLayer r name ref
  end.

(** The entry [_files] resolves a name to; an empty path resolves to
    nothing. *)
Definition findFile (r : Resource) (name : string)
  : Outcome (option (string * list byte)) :=
  if String.eqb name "" then Ret None
  else SearchSet.lookup (lookFiles r name) (_files r).

(** [_files.getMember(name)] *)
Definition files_getMember (r : Resource) (name : string)
  : Outcome (option ArchiveMember) :=
  let* e := findFile r name in Ret (Arc.memberOf <$> e).

(** [_files.hasFile(name)] *)
Definition files_hasFile (r : Resource) (name : string) : Outcome bool :=
  let* e := findFile r name in Ret (bool_decide (is_Some e)).

(** [Resource::createReadStream]: [_files.createReadStreamForMember(file)] *)
Definition createReadStream (file : string) (r : Resource)
  : Outcome (option Stream) :=
  let* e := findFile r file in Ret ((fun x => mkStream (snd x) 0) <$> e).

(** ** Resource::loadArchive *)

(** The loop over [_loaders]; [i] is the index of the loader at the head. *)
Fixpoint loaderLoop (name : string) (member : ArchiveMember) (i : nat)
    (ls : list Loader) (stream : Stream) : option Archive * list Event :=
  match ls with
  | [] => (None, [])
  | l :: ls' =>
      if checkFilename l name then
        let '(ok, pos1) := isLoadable l name stream in
        let stream1 := mkStream (st_data stream) pos1 in
        let stream2 := Strm.seek stream1 0 in
        if ok then
          (load l member stream2,
           [EvIsLoadable i (Strm.pos stream); EvSeek 0; EvLoad i (Strm.pos stream2)])
        else
          let '(a, evs) := loaderLoop name member (S i) ls' stream2 in
          (a, EvIsLoadable i (Strm.pos stream) :: EvSeek 0 :: evs)
      else loaderLoop name member (S i) ls' stream
  end.

Definition loadArchive (name : string) (member : ArchiveMember) (r : Resource)
  : option nat * Resource :=
  match _archiveCache r !! name with
  | Some p => (Some p, r)
  | None =>
      let r1 := emit [EvCreateReadStream (am_name member)] r in
      match Arc.createReadStream member with
      | None => (None, r1)
      | Some stream =>
          let '(archive, evs) := loaderLoop name member 0 (_loaders r1) stream in
          let r2 := emit evs r1 in
          match archive with
          | None => (None, r2)
          | Some a =>
              let '(p, r3) := alloc a r2 in
              (Some p, set_archiveCache <[name := p]> r3)
          end
      end
  end.

(** ** Loading and unloading packages *)

(** [loadPakFile(const Common::String &name, Common::ArchiveMemberPtr file)] *)
Definition loadPakFile (name : string) (file : ArchiveMember) (r : Resource)
  : bool * Resource :=
  let nameFixed := Str.toUppercase name in
  if SearchSet.hasArchive (_archiveFiles r) nameFixed
     || SearchSet.hasArchive (_protectedFiles r) nameFixed
  then (true, r)
  else
    match loadArchive nameFixed file r with
    | (None, r1) => (false, r1)
    | (Some p, r1) =>
        (true, set_archiveFiles (SearchSet.add nameFixed (RefArc p) 0 false) r1)
    end.

(** [loadPakFile(const Common::Path &filename)] *)
Definition loadPakFile_path (filename : string) (r : Resource)
  : Outcome (bool * Resource) :=
  let filenameFixed := Str.toUppercase filename in
  let* file := files_getMember r filenameFixed in
  match file with
  | None => Ret (false, r)
  | Some f => Ret (loadPakFile filenameFixed f r)
  end.

(** [loadFileList(const char *const *filelist, uint32 numFiles)].  The
    loop [while (numFiles--)] opens [filelist[numFiles]], from the index
    [numFiles - 1] down to 0; the function does not know how many entries
    the array has, and an index outside it has no defined behaviour. *)
Fixpoint loadFileList_while (filelist : list string) (numFiles : nat) (r : Resource)
  : Outcome (bool * Resource) :=
  match numFiles with
  | O => Ret (true, r)
  | S numFiles' =>
      match filelist !! numFiles' with
      | None => Undefined
      | Some f =>
          let* (ok, r1) := loadPakFile_path f r in
          if ok then loadFileList_while filelist numFiles' r1
          else Fatal ("couldn't load file '" +:+ f +:+ "'")
      end
  end.

(** A null list is [None]. *)
Definition loadFileList (filelist : option (list string)) (numFiles : nat)
    (r : Resource) : Outcome (bool * Resource) :=
  match filelist with
  | None => Ret (false, r)
  | Some l => loadFileList_while l numFiles r
  end.

Fixpoint loadProtectedFiles (list : list string) (r : Resource)
  : Outcome (bool * Resource) :=
  match list with
  | [] => Ret (true, r)
  | n :: rest =>
      let* file := files_getMember r n in
      match file with
      | None => Fatal ("Couldn't find PAK file '" +:+ n +:+ "'")
      | Some f =>
          match loadArchive n f r with
          | (Some p, r1) =>
              loadProtectedFiles rest
                (set_protectedFiles (SearchSet.add n (RefArc p) 0 false) r1)
          | (None, r1) => Fatal ("Couldn't load PAK file '" +:+ n +:+ "'")
          end
      end
  end.

Definition unloadPakFile (name : string) (remFromCache : bool) (r : Resource)
  : Resource :=
  let nameFixed := Str.toUppercase name in
  if SearchSet.hasArchive (_archiveFiles r) nameFixed then
    let r1 := set_archiveFiles (SearchSet.remove nameFixed) r in
    if remFromCache then
      match _archiveCache r1 !! nameFixed with
      | Some p => set_archiveCache (delete nameFixed) (free p r1)
      | None => r1
      end
    else r1
  else r.

Definition isInPakList (name : string) (r : Resource) : bool :=
  let nameFixed := Str.toUppercase name in
  SearchSet.hasArchive (_archiveFiles r) nameFixed
  || SearchSet.hasArchive (_protectedFiles r) nameFixed.

Definition isInCacheList (name : string) (r : Resource) : bool :=
  bool_decide (is_Some (_archiveCache r !! Str.toUppercase name)).

Definition unloadAllPakFiles (r : Resource) : Resource :=
  set_protectedFiles SearchSet.clear (set_archiveFiles SearchSet.clear r).

Definition getCachedArchive (file : string) (r : Resource) : option nat :=
  _archiveCache r !! file.

(** [exists(file, errorOutOnFail)] *)
Definition exists_ (file : string) (errorOutOnFail : bool) (r : Resource)
  : Outcome bool :=
  let* found := files_hasFile r file in
  if found then Ret true
  else if errorOutOnFail then Fatal ("File '" +:+ file +:+ "' can't be found")
  else Ret false.

(** ** Reading files *)

Definition uint32 (z : Z) : Z := z mod 2 ^ 32.

(** The cast [(int32)x] of a 32-bit unsigned value. *)
Definition int32 (z : Z) : Z := (z + 2 ^ 31) mod 2 ^ 32 - 2 ^ 31.

Definition getFileSize (file : string) (r : Resource) : Outcome Z :=
  let* stream := createReadStream file r in
  match stream with
  | None => Ret 0
  | Some s => Ret (uint32 (Strm.size s))
  end.

(** [memset(buf, c, n)]; writing past the end of the buffer is undefined. *)
Definition memset (buf : list byte) (c : byte) (n : Z) : Outcome (list byte) :=
  if n <=? Z.of_nat (length buf)
  then Ret (replicate (Z.to_nat n) c ++ drop (Z.to_nat n) buf)
  else Undefined.

(** [loadFileToBuf(file, buf, maxSize)]: the result and the buffer after
    the call.  [maxSize] is a [uint32]. *)
Definition loadFileToBuf (file : string) (buf : list byte) (maxSize : Z)
    (r : Resource) : Outcome (bool * list byte) :=
  let* stream := createReadStream file r in
  match stream with
  | None => Ret (false, buf)
  | Some s =>
      let* buf1 := memset buf x00 maxSize in
      let n := if int32 maxSize <=? Strm.size s then maxSize else Strm.size s in
      let '(buf2, _, _) := Strm.read s buf1 (uint32 n) in
      Ret (true, buf2)
  end.

(** [fileData(file, &size)]: the new buffer, which the read fills, and its
    size. *)
Definition fileData (file : string) (r : Resource)
  : Outcome (option (list byte * Z)) :=
  let* stream := createReadStream file r in
  match stream with
  | None => Ret None
  | Some s =>
      let bufferSize := uint32 (Strm.size s) in
      let '(buf, _, _) := Strm.read s (replicate (Z.to_nat bufferSize) x00) bufferSize in
      Ret (Some (buf, bufferSize))
  end.

(** [createEndianAwareReadStream(file, endianness)]: the stream and whether
    it is read as big endian. *)
Inductive Endianness := kPlatformEndianness | kForceLE | kForceBE.

Definition createEndianAwareReadStream (file : string) (endianness : Endianness)
    (r : Resource) : Outcome (option (Stream * bool)) :=
  let* stream := createReadStream file r in
  Ret ((fun s => (s, match endianness with
                     | kForceBE => true
                     | kForceLE => false
                     | kPlatformEndianness => _bigEndianPlatForm r
                     end)) <$> stream).

(** ** The engine and the host, as [Resource] sees them *)

Inductive GameID :=
  | GI_KYRA1 | GI_KYRA2 | GI_KYRA3 | GI_LOL | GI_EOB1 | GI_EOB2
  | GI_UNKNOWN (id : Z).

Inductive Platform :=
  | kPlatformDOS | kPlatformAmiga | kPlatformMacintosh | kPlatformSegaCD
  | kPlatformOther (id : Z).

Inductive Language := EN_ANY | ES_ESP | LANG_OTHER (id : Z).

#[global] Instance GameID_eq_dec : EqDecision GameID.
Proof. solve_decision. Defined.
#[global] Instance Platform_eq_dec : EqDecision Platform.
Proof. solve_decision. Defined.
#[global] Instance Language_eq_dec : EqDecision Language.
Proof. solve_decision. Defined.

Record GameFlags := mkGameFlags {
  lang : Language;
  platform : Platform;
  isDemo : bool;
  isTalkie : bool;
  useInstallerPackage : bool
}.

(** [_vm], the configured game path and the code of other files that
    resource.cpp calls: the mac resource lookup of [Util], the file opening
    of [Common::MacResManager] and the installer and StuffIt loaders of
    resource_intern.cpp. *)
Record Env := mkEnv {
  game : GameID;
  gameFlags : GameFlags;
  (** [dir.exists() && dir.isDirectory()] for the configured path *)
  path_isDirectory : bool;
  (** [dir.getPath().toString(Common::Path::kNativeSeparator)] *)
  gamePath : string;
  (** the files of the game directory, and of its "runtime" subdirectory
      when there is one *)
  gameDir : Archive;
  gameDirRuntime : option Archive;
  (** [Util::findMacResourceFile(baseName, suffix)]; the empty path when
      nothing is found *)
  findMacResourceFile : string -> string -> string;
  (** [Common::MacResManager::openFileOrDataFork(path)] *)
  openFileOrDataFork : string -> option (list byte);
  (** [InstallerLoader::load(this, file, ext, offset)] *)
  InstallerLoader_load : Resource -> string -> string -> Z -> option Archive;
  (** [StuffItLoader::load(this, file)] and
      [StuffItLoader::load(this, stream, debugName)] *)
  StuffItLoader_load : Resource -> string -> option Archive;
  StuffItLoader_load_stream : Resource -> Stream -> string -> option Archive;
  (** the loaders [initializeLoaders] registers *)
  ResLoaderPak : Loader;
  ResLoaderInsMalcolm : Loader;
  ResLoaderTlk : Loader;
  (** the files the global search manager serves once the constructor has
      added the game's subdirectories to it *)
  globalSearch : Archive
}.

(** ** Bounded views and concatenation of streams *)

(** Modelled from the spec: [Common::SeekableSubReadStream]
    (common/substream.h) is not among the sources: a view of the bytes
    [begin, end) of the parent, positioned at its own offset 0. *)
Definition SeekableSubReadStream (parent : Stream) (begin end_ : Z) : Stream :=
  mkStream (take (Z.to_nat (end_ - begin)) (drop (Z.to_nat begin) (st_data parent))) 0.

(** Modelled from the spec: [Common::ConcatReadStream]
    (common/concatstream.h) is not among the sources: the parts read one
    after the other as one continuous stream. *)
Definition ConcatReadStream (parts : list Stream) : Stream :=
  mkStream (concat (st_data <$> parts)) 0.

(** [Common::String::format("%d", n)] *)
Fixpoint format_d_aux (fuel n : nat) (acc : string) : string :=
  match fuel with
  | O => acc
  | S fuel' =>
      let acc' := String (ascii_of_nat (48 + n mod 10)) acc in
      if (n / 10 =? 0)%nat then acc' else format_d_aux fuel' (n / 10) acc'
  end.

Definition format_d (n : nat) : string := format_d_aux (S n) n "".

(** [%d] of a number that may be negative. *)
Definition format_int (z : Z) : string :=
  if z <? 0 then "-" +:+ format_d (Z.to_nat (- z)) else format_d (Z.to_nat z).

Section WithEnv.

Variable env : Env.

(** ** Installer archives *)

Definition loadInstallerArchive (file ext : string) (offset : Z) (r : Resource)
  : option nat * Resource :=
  let name := file in
  match _archiveCache r !! name with
  | Some p => (Some p, r)
  | None =>
      let r1 := emit [EvInstallerLoad file] r in
      match InstallerLoader_load env r file ext offset with
      | None => (None, r1)
      | Some a =>
          let '(p, r2) := alloc a r1 in
          (Some p, set_archiveCache <[name := p]> r2)
      end
  end.

(** [loadStuffItArchive(const Common::Path &file, canonicalName)] *)
Definition loadStuffItArchive (file canonicalName : string) (r : Resource)
  : option nat * Resource :=
  match _archiveCache r !! canonicalName with
  | Some p => (Some p, r)
  | None =>
      let r1 := emit [EvStuffItLoad canonicalName] r in
      match StuffItLoader_load env r file with
      | None => (None, r1)
      | Some a =>
          let '(p, r2) := alloc a r1 in
          (Some p, set_archiveCache <[canonicalName := p]> r2)
      end
  end.

(** [loadStuffItArchive(Common::SeekableReadStream *stream, canonicalName,
    debugName)] *)
Definition loadStuffItArchive_stream (stream : Stream)
    (canonicalName debugName : string) (r : Resource) : option nat * Resource :=
  match _archiveCache r !! canonicalName with
  | Some p => (Some p, r)
  | None =>
      let r1 := emit [EvStuffItLoad canonicalName] r in
      match StuffItLoader_load_stream env r stream debugName with
      | None => (None, r1)
      | Some a =>
          let '(p, r2) := alloc a r1 in
          (Some p, set_archiveCache <[canonicalName := p]> r2)
      end
  end.

(** The name of part [i] of the installer. *)
Definition partName (kyraInstaller : string) (i : nat) : string :=
  if (i =? 1)%nat then kyraInstaller
  else kyraInstaller +:+ ("." +:+ format_d i).

(** The loop over the parts of [loadKyra1MacInstaller], for the part
    numbers [nums] that remain. *)
Fixpoint openInstallerParts (kyraInstaller : string) (nums : list nat)
  : Outcome (list Stream) :=
  match nums with
  | [] => Ret []
  | i :: rest =>
      let name := partName kyraInstaller i in
      match openFileOrDataFork env name with
      | None =>
          Fatal ("Failed to load Legend of Kyrandia installer file part " +:+ name)
      | Some bytes =>
          let stream := mkStream bytes 0 in
          if Strm.size stream <=? 100 then
            Fatal ("Legend of Kyrandia installer file part " +:+ name +:+ " is too short")
          else
            let* parts := openInstallerParts kyraInstaller rest in
            Ret (SeekableSubReadStream stream 100 (Strm.size stream) :: parts)
      end
  end.

Definition loadKyra1MacInstaller (r : Resource) : Outcome (option nat * Resource) :=
  let kyraInstaller := findMacResourceFile env "Install Legend of Kyrandia" "" in
  if negb (String.eqb kyraInstaller "") then
    match loadStuffItArchive kyraInstaller "Install Legend of Kyrandia" r with
    | (None, _) => Fatal "Failed to load Legend of Kyrandia installer file"
    | (Some p, r1) => Ret (Some p, r1)
    end
  else
    let kyraInstaller := findMacResourceFile env "Legend of Kyrandia" " Installer" in
    if negb (String.eqb kyraInstaller "") then
      let* parts := openInstallerParts kyraInstaller (seq 1 5) in
      Ret (loadStuffItArchive_stream (ConcatReadStream parts)
             "Install Legend of Kyrandia" "Legend of Kyrandia(TM) Installer.*" r)
    else Ret (None, r).

(** ** loadFileList(const Common::Path &filedata) *)

(** [f->readUint32LE()]; when fewer than four bytes remain the value read
    is indeterminate. *)
Definition readUint32LE (f : Stream) : Outcome (Z * Stream) :=
  let '(bytes, k, f1) := Strm.read f [] 4 in
  if k <? 4 then Undefined
  else Ret (fold_right (fun b acc => Z.of_N (Byte.to_N b) + 256 * acc) 0 bytes, f1).

(** The [Common::String] made of the buffer read as a C string: the
    characters before the first NUL. *)
Fixpoint cstring (buffer : list byte) : string :=
  match buffer with
  | [] => EmptyString
  | b :: rest =>
      if Byte.eqb b x00 then EmptyString
      else String (ascii_of_byte b) (cstring rest)
  end.

(** The [while] loop, cut off after [fuel] rounds.  The position kept in
    [offset] is a [uint32], and so is [offset + 16].  The 13 bytes of
    [buffer] start out indeterminate, the read fills as many as the stream
    still has, at most 12, and the last is set to 0: the name is determined
    when all 12 were read or a NUL is among those read. *)
Fixpoint loadFileList_loop (fuel : nat) (f : Stream) (r : Resource)
  : Outcome (bool * Resource) :=
  match fuel with
  | O => Unfinished
  | S fuel' =>
      let* (filenameOffset, f1) := readUint32LE f in
      if filenameOffset =? 0 then Ret (true, r)
      else
        let offset := uint32 (Strm.pos f1) in
        let f2 := Strm.seek f1 filenameOffset in
        let '(buffer, k, f3) := Strm.read f2 [] 12 in
        if (k <? 12) && negb (existsb (fun b => Byte.eqb b x00) buffer) then Undefined
        else
          let f4 := Strm.seek f3 (uint32 (offset + 16)) in
          let filename := Str.toUppercase (cstring buffer) in
          if Str.hasSuffix filename ".PAK" then
            let* present := exists_ filename false r in
            if negb present && isDemo (gameFlags env) then
              loadFileList_loop fuel' f4 r
            else
              let* (ok, r1) := loadPakFile_path filename r in
              if ok then loadFileList_loop fuel' f4 r1
              else Fatal ("couldn't load file '" +:+ filename +:+ "'")
          else loadFileList_loop fuel' f4 r
  end.

(** A list file of fewer than 2^32 - 16 bytes ends the loop within as
    many rounds as it has bytes, since every round moves the position 20
    bytes on; for a longer one the position can wrap around, and
    [Unfinished] says that the rounds allowed here were used up. *)
Definition loadFileList_path (filedata : string) (r : Resource)
  : Outcome (bool * Resource) :=
  let* f := createReadStream filedata r in
  match f with
  | None => Ret (false, r)
  | Some f => loadFileList_loop (S (length (st_data f))) f r
  end.

(** ** Construction and reset *)

Definition initializeLoaders : list Loader :=
  [ResLoaderPak env; ResLoaderInsMalcolm env; ResLoaderTlk env].

(** [Resource::Resource(vm)].  The subdirectories the constructor adds to
    the global search manager are part of [globalSearch env]. *)
Definition Resource_new : Resource :=
  let files0 := SearchSet.add "global_search" RefSearchMan 3 false [] in
  let files1 := SearchSet.add "protected" RefProtected 1 false files0 in
  let files2 := SearchSet.add "archives" RefArchives 0 false files1 in
  mkResource ∅ files2 [] [] initializeLoaders
    (bool_decide (platform (gameFlags env) = kPlatformAmiga
                  ∨ platform (gameFlags env) = kPlatformSegaCD))
    (globalSearch env) ∅ 1%nat [].

(** The priority under which the directory scan of [reset] registers a
    loaded archive. *)
Definition scanPriority (archive : Archive) : Z :=
  let highPrio :=
    bool_decide (game env = GI_EOB1) && bool_decide (lang (gameFlags env) = ES_ESP)
    && Arc.hasFile archive "ITEM.DAT" in
  if highPrio then 4 else 0.

(** The loop of [reset] over the PAK and APK files found in the game
    directory. *)
Fixpoint resetScan (files : list ArchiveMember) (r : Resource) : Outcome Resource :=
  match files with
  | [] => Ret r
  | i :: rest =>
      let name := Str.toUppercase (am_name i) in
      if String.eqb name "TWMUSIC.PAK" || String.eqb name "EYE.PAK" then
        resetScan rest r
      else if String.eqb name
                (if bool_decide (lang (gameFlags env) = EN_ANY) then "JMC.PAK" else "EMC.PAK")
      then resetScan rest r
      else
        match loadArchive (am_name i) i r with
        | (Some p, r1) =>
            let* archive := deref r1 p in
            resetScan rest
              (set_files (SearchSet.add name (RefArc p) (scanPriority archive) false) r1)
        | (None, _) => Fatal ("Couldn't load PAK file '" +:+ name +:+ "'")
        end
  end.

Definition ptrRef (p : option nat) : ArcRef :=
  match p with Some p => RefArc p | None => RefNull end.

(** The loop of [reset] over the PAK members of the Kyrandia Mac
    installer; a failed load registers a null archive. *)
Fixpoint resetInstallerPaks (members : list ArchiveMember) (r : Resource) : Resource :=
  match members with
  | [] => r
  | it :: rest =>
      let name := am_name it in
      let '(pak, r1) := loadArchive name it r in
      resetInstallerPaks rest (set_files (SearchSet.add name (ptrRef pak) 0 false) r1)
  end.

Definition kyra1TalkieList : list string :=
  ["ADL.PAK"; "CHAPTER1.VRM"; "COL.PAK"; "FINALE.PAK"; "INTRO1.PAK"; "INTRO2.PAK";
   "INTRO3.PAK"; "INTRO4.PAK"; "MISC.PAK"; "SND.PAK"; "STARTUP.PAK"; "XMI.PAK";
   "CAVE.APK"; "DRAGON1.APK"; "DRAGON2.APK"; "LAGOON.APK"].

(** The list [files] that [reset] collects from the game directory and,
    on the Macintosh, from its "runtime" subdirectory. *)
Definition scanFiles : list ArchiveMember :=
  Arc.listMatchingMembers (gameDir env) ".PAK"
  ++ Arc.listMatchingMembers (gameDir env) ".APK"
  ++ match gameDirRuntime env with
     | Some rt =>
         if bool_decide (platform (gameFlags env) = kPlatformMacintosh) then
           Arc.listMatchingMembers rt ".PAK" ++ Arc.listMatchingMembers rt ".APK"
         else []
     | None => []
     end.

Definition reset (r0 : Resource) : Outcome (bool * Resource) :=
  let r := unloadAllPakFiles r0 in
  let flags := gameFlags env in
  if negb (path_isDirectory env) then
    Fatal ("invalid game path '" +:+ gamePath env +:+ "'")
  else if bool_decide (game env = GI_KYRA1)
          && bool_decide (platform flags = kPlatformMacintosh)
          && useInstallerPackage flags then
    let* (archive, r1) := loadKyra1MacInstaller r in
    match archive with
    | None => Fatal "Could not find Legend of Kyrandia installer file"
    | Some p =>
        let r2 := set_files (SearchSet.add "installer" (RefArc p) 0 false) r1 in
        let* a := deref r2 p in
        Ret (true, resetInstallerPaks (Arc.listMatchingMembers a ".PAK") r2)
    end
  else if bool_decide (game env = GI_KYRA1) || bool_decide (game env = GI_EOB1) then
    if isDemo flags && negb (isTalkie flags) then Ret (true, r)
    else if negb (isDemo flags) && isTalkie flags then
      loadProtectedFiles kyra1TalkieList r
    else
      let* r1 := resetScan scanFiles r in
      Ret (true, r1)
  else if bool_decide (game env = GI_KYRA2) then
    let r1 :=
      if useInstallerPackage flags then
        let '(p, r') := loadInstallerArchive "WESTWOOD" "%03d" 6 r in
        set_files (SearchSet.add "installer" (ptrRef p) 2 false) r'
      else r in
    if isDemo flags && negb (isTalkie flags) then
      let* (_, r2) := loadPakFile_path "GENERAL.PAK" r1 in
      Ret (true, r2)
    else
      let* (_, r2) := loadPakFile_path "INTROGEN.PAK" r1 in
      let* (_, r3) := loadPakFile_path "OTHER.PAK" r2 in
      Ret (true, r3)
  else if bool_decide (game env = GI_KYRA3) then
    let* (_, r1) := loadPakFile_path "WESTWOOD.001" r in
    let* (ok, r2) := loadFileList_path "FILEDATA.FDT" r1 in
    if ok then Ret (true, r2) else Fatal "Couldn't load file: 'FILEDATA.FDT'"
  else if bool_decide (game env = GI_LOL) then
    let r1 :=
      if useInstallerPackage flags then
        let '(p, r') := loadInstallerArchive "WESTWOOD" "%d" 0 r in
        set_files (SearchSet.add "installer" (ptrRef p) 2 false) r'
      else r in
    if negb (isTalkie flags) && negb (isDemo flags) then
      loadProtectedFiles ["GENERAL.PAK"] r1
    else Ret (true, r1)
  else
    (* [game() != GI_EOB2]: of the games that come here only EOB2 is known *)
    match game env with
    | GI_UNKNOWN id => Fatal ("Unknown game id: " +:+ format_int id)
    | _ => Ret (true, r)
    end.

End WithEnv.

(** * The Toon engine: inventory, dirty rectangles, palette

    The functions of [ToonEngine] that work on the inventory arrays of the
    game state, on the lists of dirty rectangles and on palette entries. *)

Module Toon.

(** ** C arrays *)

(** [a[i]] and [a[i] = v] on an array of [length a] elements; an index
    outside the array has no defined behaviour. *)
Definition arrGet (a : list Z) (i : Z) : Outcome Z :=
  if (0 <=? i) && (i <? Z.of_nat (length a))
  then match a !! Z.to_nat i with Some x => Ret x | None => Undefined end
  else Undefined.

Definition arrSet (a : list Z) (i : Z) (v : Z) : Outcome (list Z) :=
  if (0 <=? i) && (i <? Z.of_nat (length a))
  then Ret (<[Z.to_nat i := v]> a)
  else Undefined.

(** ** The inventory of the game state *)

(** The fields of [State] (state.h, not among the sources) that the
    inventory functions use.  The two arrays have as many elements as the
    lists here are long. *)
Record State := mkState {
  _inventory : list Z;
  _numInventoryItems : Z;
  _confiscatedInventory : list Z;
  _numConfiscatedInventoryItems : Z;
  _mouseState : Z
}.

Definition set_inventory (inv : list Z) (st : State) : State :=
  mkState inv (_numInventoryItems st) (_confiscatedInventory st)
    (_numConfiscatedInventoryItems st) (_mouseState st).

Definition set_numInventoryItems (n : Z) (st : State) : State :=
  mkState (_inventory st) n (_confiscatedInventory st)
    (_numConfiscatedInventoryItems st) (_mouseState st).

Definition set_numConfiscatedInventoryItems (n : Z) (st : State) : State :=
  mkState (_inventory st) (_numInventoryItems st) (_confiscatedInventory st)
    n (_mouseState st).

Definition set_mouseState (m : Z) (st : State) : State :=
  mkState (_inventory st) (_numInventoryItems st) (_confiscatedInventory st)
    (_numConfiscatedInventoryItems st) m.

Section Inventory.

(** The conversion of an [int32] to the element type of the inventory
    arrays, which state.h declares. *)
Variable narrow : Z -> Z.

(** The inner loop of [rearrangeInventory]:
    [for (j; j < num; ++j) inv[j - 1] = inv[j]], with [k] rounds left. *)
Fixpoint shiftLoop (k : nat) (j num : Z) (inv : list Z) : Outcome (list Z) :=
  match k with
  | O => Ret inv
  | S k' =>
      if j <? num then
        let* x := arrGet inv j in
        let* inv' := arrSet inv (j - 1) x in
        shiftLoop k' (j + 1) num inv'
      else Ret inv
  end.

(** The outer loop of [rearrangeInventory]; [i] goes up by one in every
    round and the number of items never grows, so [k], the number of items
    at the start, bounds the rounds. *)
Fixpoint rearrangeLoop (k : nat) (i : Z) (st : State) : Outcome State :=
  match k with
  | O => Ret st
  | S k' =>
      if i <? _numInventoryItems st then
        let* x := arrGet (_inventory st) i in
        if x =? 0 then
          let num := _numInventoryItems st in
          let* inv' := shiftLoop (Z.to_nat (num - (i + 1))) (i + 1) num (_inventory st) in
          rearrangeLoop k' (i + 1)
            (set_numInventoryItems (num - 1) (set_inventory inv' st))
        else rearrangeLoop k' (i + 1) st
      else Ret st
  end.

Definition rearrangeInventory (st : State) : Outcome State :=
  rearrangeLoop (Z.to_nat (_numInventoryItems st)) 0 st.

(** The loop of [addItemToInventory] over the slots in use, and the
    append after it. *)
Fixpoint addLoop (k : nat) (i : Z) (item : Z) (st : State) : Outcome State :=
  match k with
  | O =>
      let* inv' := arrSet (_inventory st) (_numInventoryItems st) (narrow item) in
      Ret (set_mouseState (-1)
             (set_numInventoryItems (_numInventoryItems st + 1)
                (set_inventory inv' st)))
  | S k' =>
      let* x := arrGet (_inventory st) i in
      if x =? 0 then
        let* inv' := arrSet (_inventory st) i (narrow item) in
        Ret (set_mouseState (-1) (set_inventory inv' st))
      else addLoop k' (i + 1) item st
  end.

Definition cannotBeAdded (item : Z) : bool :=
  (item =? 103) || (item =? 104) || (item =? 89) || (item =? 82).

(** [addItemToInventory(item)].  Item 41 stands for the confiscated
    inventory and makes the function call itself for every confiscated
    item; [depth] bounds the depth of these calls, and [None] says that the
    bound was reached. *)
Fixpoint addItemToInventory (depth : nat) (item : Z) (st : State)
  : option (Outcome State) :=
  match depth with
  | O => None
  | S depth' =>
      if cannotBeAdded item then Some (Ret (set_mouseState (-1) st))
      else if item =? 41 then
        let after :=
          (fix confiscatedLoop (k : nat) (i : Z) (st : State)
             : option (Outcome State) :=
             if i <? _numConfiscatedInventoryItems st then
               match k with
               | O => None
               | S k' =>
                   match arrGet (_confiscatedInventory st) i with
                   | Ret c =>
                       match addItemToInventory depth' c st with
                       | Some (Ret st') => confiscatedLoop k' (i + 1) st'
                       | other => other
                       end
                   | Fatal msg => Some (Fatal msg)
                   | Undefined => Some Undefined
                   | Unfinished => Some Unfinished
                   end
               end
             else Some (Ret st))
            (Z.to_nat (_numConfiscatedInventoryItems st)) 0 st in
        match after with
        | Some (Ret st') =>
            Some (Ret (set_mouseState (-1)
                         (set_numConfiscatedInventoryItems 0 st')))
        | other => other
        end
      else
        Some (addLoop (Z.to_nat (_numInventoryItems st)) 0 item st)
  end.

(** The loop of [deleteItemFromInventory]. *)
Fixpoint deleteLoop (k : nat) (i : Z) (item : Z) (st : State) : Outcome State :=
  match k with
  | O => Ret st
  | S k' =>
      let* x := arrGet (_inventory st) i in
      if x =? item then
        let* inv' := arrSet (_inventory st) i 0 in
        rearrangeInventory (set_inventory inv' st)
      else deleteLoop k' (i + 1) item st
  end.

Definition deleteItemFromInventory (item : Z) (st : State) : Outcome State :=
  deleteLoop (Z.to_nat (_numInventoryItems st)) 0 item st.

(** The loop of [replaceItemFromInventory]. *)
Fixpoint replaceLoop (k : nat) (i : Z) (item newitem : Z) (st : State)
  : Outcome State :=
  match k with
  | O => Ret st
  | S k' =>
      let* x := arrGet (_inventory st) i in
      if x =? item then
        let* inv' := arrSet (_inventory st) i (narrow newitem) in
        Ret (set_inventory inv' st)
      else replaceLoop k' (i + 1) item newitem st
  end.

Definition replaceItemFromInventory (item newitem : Z) (st : State) : Outcome State :=
  replaceLoop (Z.to_nat (_numInventoryItems st)) 0 item newitem st.

End Inventory.

(** ** Palette entries *)

(** [fixPaletteEntries(palette, num)]: the loop over the first [num * 3]
    bytes, with [k] rounds left; a byte is read as a number from 0 to 255
    and the result, at most 255, is stored as a byte. *)
Fixpoint fixPaletteLoop (k : nat) (i : Z) (palette : list Z) : Outcome (list Z) :=
  match k with
  | O => Ret palette
  | S k' =>
      let* a := arrGet palette i in
      let a := a * 4 in
      let a := if 255 <? a then 255 else a in
      let* palette' := arrSet palette i (a mod 256) in
      fixPaletteLoop k' (i + 1) palette'
  end.

(** [num * 3] is an [int]: beyond its range the product is not defined. *)
Definition fixPaletteEntries (palette : list Z) (num : Z) : Outcome (list Z) :=
  if (- 2 ^ 31 <=? num * 3) && (num * 3 <? 2 ^ 31)
  then fixPaletteLoop (Z.to_nat (num * 3)) 0 palette
  else Undefined.

(** ** Dirty rectangles *)

(** [Common::Rect] (common/rect.h, not among the sources) as [addDirtyRect]
    uses it: four 16-bit coordinates, built from left, top, right and
    bottom. *)
Record Rect := mkRect { r_left : Z; r_top : Z; r_right : Z; r_bottom : Z }.

#[global] Instance Rect_eq_dec : EqDecision Rect.
Proof. solve_decision. Defined.

Definition int16 (z : Z) : Z := (z + 2 ^ 15) mod 2 ^ 16 - 2 ^ 15.

Record Screen := mkScreen {
  _dirtyRects : list Rect;
  _oldDirtyRects : list Rect;
  _dirtyAll : bool
}.

Section DirtyRects.

(** [TOON_BACKBUFFER_WIDTH] and [TOON_BACKBUFFER_HEIGHT] (toon.h), and
    [a.contains(b)] of [Common::Rect]. *)
Variable TOON_BACKBUFFER_WIDTH TOON_BACKBUFFER_HEIGHT : Z.
Variable contains : Rect -> Rect -> bool.

(** The first loop of [addDirtyRect]: whether a rectangle of the list
    contains [rect], which ends the function, and the list as the loop
    leaves it, without the rectangles met so far that [rect] contains. *)
Fixpoint scanDirtyRects (rect : Rect) (l : list Rect) : bool * list Rect :=
  match l with
  | [] => (false, [])
  | d :: l' =>
      if contains d rect then (true, d :: l')
      else if contains rect d then scanDirtyRects rect l'
      else let '(found, l'') := scanDirtyRects rect l' in (found, d :: l'')
  end.

Definition addDirtyRect (left top right bottom : Z) (s : Screen) : Screen :=
  let left := Z.min (Z.max left 0) TOON_BACKBUFFER_WIDTH in
  let right := Z.min (Z.max right 0) TOON_BACKBUFFER_WIDTH in
  let top := Z.min (Z.max top 0) TOON_BACKBUFFER_HEIGHT in
  let bottom := Z.min (Z.max bottom 0) TOON_BACKBUFFER_HEIGHT in
  if (bottom - top <=? 0) || (right - left <=? 0) then s
  else
    let rect := mkRect (int16 left) (int16 top) (int16 right) (int16 bottom) in
    let '(found, dirty) := scanDirtyRects rect (_dirtyRects s) in
    if found then mkScreen dirty (_oldDirtyRects s) (_dirtyAll s)
    else
      mkScreen (dirty ++ [rect])
        (List.filter (fun o => negb (contains rect o)) (_oldDirtyRects s))
        (_dirtyAll s).

Definition dirtyAllScreen (s : Screen) : Screen :=
  mkScreen [] (_oldDirtyRects s) true.

Definition clearDirtyRects (s : Screen) : Screen :=
  mkScreen [] (_dirtyRects s) false.

End DirtyRects.

End Toon.

(** * The Burger console: the test counter

    [Console::cmdTest] of the M4 engine. *)

Module Burger.

Section CmdTest.

(** [_G(flags)], the array of game flags, and the five flags of the
    tests; they are declared in vars.h, which is not among the sources. *)
Variable flags : Z -> Z.
Variable kFirstTestPassed kSecondTestPassed kThirdTestPassed
         kFourthTestPassed kFifthTestPassed : Z.

(** The initialiser of [tests].  The operator [?:] binds less tightly than
    [+] and groups to the right, so each [0 + flag] is the condition of the
    next [?:], nested in the else branch of the one before. *)
Definition testsPassed : Z :=
  if negb (flags kFirstTestPassed =? 0) then 1
  else if negb (0 + flags kSecondTestPassed =? 0) then 1
  else if negb (0 + flags kThirdTestPassed =? 0) then 1
  else if negb (0 + flags kFourthTestPassed =? 0) then 1
  else if negb (0 + flags kFifthTestPassed =? 0) then 1
  else 0.

(** [cmdTest(argc, argv)]: the line it prints and its result. *)
Definition cmdTest : string * bool :=
  ("Tests passed = " +:+ format_d (Z.to_nat testsPassed) +:+ String "010"%char "",
   true).

End CmdTest.

End Burger.

(** * The vocabulary of the properties *)

(** ** Search sets *)

(** The names of a search set are pairwise distinct: [add] keeps it so. *)
Definition distinctNames (l : SearchSet.t) : Prop := NoDup (n_name <$> l).

(** ** The loader loop, as the claim describes it *)

(** What the loop does when every loader is handed the stream at offset 0:
    the loop as the claim describes it, to be compared with [loaderLoop]. *)
Fixpoint loaderLoop_at0 (name : string) (member : ArchiveMember) (i : nat)
    (ls : list Loader) (data : list byte) : option Archive * list Event :=
  match ls with
  | [] => (None, [])
  | l :: ls' =>
      if checkFilename l name then
        if fst (isLoadable l name (mkStream data 0)) then
          (load l member (mkStream data 0),
           [EvIsLoadable i 0; EvSeek 0; EvLoad i 0])
        else
          let '(a, evs) := loaderLoop_at0 name member (S i) ls' data in
          (a, EvIsLoadable i 0 :: EvSeek 0 :: evs)
      else loaderLoop_at0 name member (S i) ls' data
  end.

(** A call of a loader that was made with the stream at offset 0. *)
Definition at_offset_0 (e : Event) : Prop :=
  match e with
  | EvIsLoadable _ pos | EvLoad _ pos => pos = 0
  | _ => True
  end.

(** ** Buffers *)

(** The buffer [loadFileToBuf] leaves for a file of content [data]: the
    first [min maxSize (size of data)] bytes of the file, zeros up to
    [maxSize], and beyond [maxSize] the buffer as it was. *)
Definition filledBuf (data buf : list byte) (maxSize : Z) : list byte :=
  let n := Z.min maxSize (Z.of_nat (length data)) in
  take (Z.to_nat n) data
  ++ replicate (Z.to_nat (maxSize - n)) x00
  ++ drop (Z.to_nat maxSize) buf.

(** ** Ownership: what the layers may refer to *)

(** A node of a layer refers to the archive that the cache owns under the
    node's name. *)
Definition layerNodeOk (r : Resource) (n : Node) : Prop :=
  match n_arc n with
  | RefArc p => _archiveCache r !! n_name n = Some p
  | _ => False
  end.

(** A node of [_files] is one of the three layers, or an archive that the
    cache owns under a key that is not loaded in the normal layer. *)
Definition directNodeOk (r : Resource) (n : Node) : Prop :=
  match n_arc n with
  | RefArc p =>
      Exists (fun kp => kp.2 = p
                        /\ SearchSet.hasArchive (_archiveFiles r) kp.1 = false)
             (map_to_list (_archiveCache r))
  | RefNull => False
  | _ => True
  end.

#[global] Instance layerNodeOk_dec r n : Decision (layerNodeOk r n).
Proof. unfold layerNodeOk. destruct (n_arc n); apply _. Defined.

#[global] Instance directNodeOk_dec r n : Decision (directNodeOk r n).
Proof. unfold directNodeOk. destruct (n_arc n); apply _. Defined.

(** Every live archive sits below the next address to hand out. *)
Definition heapFresh (r : Resource) : Prop :=
  map_Forall (fun p _ => (p < next_ptr r)%nat) (heap r).

#[global] Instance heapFresh_dec r : Decision (heapFresh r).
Proof. unfold heapFresh. apply _. Defined.

(** The state of a [Resource] whose archives are all owned by the cache:
    cached pointers are alive and pairwise distinct, the two layers register
    cached archives under their cache keys, no name is in both layers, what
    [_files] refers to directly is cached under a key that is not loaded as
    a package, and [_files] composes the protected layer. *)
Definition wf (r : Resource) : Prop :=
  map_Forall (fun _ p => is_Some (heap r !! p)) (_archiveCache r)
  /\ map_Forall (fun k1 p1 =>
       map_Forall (fun k2 p2 => p1 = p2 -> k1 = k2) (_archiveCache r))
       (_archiveCache r)
  /\ Forall (layerNodeOk r) (_archiveFiles r)
  /\ Forall (layerNodeOk r) (_protectedFiles r)
  /\ distinctNames (_archiveFiles r)
  /\ Forall (fun n => SearchSet.hasArchive (_archiveFiles r) (n_name n) = false)
            (_protectedFiles r)
  /\ Forall (directNodeOk r) (_files r)
  /\ Exists (fun n => n_arc n = RefProtected) (_files r)
  /\ heapFresh r.

#[global] Instance wf_dec r : Decision (wf r).
Proof. unfold wf, distinctNames. apply _. Defined.

(** The state in which [loadPakFile] leaves a package it has opened: the
    key is registered in the normal layer, once, and not in the protected
    layer, and the cache owns the archive [p] under that key. *)
Definition loadedAsPackage (r : Resource) (key : string) (p : nat) : Prop :=
  SearchSet.hasArchive (_archiveFiles r) key = true
  /\ distinctNames (_archiveFiles r)
  /\ SearchSet.hasArchive (_protectedFiles r) key = false
  /\ _archiveCache r !! key = Some p.

(** A sequence of [unloadPakFile] calls. *)
Fixpoint unloadMany (calls : list (string * bool)) (r : Resource) : Resource :=
  match calls with
  | [] => r
  | (name, remFromCache) :: rest => unloadMany rest (unloadPakFile name remFromCache r)
  end.

(** ** Cache keys *)

(** [k] is a key that the step from [r] to [r'] put into the cache. *)
Definition insertedKey (r r' : Resource) (k : string) : Prop :=
  _archiveCache r !! k = None /\ is_Some (_archiveCache r' !! k).

(** ** Installer parts and the directory scan *)

(** The payload of a part: what follows its header. *)
Definition payload (b : list byte) : list byte := drop 100 b.

(** Where the payload of part [k] starts in the concatenation. *)
Definition payloadStart (bs : list (list byte)) (k : nat) : nat :=
  length (concat (payload <$> take k bs)).

Section Vocabulary.

Variable env : Env.

(** Part [i] opens and is longer than its 100-byte header. *)
Definition goodPart (base : string) (i : nat) (b : list byte) : Prop :=
  openFileOrDataFork env (partName base i) = Some b /\ (100 < length b)%nat.

(** The condition under which [reset] scans the game directory. *)
Definition scansDirectory : bool :=
  path_isDirectory env
  && negb (bool_decide (game env = GI_KYRA1)
           && bool_decide (platform (gameFlags env) = kPlatformMacintosh)
           && useInstallerPackage (gameFlags env))
  && (bool_decide (game env = GI_KYRA1) || bool_decide (game env = GI_EOB1))
  && negb (isDemo (gameFlags env) && negb (isTalkie (gameFlags env)))
  && negb (negb (isDemo (gameFlags env)) && isTalkie (gameFlags env)).

(** The condition under which [reset] protects the files of the talkie
    version. *)
Definition protectsTalkieFiles : bool :=
  path_isDirectory env
  && negb (bool_decide (game env = GI_KYRA1)
           && bool_decide (platform (gameFlags env) = kPlatformMacintosh)
           && useInstallerPackage (gameFlags env))
  && (bool_decide (game env = GI_KYRA1) || bool_decide (game env = GI_EOB1))
  && negb (isDemo (gameFlags env)) && isTalkie (gameFlags env).

(** The condition under which [reset] only protects GENERAL.PAK: Lands of
    Lore on floppy, played without the installer package. *)
Definition protectsLolFiles : bool :=
  path_isDirectory env
  && bool_decide (game env = GI_LOL)
  && negb (useInstallerPackage (gameFlags env))
  && negb (isTalkie (gameFlags env)) && negb (isDemo (gameFlags env)).

(** The documented override: the game is EOB1, the language is Spanish and
    the archive has a member ITEM.DAT. *)
Definition overrideApplies (archive : Archive) : Prop :=
  game env = GI_EOB1 /\ lang (gameFlags env) = ES_ESP
  /\ Arc.hasFile archive "ITEM.DAT" = true.

#[global] Instance overrideApplies_dec archive : Decision (overrideApplies archive).
Proof. unfold overrideApplies. apply _. Defined.

(** A node that the scan registered: it refers to a live archive and has
    the priority the override rule gives that archive. *)
Definition scanned (r : Resource) (n : Node) : Prop :=
  exists p a, n_arc n = RefArc p /\ heap r !! p = Some a
              /\ n_priority n = scanPriority env a.

(** [_files] composes the three layers and nothing else. *)
Definition layersOnly (r : Resource) : Prop :=
  Forall (fun n => match n_arc n with
                   | RefArc _ | RefNull => False
                   | _ => True
                   end) (_files r).

(** The states that the public operations reach from the constructor. *)
Inductive reachable : Resource -> Prop :=
  | reach_new : reachable (Resource_new env)
  | reach_reset r b r' :
      reachable r -> reset env r = Ret (b, r') -> reachable r'
  | reach_loadPakFile r name file :
      reachable r -> reachable (loadPakFile name file r).2
  | reach_loadPakFile_path r name b r' :
      reachable r -> loadPakFile_path name r = Ret (b, r') -> reachable r'
  | reach_unloadPakFile r name remFromCache :
      reachable r -> reachable (unloadPakFile name remFromCache r)
  | reach_unloadAllPakFiles r :
      reachable r -> reachable (unloadAllPakFiles r).

(** The configurations in which [reset] empties the layers and then only
    protects the files of a list. *)
Definition resetProtects (list : list string) : Prop :=
  forall r, reset env r = loadProtectedFiles list (unloadAllPakFiles r).

End Vocabulary.

(** ** More vocabulary: the cache and the scan *)

(** The cache holds live archives only, and no archive under two keys. *)
Definition cacheSound (r : Resource) : Prop :=
  map_Forall (fun _ p => is_Some (heap r !! p)) (_archiveCache r)
  /\ map_Forall (fun k1 p1 =>
       map_Forall (fun k2 p2 => p1 = p2 -> k1 = k2) (_archiveCache r))
       (_archiveCache r)
  /\ heapFresh r.

#[global] Instance cacheSound_dec r : Decision (cacheSound r).
Proof. unfold cacheSound. apply _. Defined.

(** The step from [r] to [r'] keeps every cache entry and every live
    archive. *)
Definition keepsCache (r r' : Resource) : Prop :=
  (forall k q, _archiveCache r !! k = Some q -> _archiveCache r' !! k = Some q)
  /\ (forall q a, heap r !! q = Some a -> heap r' !! q = Some a).

(** A call of loader [j] or of a later one. *)
Definition loaderCallFrom (j : nat) (e : Event) : Prop :=
  match e with
  | EvIsLoadable i _ | EvLoad i _ => (j <= i)%nat
  | _ => False
  end.

Section MoreVocabulary.

Variable env : Env.

(** The files that the directory scan of [reset] passes over: the two
    that are no PAK files and the script archive of the other language. *)
Definition scanSkips (member : ArchiveMember) : bool :=
  let name := Str.toUppercase (am_name member) in
  String.eqb name "TWMUSIC.PAK" || String.eqb name "EYE.PAK"
  || String.eqb name
       (if bool_decide (lang (gameFlags env) = EN_ANY) then "JMC.PAK" else "EMC.PAK").

(** The files that [reset] puts into the protected layer, by game
    variant: the list of the Kyrandia talkie version, GENERAL.PAK for Lands
    of Lore on floppy, and none for the others. *)
Definition protectedFilesOf : list string :=
  let flags := gameFlags env in
  if bool_decide (game env = GI_KYRA1)
     && bool_decide (platform flags = kPlatformMacintosh)
     && useInstallerPackage flags then []
  else if bool_decide (game env = GI_KYRA1) || bool_decide (game env = GI_EOB1) then
    if negb (isDemo flags) && isTalkie flags then kyra1TalkieList else []
  else if bool_decide (game env = GI_LOL) then
    if negb (isTalkie flags) && negb (isDemo flags) then ["GENERAL.PAK"] else []
  else [].

(** The name under which the directory scan registers a file. *)
Definition scanName (member : ArchiveMember) : string :=
  Str.toUppercase (am_name member).

End MoreVocabulary.

(** ** Vocabulary for the Toon functions *)

Module ToonSpec.

Import Toon.

(** The items in use: the first [_numInventoryItems] slots. *)
Definition live (st : State) : list Z :=
  take (Z.to_nat (_numInventoryItems st)) (_inventory st).

(** The confiscated items. *)
Definition confiscated (st : State) : list Z :=
  take (Z.to_nat (_numConfiscatedInventoryItems st)) (_confiscatedInventory st).

(** The count is within the array. *)
Definition inBounds (st : State) : Prop :=
  0 <= _numInventoryItems st <= Z.of_nat (length (_inventory st)).

(** What one pass of [rearrangeInventory] makes of the items in use: an
    empty slot is closed, and the item that moves into it is not looked at
    again. *)
Fixpoint squeeze (l : list Z) : list Z :=
  match l with
  | [] => []
  | x :: l' =>
      if x =? 0 then
        match l' with
        | [] => []
        | y :: l'' => y :: squeeze l''
        end
      else x :: squeeze l'
  end.

Fixpoint noAdjacentZeros (l : list Z) : Prop :=
  match l with
  | [] => True
  | x :: l' =>
      match l' with
      | [] => True
      | y :: _ => ~ (x = 0 /\ y = 0)
      end /\ noAdjacentZeros l'
  end.

(** No slot in use is empty. *)
Definition packed (l : list Z) : Prop := Forall (fun x => x <> 0) l.

(** [l] without the first occurrence of [item]. *)
Fixpoint removeFirst (item : Z) (l : list Z) : list Z :=
  match l with
  | [] => []
  | x :: l' => if x =? item then l' else x :: removeFirst item l'
  end.

(** An item that [addItemToInventory] puts into a slot: not one of the
    four that cannot be added, and not the confiscated inventory. *)
Definition ordinary (item : Z) : Prop :=
  cannotBeAdded item = false /\ item <> 41.

(** The two states agree outside the inventory array and its count. *)
Definition sameElsewhere (st st' : State) : Prop :=
  _confiscatedInventory st' = _confiscatedInventory st
  /\ _numConfiscatedInventoryItems st' = _numConfiscatedInventoryItems st
  /\ _mouseState st' = _mouseState st.

(** A point of the screen is inside a rectangle. *)
Definition inside (x y : Z) (r : Rect) : Prop :=
  r_left r <= x < r_right r /\ r_top r <= y < r_bottom r.

(** The point is in one of the rectangles. *)
Definition covered (x y : Z) (l : list Rect) : Prop :=
  Exists (inside x y) l.

(** No rectangle of the list contains another one of the list. *)
Fixpoint irredundant (contains : Rect -> Rect -> bool) (l : list Rect) : Prop :=
  match l with
  | [] => True
  | a :: l' =>
      Forall (fun b => contains a b = false /\ contains b a = false) l'
      /\ irredundant contains l'
  end.

(** [l] with the first occurrence of [item] replaced by [newitem]. *)
Fixpoint replaceFirst (item newitem : Z) (l : list Z) : list Z :=
  match l with
  | [] => []
  | x :: l' =>
      if x =? item then newitem :: l' else x :: replaceFirst item newitem l'
  end.

(** The loop of [addItemToInventory] over the confiscated items, by
    itself: [depth] bounds the calls of [addItemToInventory] below it. *)
Definition confiscatedLoop (narrow : Z -> Z) (depth : nat)
  : nat -> Z -> State -> option (Outcome State) :=
  fix confiscatedLoop (k : nat) (i : Z) (st : State) : option (Outcome State) :=
    if i <? _numConfiscatedInventoryItems st then
      match k with
      | O => None
      | S k' =>
          match arrGet (_confiscatedInventory st) i with
          | Ret c =>
              match addItemToInventory narrow depth c st with
              | Some (Ret st') => confiscatedLoop k' (i + 1) st'
              | other => other
              end
          | Fatal msg => Some (Fatal msg)
          | Undefined => Some Undefined
          | Unfinished => Some Unfinished
          end
      end
    else Some (Ret st).

(** An item that is not one of the four that cannot be added. *)
Definition addable (c : Z) : Prop := cannotBeAdded c = false.

(** [addDirtyRect] for each of the calls, in order. *)
Definition addDirtyRects (W H : Z) (contains : Rect -> Rect -> bool)
    (calls : list (Z * Z * Z * Z)) (s : Screen) : Screen :=
  foldl (fun s '(l, t, r, b) => addDirtyRect W H contains l t r b s) s calls.

(** The value of a [uint8]. *)
Definition isByte (a : Z) : Prop := 0 <= a < 256.

(** A colour value of six bits as one of eight bits, at most 255. *)
Definition sixToEight (a : Z) : Z := Z.min (a * 4) 255.

(** A containment test to run [addDirtyRect] with: the second rectangle
    lies within the first. *)
Definition rectContains (a b : Rect) : bool :=
  (r_left a <=? r_left b) && (r_right b <=? r_right a)
  && (r_top a <=? r_top b) && (r_bottom b <=? r_bottom a).

(** The rectangle that [addDirtyRect] makes of its arguments. *)
Definition clampedRect (W H left top right bottom : Z) : Rect :=
  mkRect (Z.min (Z.max left 0) W) (Z.min (Z.max top 0) H)
         (Z.min (Z.max right 0) W) (Z.min (Z.max bottom 0) H).

End ToonSpec.

(** ** A small concrete installation, used to run the definitions *)

Module Demo.

Definition bytes_of (s : string) : list byte :=
  String.list_byte_of_string s.

(** A loader that claims every name, reads four bytes and rejects. *)
Definition rejecting : Loader :=
  mkLoader (fun _ => true) (fun _ s => (false, Strm.pos s + 4)) (fun _ _ => None).

(** A loader for names ending in ".PAK" whose content starts with 'P' at
    the stream's position; the archive it builds has one member, named by
    the eight bytes after the 'P' and holding the bytes after those. *)
Definition firstByte (s : Stream) : option byte :=
  st_data s !! Z.to_nat (Strm.pos s).

Definition pak : Loader :=
  mkLoader
    (fun name => Str.hasSuffix (Str.toUppercase name) ".PAK")
    (fun _ s => (match firstByte s with
                 | Some b => Byte.eqb b "P"%byte
                 | None => false
                 end, Strm.pos s + 1))
    (fun _ s =>
       let body := drop (S (Z.to_nat (Strm.pos s))) (st_data s) in
       Some (mkArchive [(String.string_of_list_byte (take 8 body),
                         drop 8 body)])).

Definition tlk : Loader :=
  mkLoader (fun name => Str.hasSuffix (Str.toUppercase name) ".TLK")
           (fun _ s => (false, Strm.pos s)) (fun _ _ => None).

Definition a_pak : list byte := bytes_of "PFACE.CPSpixels".
Definition b_pak : list byte := bytes_of "PITEM.DATitems".
Definition general_pak : list byte := bytes_of "PFONT.FNTglyphs".

Definition disk : Archive :=
  mkArchive [("A.PAK", a_pak); ("b.pak", b_pak); ("GENERAL.PAK", general_pak);
             ("NOTES.TXT", bytes_of "hello")].

Definition installerPart (i : nat) : list byte :=
  replicate 100 x00 ++ bytes_of ("part" +:+ format_d i).

Definition envOf (g : GameID) (fl : GameFlags) : Env :=
  mkEnv g fl true "/games/westwood" disk None
    (fun base suffix => if String.eqb suffix "" then "" else base +:+ suffix)
    (fun path =>
       if String.eqb path "Legend of Kyrandia Installer" then Some (installerPart 1)
       else if String.eqb path "Legend of Kyrandia Installer.2" then Some (installerPart 2)
       else if String.eqb path "Legend of Kyrandia Installer.3" then Some (installerPart 3)
       else if String.eqb path "Legend of Kyrandia Installer.4" then Some (installerPart 4)
       else if String.eqb path "Legend of Kyrandia Installer.5" then Some (installerPart 5)
       else None)
    (fun _ _ _ _ => None)
    (fun _ _ => None)
    (fun _ s _ => Some (mkArchive [("INSTALLER.BIN", st_data s)]))
    rejecting pak tlk disk.

(** The Spanish EOB1 played from its directory, and Lands of Lore. *)
Definition env : Env :=
  envOf GI_EOB1 (mkGameFlags ES_ESP kPlatformDOS false false false).

Definition lol : Env :=
  envOf GI_LOL (mkGameFlags EN_ANY kPlatformDOS false false false).

Definition fresh : Resource := Resource_new env.

Definition memberA : ArchiveMember := mkMember "A.PAK" (Some a_pak).
Definition memberB : ArchiveMember := mkMember "b.pak" (Some b_pak).

Definition stateOf (o : Outcome (bool * Resource)) (otherwise : Resource) : Resource :=
  match o with
  | Ret (_, r) => r
  | _ => otherwise
  end.

(** A.PAK opened as a package. *)
Definition loadedA : Resource := (loadPakFile "a.pak" memberA fresh).2.

(** A.PAK protected, then b.pak opened as a package. *)
Definition protectedA : Resource := stateOf (loadProtectedFiles ["A.PAK"] fresh) fresh.
Definition protectedA_loadedB : Resource := (loadPakFile "b.pak" memberB protectedA).2.

(** Lands of Lore after its [reset]: GENERAL.PAK is protected. *)
Definition lolReset : Resource :=
  stateOf (reset lol (Resource_new lol)) (Resource_new lol).

(** The Spanish EOB1 after its [reset]. *)
Definition eobReset : Resource := stateOf (reset env fresh) fresh.

End Demo.

(** ** More concrete values, for the further properties *)

Module MoreDemo.

Import Demo Toon.

(** The EOB1 of [Demo.env] with a game path that is no directory, and a
    game that [reset] does not know. *)
Definition noDirectory : Env :=
  mkEnv (game env) (gameFlags env) false "/games/nowhere" (gameDir env)
    (gameDirRuntime env)
    (findMacResourceFile env) (openFileOrDataFork env) (InstallerLoader_load env)
    (StuffItLoader_load env) (StuffItLoader_load_stream env)
    (ResLoaderPak env) (ResLoaderInsMalcolm env) (ResLoaderTlk env)
    (globalSearch env).

Definition unknownGame : Env :=
  envOf (GI_UNKNOWN 99) (mkGameFlags EN_ANY kPlatformDOS false false false).

(** No Mac installer anywhere. *)
Definition noInstaller : Env :=
  mkEnv (game env) (gameFlags env) true (gamePath env) (gameDir env)
    (gameDirRuntime env)
    (fun _ _ => "") (openFileOrDataFork env) (InstallerLoader_load env)
    (StuffItLoader_load env) (StuffItLoader_load_stream env)
    (ResLoaderPak env) (ResLoaderInsMalcolm env) (ResLoaderTlk env)
    (globalSearch env).

(** [Demo.fresh] after the Kyrandia Mac installer has been loaded. *)
Definition installed : Resource :=
  match loadKyra1MacInstaller env fresh with
  | Ret (_, r) => r
  | _ => fresh
  end.

(** A file list with one entry, for "a.pak": the offset of the name, 16
    bytes, the closing offset 0, 16 bytes, and the name in 12 bytes. *)
Definition fdt : list byte :=
  [x28; x00; x00; x00] ++ replicate 16 x00
  ++ [x00; x00; x00; x00] ++ replicate 16 x00
  ++ bytes_of "a.pak" ++ replicate 7 x00.

(** The EOB1 of [Demo.env] with the file list among its files. *)
Definition withFileList : Env :=
  mkEnv (game env) (gameFlags env) true (gamePath env) (gameDir env)
    (gameDirRuntime env)
    (findMacResourceFile env) (openFileOrDataFork env) (InstallerLoader_load env)
    (StuffItLoader_load env) (StuffItLoader_load_stream env)
    (ResLoaderPak env) (ResLoaderInsMalcolm env) (ResLoaderTlk env)
    (mkArchive [("A.PAK", a_pak); ("b.pak", b_pak); ("FILEDATA.FDT", fdt)]).

(** b.pak opened as a package there. *)
Definition loadedB : Resource :=
  (loadPakFile "b.pak" memberB (Resource_new withFileList)).2.

(** An element type of the inventory arrays as wide as [int32]. *)
Definition wide (z : Z) : Z := z.

(** Eight slots, six in use, three of them empty; three confiscated
    items, one of which cannot be added. *)
Definition holes : State :=
  mkState [12; 0; 7; 0; 0; 3; 9; 9] 6 [5; 103; 8; 0] 3 0.

(** Six slots, three in use and none of them empty. *)
Definition tidy : State :=
  mkState [12; 7; 3; 0; 0; 0] 3 [5; 103; 8; 0] 3 0.

(** Three slots, all in use. *)
Definition full : State := mkState [12; 7; 3] 3 [] 0 0.

(** The confiscated inventory holds item 41 itself. *)
Definition selfConfiscated : State := mkState [12; 0] 1 [41; 5] 2 0.

(** A back buffer of 1280 by 400 with two dirty rectangles. *)
Definition screen : Screen :=
  mkScreen [mkRect 0 0 10 10; mkRect 20 20 30 30] [mkRect 1 1 2 2] false.

Definition calls : list (Z * Z * Z * Z) :=
  [(0, 0, 10, 10); (2, 2, 5, 5); (-5, -5, 40, 40); (100, 100, 90, 200);
   (1270, 390, 2000, 2000)].

(** Three palette entries of six bits, and three bytes after them. *)
Definition palette : list Z := [10; 63; 0; 31; 32; 5; 0; 1; 2; 200; 64; 255].

(** The first three tests passed. *)
Definition threePassed (k : Z) : Z := if k <? 3 then 1 else 0.

End MoreDemo.

(** * Properties *)

(** ** Upper-casing *)

Lemma toupper_idemp (c : ascii) : Str.toupper (Str.toupper c) = Str.toupper c.
Proof. destruct c as [[] [] [] [] [] [] [] []]; reflexivity. Qed.

Lemma toUppercase_idemp (s : string) :
  Str.toUppercase (Str.toUppercase s) = Str.toUppercase s.
Proof.
  induction s as [|c s IH]; simpl; [reflexivity|].
  by rewrite toupper_idemp, IH.
Qed.

(** ** Search sets *)

Lemma find_some_name (l : SearchSet.t) name n :
  SearchSet.find l name = Some n -> In n l /\ n_name n = name.
Proof.
  unfold SearchSet.find. intros H. apply List.find_some in H as [Hin Heq].
  split; [done|]. by apply String.eqb_eq.
Qed.

Lemma hasArchive_true (l : SearchSet.t) name :
  SearchSet.hasArchive l name = true <-> exists n, In n l /\ n_name n = name.
Proof.
  unfold SearchSet.hasArchive. rewrite bool_decide_eq_true. split.
  - intros [n Hn]. exists n. by apply find_some_name.
  - intros (n & Hin & Hname). unfold SearchSet.find.
    destruct (List.find _ l) eqn:E; [by eexists|].
    eapply List.find_none in E; [|exact Hin]. simpl in E.
    apply String.eqb_neq in E. congruence.
Qed.

Lemma hasArchive_false (l : SearchSet.t) name :
  SearchSet.hasArchive l name = false <-> forall n, In n l -> n_name n <> name.
Proof.
  rewrite <- not_true_iff_false, hasArchive_true. split.
  - intros H n Hin Hn. apply H. eauto.
  - intros H (n & Hin & Hn). by apply (H n).
Qed.

Lemma In_insert node (l : SearchSet.t) n :
  In n (SearchSet.insert node l) <-> n = node \/ In n l.
Proof.
  induction l as [|m l IH]; simpl.
  - intuition.
  - destruct (n_priority m <? n_priority node); simpl; [intuition|].
    rewrite IH. intuition.
Qed.

Lemma In_add name arc prio af (l : SearchSet.t) n :
  In n (SearchSet.add name arc prio af l) ->
  n = mkNode prio name arc af \/ In n l.
Proof.
  unfold SearchSet.add. destruct (SearchSet.hasArchive l name); [by right|].
  by rewrite In_insert.
Qed.

Lemma In_add_old name arc prio af (l : SearchSet.t) n :
  In n l -> In n (SearchSet.add name arc prio af l).
Proof.
  unfold SearchSet.add. destruct (SearchSet.hasArchive l name); [done|].
  rewrite In_insert. by right.
Qed.

Lemma hasArchive_add name arc prio af (l : SearchSet.t) :
  SearchSet.hasArchive (SearchSet.add name arc prio af l) name = true.
Proof.
  unfold SearchSet.add. destruct (SearchSet.hasArchive l name) eqn:E; [done|].
  apply hasArchive_true. eexists. rewrite In_insert. split; [by left|done].
Qed.

Lemma In_remove name (l : SearchSet.t) n :
  In n (SearchSet.remove name l) -> In n l.
Proof.
  induction l as [|m l IH]; simpl; [done|].
  destruct (String.eqb (n_name m) name); simpl; intuition.
Qed.

Lemma In_remove_other name (l : SearchSet.t) n :
  In n l -> n_name n <> name -> In n (SearchSet.remove name l).
Proof.
  induction l as [|m l IH]; simpl; [done|].
  intros [->|Hin] Hne.
  - apply String.eqb_neq in Hne. rewrite Hne. by left.
  - destruct (String.eqb (n_name m) name); [done|]. right. by apply IH.
Qed.

Lemma names_insert node (l : SearchSet.t) :
  n_name <$> SearchSet.insert node l ≡ₚ n_name node :: (n_name <$> l).
Proof.
  induction l as [|m l IH]; simpl; [done|].
  destruct (n_priority m <? n_priority node); simpl; [done|].
  rewrite IH. apply Permutation_swap.
Qed.

Lemma distinctNames_add name arc prio af (l : SearchSet.t) :
  distinctNames l -> distinctNames (SearchSet.add name arc prio af l).
Proof.
  unfold distinctNames, SearchSet.add. intros Hnd.
  destruct (SearchSet.hasArchive l name) eqn:E; [done|].
  rewrite names_insert. simpl. constructor; [|done].
  rewrite hasArchive_false in E. intros Hin.
  apply list_elem_of_fmap in Hin as (n & Hn & Hin).
  apply (E n); [by apply list_elem_of_In|done].
Qed.

Lemma remove_distinct name (l : SearchSet.t) :
  distinctNames l ->
  distinctNames (SearchSet.remove name l)
  /\ SearchSet.hasArchive (SearchSet.remove name l) name = false.
Proof.
  unfold distinctNames. induction l as [|m l IH]; simpl; intros Hnd.
  - split; [constructor|]. by apply hasArchive_false.
  - apply NoDup_cons in Hnd as [Hm Hnd].
    destruct (String.eqb (n_name m) name) eqn:E.
    + split; [done|]. apply String.eqb_eq in E. subst name.
      apply hasArchive_false. intros n Hin Hn. apply Hm.
      apply list_elem_of_fmap. exists n. split; [done|by apply list_elem_of_In].
    + destruct (IH Hnd) as [IH1 IH2]. split.
      * simpl. constructor; [|done]. intros Hin. apply Hm.
        apply list_elem_of_fmap in Hin as (n & Hn & Hin).
        apply list_elem_of_fmap. exists n. split; [done|].
        apply list_elem_of_In. eapply In_remove. by apply list_elem_of_In.
      * apply hasArchive_false. intros n [<-|Hin] Hn.
        -- apply String.eqb_neq in E. done.
        -- rewrite hasArchive_false in IH2. by apply (IH2 n).
Qed.

Lemma remove_absent name (l : SearchSet.t) :
  SearchSet.hasArchive l name = false -> SearchSet.remove name l = l.
Proof.
  rewrite hasArchive_false. induction l as [|m l IH]; simpl; [done|]. intros H.
  destruct (String.eqb (n_name m) name) eqn:E.
  - apply String.eqb_eq in E. exfalso. apply (H m); [by left|done].
  - f_equal. apply IH. intros n Hin. apply H. by right.
Qed.

(** ** Opening what is already open *)

(** C1.  Opening a package is idempotent and never parses again.  When
    the upper-cased name is registered in the normal or in the protected
    layer, [loadPakFile] returns true and leaves the whole object as it was:
    the trace has no new entry, so no stream was created and no loader was
    called.  When the name is a key of the archive cache, [loadArchive]
    returns the very pointer stored in the cache, again with the object,
    trace included, unchanged.  And a package that was just opened with
    success is open: opening it once more changes nothing.  The overload
    that takes a path resolves the file through [_files] first and then
    does the same. *)
Theorem open_package_idempotent (name : string) (file : ArchiveMember) (r : Resource) :
  (isInPakList name r = true -> loadPakFile name file r = (true, r))
  /\ (forall p, _archiveCache r !! name = Some p ->
        loadArchive name file r = (Some p, r))
  /\ (forall r1 file', loadPakFile name file r = (true, r1) ->
        loadPakFile name file' r1 = (true, r1))
  /\ (isInPakList name r = true ->
      files_getMember r (Str.toUppercase name) = Ret (Some file) ->
      loadPakFile_path name r = Ret (true, r)).
Proof.
  assert (Hfirst : forall n f s, isInPakList n s = true ->
                                 loadPakFile n f s = (true, s)).
  { intros n f s H. unfold isInPakList in H. unfold loadPakFile. by rewrite H. }
  split; [apply Hfirst|]. split; [|split].
  - intros p Hp. unfold loadArchive. by rewrite Hp.
  - intros r1 file' Hload. apply Hfirst. unfold isInPakList.
    unfold loadPakFile in Hload.
    destruct (SearchSet.hasArchive (_archiveFiles r) (Str.toUppercase name)
              || SearchSet.hasArchive (_protectedFiles r) (Str.toUppercase name)) eqn:E.
    + by inversion Hload; subst.
    + destruct (loadArchive (Str.toUppercase name) file r) as [[p|] r'];
        [|discriminate].
      inversion Hload; subst. simpl. by rewrite hasArchive_add.
  - intros Hin Hmem. unfold loadPakFile_path. rewrite Hmem. simpl. f_equal.
    apply Hfirst. unfold isInPakList in *. by rewrite toUppercase_idemp.
Qed.

(** ** The loader loop of loadArchive *)

Lemma loaderLoop_refines name member ls : forall i data,
  loaderLoop name member i ls (mkStream data 0)
  = loaderLoop_at0 name member i ls data.
Proof.
  induction ls as [|l ls IH]; intros i data; simpl; [done|].
  destruct (checkFilename l name); [|apply IH].
  destruct (isLoadable l name (mkStream data 0)) as [ok pos1]. simpl.
  destruct ok; [done|]. unfold Strm.seek. simpl. by rewrite IH.
Qed.

Lemma loaderLoop_at0_offsets name member ls : forall i data,
  Forall at_offset_0 (loaderLoop_at0 name member i ls data).2.
Proof.
  induction ls as [|l ls IH]; intros i data; simpl; [constructor|].
  destruct (checkFilename l name); [|apply IH].
  destruct (isLoadable l name (mkStream data 0)) as [[] pos1]; simpl.
  - repeat constructor.
  - specialize (IH (S i) data).
    destruct (loaderLoop_at0 name member (S i) ls data) as [a evs]. simpl in *.
    by repeat constructor.
Qed.

(** C5.  Loader fallback preserves the stream.  A load that is not served
    from the cache opens the member's stream once and then runs exactly the
    loop in which every loader that passes the filename check gets the
    stream at offset 0 for its content check, and the loader that accepts
    gets it at offset 0 for [load]: the calls recorded in the trace are
    those of [loaderLoop_at0], and each of them was made at offset 0,
    whatever position the earlier content checks left the stream at. *)
Theorem loadArchive_loaders_see_offset_0 (name : string) (member : ArchiveMember)
    (r : Resource) (data : list byte) :
  _archiveCache r !! name = None ->
  am_data member = Some data ->
  let run := loaderLoop_at0 name member 0 (_loaders r) data in
  trace (loadArchive name member r).2
    = trace r ++ EvCreateReadStream (am_name member) :: run.2
  /\ Forall at_offset_0 run.2
  /\ (forall a, run.1 = Some a ->
        exists p, (loadArchive name member r).1 = Some p
                  /\ heap (loadArchive name member r).2 !! p = Some a)
  /\ (run.1 = None -> (loadArchive name member r).1 = None).
Proof.
  intros Hc Hd run. unfold loadArchive. rewrite Hc.
  unfold Arc.createReadStream. rewrite Hd. simpl.
  rewrite loaderLoop_refines. fold run.
  pose proof (loaderLoop_at0_offsets name member (_loaders r) 0 data) as Hoff.
  fold run in Hoff. destruct run as [[a|] evs]; simpl in *.
  - split; [by rewrite <- app_assoc|]. split; [done|]. split; [|done].
    intros a' [= <-]. eexists. split; [done|]. simpl. apply lookup_insert_eq.
  - split; [by rewrite <- app_assoc|]. split; [done|]. split; [done|done].
Qed.

(** ** loadFileToBuf *)

Lemma int32_cases (z : Z) :
  0 <= z < 2 ^ 32 ->
  (z < 2 ^ 31 /\ int32 z = z) \/ (2 ^ 31 <= z /\ int32 z = z - 2 ^ 32).
Proof.
  intros Hz. unfold int32. destruct (Z_lt_dec z (2 ^ 31)) as [Hlt|Hge].
  - left. split; [done|]. rewrite Z.mod_small; lia.
  - right. split; [lia|].
    replace (z + 2 ^ 31) with ((z - 2 ^ 31) + 1 * 2 ^ 32) by lia.
    rewrite Z_mod_plus_full, Z.mod_small; lia.
Qed.

Lemma drop_replicate_app {A} (k m : nat) (x : A) (rest : list A) :
  (k <= m)%nat ->
  drop k (replicate m x ++ rest) = replicate (m - k) x ++ rest.
Proof.
  intros Hk. rewrite drop_app_le by (rewrite length_replicate; lia).
  by rewrite drop_replicate.
Qed.

(** C4.  For a file that resolves, [loadFileToBuf] zero-fills the first
    [maxSize] bytes of the buffer, copies exactly
    [min maxSize (stream size)] bytes from the start of the file over them
    and returns true: a short file leaves a zero tail, a long file is cut at
    [maxSize], and no byte beyond [maxSize] is written.  For a file that
    does not resolve it returns false and the buffer is as it was.
    [maxSize] is any [uint32], also one whose [int32] cast is negative; the
    buffer holds at least [maxSize] bytes. *)
Theorem loadFileToBuf_zero_fills_then_copies (file : string) (buf : list byte)
    (maxSize : Z) (r : Resource) :
  0 <= maxSize < 2 ^ 32 ->
  maxSize <= Z.of_nat (length buf) ->
  (forall name data, findFile r file = Ret (Some (name, data)) ->
     loadFileToBuf file buf maxSize r = Ret (true, filledBuf data buf maxSize)
     /\ length (filledBuf data buf maxSize) = length buf)
  /\ (findFile r file = Ret None ->
      loadFileToBuf file buf maxSize r = Ret (false, buf)).
Proof.
  intros Hmax Hbuf. split.
  - intros name data Hfind. split.
    + unfold loadFileToBuf, createReadStream. rewrite Hfind. simpl.
      unfold memset. rewrite (proj2 (Z.leb_le _ _) Hbuf). simpl.
      unfold Strm.read, Strm.size, filledBuf. simpl.
      set (L := Z.of_nat (length data)).
      assert (HL : 0 <= L) by (unfold L; lia).
      rewrite Z.sub_0_r, (Z.max_r 0 L) by lia.
      destruct (int32_cases maxSize Hmax) as [[Hlt Hi]|[Hge Hi]]; rewrite Hi.
      * destruct (Z.leb_spec maxSize L) as [Hle|Hgt].
        -- unfold uint32. rewrite Z.mod_small by lia.
           rewrite (Z.min_l maxSize L) by lia.
           rewrite drop_replicate_app by lia.
           by rewrite Z.sub_diag, Nat.sub_diag.
        -- unfold uint32. rewrite Z.mod_small by lia.
           rewrite (Z.min_r maxSize L), Z.min_id by lia.
           rewrite drop_replicate_app by lia.
           simpl. repeat (f_equal; try lia).
      * rewrite (proj2 (Z.leb_le (maxSize - 2 ^ 32) L)) by lia.
        unfold uint32. rewrite Z.mod_small by lia.
        rewrite drop_replicate_app by lia.
        simpl. repeat (f_equal; try lia).
    + unfold filledBuf. rewrite !length_app, length_take, length_replicate, length_drop.
      lia.
  - intros Hfind. unfold loadFileToBuf, createReadStream. by rewrite Hfind.
Qed.

(** ** The Kyrandia Mac installer in five parts *)

Section Installer.

Variable env : Env.

Lemma subStream_payload (b : list byte) :
  SeekableSubReadStream (mkStream b 0) 100 (Strm.size (mkStream b 0))
  = mkStream (payload b) 0.
Proof.
  unfold SeekableSubReadStream, Strm.size, payload. simpl. f_equal.
  apply take_ge. rewrite length_drop. lia.
Qed.

Lemma openInstallerParts_good base nums bs :
  Forall2 (goodPart env base) nums bs ->
  openInstallerParts env base nums = Ret ((fun b => mkStream (payload b) 0) <$> bs).
Proof.
  induction 1 as [|i b nums bs [Hopen Hlen] _ IH]; simpl; [done|].
  rewrite Hopen. destruct (Z.leb_spec (Strm.size (mkStream b 0)) 100) as [Hle|_].
  - unfold Strm.size in Hle. simpl in Hle. lia.
  - rewrite IH. simpl. by rewrite subStream_payload.
Qed.

Lemma openInstallerParts_bad base pre i post bs :
  Forall2 (goodPart env base) pre bs ->
  (openFileOrDataFork env (partName base i) = None ->
   openInstallerParts env base (pre ++ i :: post)
   = Fatal ("Failed to load Legend of Kyrandia installer file part "
            +:+ partName base i))
  /\ (forall b, openFileOrDataFork env (partName base i) = Some b ->
      (length b <= 100)%nat ->
      openInstallerParts env base (pre ++ i :: post)
      = Fatal ("Legend of Kyrandia installer file part "
               +:+ partName base i +:+ " is too short")).
Proof.
  induction 1 as [|j c pre bs [Hopen Hlen] _ [IH1 IH2]]; simpl.
  - split.
    + intros ->. done.
    + intros b -> Hb.
      destruct (Z.leb_spec (Strm.size (mkStream b 0)) 100) as [_|Hgt]; [done|].
      unfold Strm.size in Hgt. simpl in Hgt. lia.
  - rewrite Hopen.
    destruct (Z.leb_spec (Strm.size (mkStream c 0)) 100) as [Hle|_].
    { unfold Strm.size in Hle. simpl in Hle. lia. }
    split.
    + intros Hi. by rewrite (IH1 Hi).
    + intros b Hb Hshort. by rewrite (IH2 b Hb Hshort).
Qed.

Lemma concat_drop_lookup (h : nat) (bs : list (list byte)) : forall k b j,
  bs !! k = Some b ->
  (j < length (drop h b))%nat ->
  concat (drop h <$> bs) !! (length (concat (drop h <$> take k bs)) + j)%nat
  = b !! (h + j)%nat.
Proof.
  induction bs as [|c bs IH]; intros k b j Hk Hj; [done|].
  destruct k as [|k]; simpl in *.
  - inversion Hk; subst c. rewrite lookup_app_l by done.
    by rewrite lookup_drop.
  - rewrite length_app, <- Nat.add_assoc.
    rewrite lookup_app_r by lia.
    match goal with
    | |- context [(?a + ?b - ?a)%nat] => replace (a + b - a)%nat with b by lia
    end.
    by apply IH.
Qed.

Lemma concat_payload_lookup (bs : list (list byte)) k b j :
  bs !! k = Some b ->
  (j < length (payload b))%nat ->
  concat (payload <$> bs) !! (payloadStart bs k + j)%nat = b !! (100 + j)%nat.
Proof. apply (concat_drop_lookup 100). Qed.

Lemma concat_payload_length (bs : list (list byte)) :
  length (concat (payload <$> bs)) = sum_list ((fun b => length b - 100)%nat <$> bs).
Proof.
  induction bs as [|c bs IH]; csimpl; [done|].
  rewrite length_app, IH. unfold payload. by rewrite length_drop.
Qed.

(** C6.  The installer in five numbered parts.  With no single-file
    installer present and the first part found under [base], the parts 1 to
    5 are opened in this order.  When all five open and each is longer than
    100 bytes, the stream passed on to the StuffIt loading is, at offset 0,
    the concatenation in part order of the parts without their first 100
    bytes: its length is the sum of the payload lengths, and the byte at
    distance [j] from the start of part [k]'s payload is byte [100 + j] of
    part [k], so nothing is lost or repeated at a boundary.  When the parts
    before part [i] are good and part [i] does not open, or is at most 100
    bytes long, the call ends in the fatal error naming part [i]. *)
Theorem installer_parts_validated_and_concatenated (base : string) (r : Resource) :
  findMacResourceFile env "Install Legend of Kyrandia" "" = "" ->
  findMacResourceFile env "Legend of Kyrandia" " Installer" = base ->
  base <> "" ->
  (forall bs, Forall2 (goodPart env base) (seq 1 5) bs ->
     loadKyra1MacInstaller env r
     = Ret (loadStuffItArchive_stream env (mkStream (concat (payload <$> bs)) 0)
              "Install Legend of Kyrandia" "Legend of Kyrandia(TM) Installer.*" r)
     /\ length (concat (payload <$> bs))
        = sum_list ((fun b => length b - 100)%nat <$> bs)
     /\ (forall k b j, bs !! k = Some b -> (j < length b - 100)%nat ->
           concat (payload <$> bs) !! (payloadStart bs k + j)%nat
           = b !! (100 + j)%nat))
  /\ (forall pre i post bs, seq 1 5 = pre ++ i :: post ->
        Forall2 (goodPart env base) pre bs ->
        (openFileOrDataFork env (partName base i) = None ->
         loadKyra1MacInstaller env r
         = Fatal ("Failed to load Legend of Kyrandia installer file part "
                  +:+ partName base i))
        /\ (forall b, openFileOrDataFork env (partName base i) = Some b ->
              (length b <= 100)%nat ->
              loadKyra1MacInstaller env r
              = Fatal ("Legend of Kyrandia installer file part "
                       +:+ partName base i +:+ " is too short"))).
Proof.
  intros Hsingle Hbase Hne.
  assert (Hunfold : loadKyra1MacInstaller env r
    = let* parts := openInstallerParts env base (seq 1 5) in
      Ret (loadStuffItArchive_stream env (ConcatReadStream parts)
             "Install Legend of Kyrandia" "Legend of Kyrandia(TM) Installer.*" r)).
  { unfold loadKyra1MacInstaller. rewrite Hsingle, Hbase. simpl.
    apply String.eqb_neq in Hne. by rewrite Hne. }
  split.
  - intros bs Hgood. split; [|split].
    + rewrite Hunfold, (openInstallerParts_good _ _ _ Hgood). simpl.
      unfold ConcatReadStream. by rewrite <- list_fmap_compose.
    + apply concat_payload_length.
    + intros k b j Hk Hj. apply concat_payload_lookup; [done|].
      unfold payload. by rewrite length_drop.
  - intros pre i post bs Hseq Hgood.
    destruct (openInstallerParts_bad base pre i post bs Hgood) as [H1 H2].
    rewrite Hunfold, Hseq. split.
    + intros Hi. by rewrite (H1 Hi).
    + intros b Hb Hshort. by rewrite (H2 b Hb Hshort).
Qed.

End Installer.

(** ** unloadPakFile *)

(** C10.  [unloadPakFile] does nothing for a name outside the normal
    layer.  When the upper-cased name is not registered in
    [_archiveFiles], be it cached only, or registered in the protected
    layer only, the call returns the object as it was: both layers, the
    cache and the live archives are unchanged, whatever the flag.  So a
    cache entry goes away only if its key is the upper-cased name, that name
    was in the normal layer when the call was made, and the flag was set. *)
Theorem unloadPakFile_noop_outside_normal_layer (name : string)
    (remFromCache : bool) (r : Resource) :
  (SearchSet.hasArchive (_archiveFiles r) (Str.toUppercase name) = false ->
   unloadPakFile name remFromCache r = r)
  /\ (forall k p, _archiveCache r !! k = Some p ->
        _archiveCache (unloadPakFile name remFromCache r) !! k = None ->
        k = Str.toUppercase name
        /\ SearchSet.hasArchive (_archiveFiles r) k = true
        /\ remFromCache = true).
Proof.
  split.
  - intros H. unfold unloadPakFile. by rewrite H.
  - intros k p Hk Hgone. unfold unloadPakFile in Hgone.
    destruct (SearchSet.hasArchive (_archiveFiles r) (Str.toUppercase name)) eqn:E;
      [|congruence].
    destruct remFromCache; simpl in Hgone; [|congruence].
    destruct (_archiveCache r !! Str.toUppercase name) as [q|] eqn:Eq;
      simpl in Hgone; [|congruence].
    destruct (decide (k = Str.toUppercase name)) as [->|Hne]; [done|].
    rewrite lookup_delete_ne in Hgone by done. congruence.
Qed.

(** [unloadPakFile] never writes [_protectedFiles], [_files], the loaders or
    the search manager. *)
Lemma unloadPakFile_frame (name : string) (remFromCache : bool) (r : Resource) :
  _protectedFiles (unloadPakFile name remFromCache r) = _protectedFiles r
  /\ _files (unloadPakFile name remFromCache r) = _files r
  /\ _loaders (unloadPakFile name remFromCache r) = _loaders r
  /\ searchMan (unloadPakFile name remFromCache r) = searchMan r
  /\ next_ptr (unloadPakFile name remFromCache r) = next_ptr r.
Proof.
  unfold unloadPakFile.
  destruct (SearchSet.hasArchive (_archiveFiles r) (Str.toUppercase name)); [|done].
  destruct remFromCache; [|done]. simpl.
  by destruct (_archiveCache r !! Str.toUppercase name).
Qed.

(** ** Ownership is kept by unloading *)

Lemma hasArchive_remove_false name k (l : SearchSet.t) :
  SearchSet.hasArchive l k = false ->
  SearchSet.hasArchive (SearchSet.remove name l) k = false.
Proof.
  rewrite !hasArchive_false. intros H n Hin. apply H. by eapply In_remove.
Qed.

Lemma Forall_remove (P : Node -> Prop) name (l : SearchSet.t) :
  Forall P l -> Forall P (SearchSet.remove name l).
Proof.
  rewrite !Forall_forall. intros H n Hin. apply H.
  apply list_elem_of_In. eapply In_remove. by apply list_elem_of_In.
Qed.

Lemma wf_cache_inj r k1 k2 p :
  wf r -> _archiveCache r !! k1 = Some p -> _archiveCache r !! k2 = Some p -> k1 = k2.
Proof.
  intros (_ & Hinj & _) H1 H2.
  exact (map_Forall_lookup_1 _ _ _ _ (map_Forall_lookup_1 _ _ _ _ Hinj H1) H2 eq_refl).
Qed.

Lemma wf_cache_live r k p :
  wf r -> _archiveCache r !! k = Some p -> is_Some (heap r !! p).
Proof. intros (Hlive & _) H. exact (map_Forall_lookup_1 _ _ _ _ Hlive H). Qed.

(** Taking a name out of the normal layer keeps the state well formed. *)
Lemma wf_remove_normal name r :
  wf r -> wf (set_archiveFiles (SearchSet.remove name) r).
Proof.
  intros (Hlive & Hinj & Hnorm & Hprot & Hdist & Hdisj & Hdir & Hfp & Hfresh).
  unfold wf, heapFresh. simpl. repeat split; try done.
  - by apply Forall_remove.
  - by apply remove_distinct.
  - eapply Forall_impl; [exact Hdisj|]. intros n Hn. simpl in Hn.
    by apply hasArchive_remove_false.
  - eapply Forall_impl; [exact Hdir|]. intros n Hn.
    unfold directNodeOk in *. simpl. destruct (n_arc n); try done.
    eapply Exists_impl; [exact Hn|]. intros kp [? ?]. split; [done|].
    by apply hasArchive_remove_false.
Qed.

(** Destroying the archive cached under [key] and erasing the entry keeps
    the state well formed when no layer and no node of [_files] relies on
    that entry. *)
Lemma wf_erase key p r :
  wf r ->
  _archiveCache r !! key = Some p ->
  SearchSet.hasArchive (_archiveFiles r) key = false ->
  SearchSet.hasArchive (_protectedFiles r) key = false ->
  Forall (fun n => match n_arc n with
                   | RefArc q => q <> p
                   | _ => True
                   end) (_files r) ->
  wf (set_archiveCache (delete key) (free p r)).
Proof.
  intros Hwf Hkey Hnk Hpk Hfiles.
  pose proof Hwf as (Hlive & Hinj & Hnorm & Hprot & Hdist & Hdisj & Hdir & Hfp & Hfresh).
  unfold wf, heapFresh. simpl. repeat split; try done.
  - apply map_Forall_lookup_2. intros k q Hk.
    apply lookup_delete_Some in Hk as [Hne Hk].
    rewrite lookup_delete_ne.
    + by eapply wf_cache_live.
    + intros ->. apply Hne. by eapply wf_cache_inj.
  - apply map_Forall_lookup_2. intros k1 p1 H1.
    apply map_Forall_lookup_2. intros k2 p2 H2 ->.
    apply lookup_delete_Some in H1 as [_ H1].
    apply lookup_delete_Some in H2 as [_ H2]. by eapply wf_cache_inj.
  - rewrite hasArchive_false in Hnk.
    rewrite Forall_forall in Hnorm |- *. intros n Hin.
    specialize (Hnorm n Hin). unfold layerNodeOk in *. simpl.
    destruct (n_arc n); try done. rewrite lookup_delete_ne; [done|].
    intros Heq. by apply (Hnk n); [apply list_elem_of_In|].
  - rewrite hasArchive_false in Hpk.
    rewrite Forall_forall in Hprot |- *. intros n Hin.
    specialize (Hprot n Hin). unfold layerNodeOk in *. simpl.
    destruct (n_arc n); try done. rewrite lookup_delete_ne; [done|].
    intros Heq. by apply (Hpk n); [apply list_elem_of_In|].
  - rewrite Forall_forall in Hdir, Hfiles |- *. intros n Hin.
    specialize (Hdir n Hin). specialize (Hfiles n Hin).
    unfold directNodeOk in *. simpl. destruct (n_arc n) as [| | |q|]; try done.
    apply Exists_exists in Hdir as ([k q'] & Hkq & Hq & Hk). simpl in *. subst q'.
    apply Exists_exists. exists (k, q). split; [|done].
    apply elem_of_map_to_list in Hkq. apply elem_of_map_to_list.
    rewrite lookup_delete_ne; [done|]. intros ->. congruence.
  - apply map_Forall_lookup_2. intros q a Hq.
    apply lookup_delete_Some in Hq as [_ Hq].
    exact (map_Forall_lookup_1 _ _ _ _ Hfresh Hq).
Qed.

(** [unloadPakFile] keeps the state well formed. *)
Lemma wf_unloadPakFile name remFromCache r :
  wf r -> wf (unloadPakFile name remFromCache r).
Proof.
  intros Hwf. unfold unloadPakFile.
  destruct (SearchSet.hasArchive (_archiveFiles r) (Str.toUppercase name)) eqn:E;
    [|done].
  pose proof (wf_remove_normal (Str.toUppercase name) r Hwf) as Hwf1.
  destruct remFromCache; [|done]. simpl.
  destruct (_archiveCache r !! Str.toUppercase name) as [p|] eqn:Ep; [|done].
  pose proof Hwf as (Hlive & Hinj & Hnorm & Hprot & Hdist & Hdisj & Hdir & Hfp & Hfresh).
  apply wf_erase; try done.
  - simpl. by apply remove_distinct.
  - simpl. apply hasArchive_false. intros n Hin Hn.
    rewrite Forall_forall in Hdisj.
    specialize (Hdisj n (proj2 (list_elem_of_In _ _) Hin)). simpl in Hdisj.
    congruence.
  - simpl. rewrite Forall_forall in Hdir |- *. intros n Hin.
    specialize (Hdir n Hin). unfold directNodeOk in Hdir.
    destruct (n_arc n) as [| | |q|]; try done. intros ->.
    apply Exists_exists in Hdir as ([k q'] & Hkq & Hq & Hk). simpl in *. subst q'.
    apply elem_of_map_to_list in Hkq.
    assert (k = Str.toUppercase name) as -> by (by eapply wf_cache_inj).
    congruence.
Qed.

(** ** Lookups in a well-formed state *)

Lemma lookup_found {A} (look : ArcRef -> Outcome (option A)) (l : SearchSet.t) :
  Forall (fun n => exists x, look (n_arc n) = Ret x) l ->
  Exists (fun n => exists e, look (n_arc n) = Ret (Some e)) l ->
  exists e, SearchSet.lookup look l = Ret (Some e).
Proof.
  induction l as [|n l IH]; intros Hdef Hex; [by inversion Hex|].
  apply Forall_cons in Hdef as [[x Hx] Hdef]. simpl. rewrite Hx. simpl.
  destruct x as [e|]; [by eexists|].
  apply IH; [done|]. apply Exists_cons in Hex as [[e He]|Hex]; [congruence|done].
Qed.

Lemma lookup_defined {A} (look : ArcRef -> Outcome (option A)) (l : SearchSet.t) :
  Forall (fun n => exists x, look (n_arc n) = Ret x) l ->
  exists x, SearchSet.lookup look l = Ret x.
Proof.
  induction l as [|n l IH]; intros Hdef; [by eexists|].
  apply Forall_cons in Hdef as [[x Hx] Hdef]. simpl. rewrite Hx. simpl.
  destruct x as [e|]; [by eexists|]. by apply IH.
Qed.

Lemma lookLayer_cached r name n :
  wf r -> layerNodeOk r n -> exists x, lookLayer r name (n_arc n) = Ret x.
Proof.
  intros Hwf Hn. unfold layerNodeOk in Hn. destruct (n_arc n) as [| | |p|]; try done.
  destruct (wf_cache_live _ _ _ Hwf Hn) as [a Ha].
  simpl. unfold deref. rewrite Ha. by eexists.
Qed.

Lemma lookFiles_defined r name n :
  wf r -> n ∈ _files r -> exists x, lookFiles r name (n_arc n) = Ret x.
Proof.
  intros Hwf Hin.
  pose proof Hwf as (Hlive & Hinj & Hnorm & Hprot & Hdist & Hdisj & Hdir & Hfp & Hfresh).
  rewrite Forall_forall in Hdir. specialize (Hdir n Hin).
  unfold directNodeOk in Hdir. destruct (n_arc n) as [| | |p|] eqn:E; simpl.
  - by eexists.
  - apply lookup_defined. eapply Forall_impl; [exact Hprot|].
    intros m Hm. by apply lookLayer_cached.
  - apply lookup_defined. eapply Forall_impl; [exact Hnorm|].
    intros m Hm. by apply lookLayer_cached.
  - apply Exists_exists in Hdir as ([k q] & Hkq & Hq & _). simpl in Hq. subst q.
    apply elem_of_map_to_list in Hkq.
    destruct (wf_cache_live _ _ _ Hwf Hkq) as [a Ha].
    unfold deref. rewrite Ha. by eexists.
  - done.
Qed.

(** In a well-formed state a member of an archive of the protected layer
    resolves through [_files]. *)
Lemma protected_member_resolves r n p a m :
  wf r ->
  n ∈ _protectedFiles r -> n_arc n = RefArc p ->
  heap r !! p = Some a -> Arc.hasFile a m = true -> m <> "" ->
  files_hasFile r m = Ret true.
Proof.
  intros Hwf Hin Harc Ha Hm Hne.
  pose proof Hwf as (Hlive & Hinj & Hnorm & Hprot & Hdist & Hdisj & Hdir & Hfp & Hfresh).
  unfold files_hasFile, findFile. apply String.eqb_neq in Hne. rewrite Hne.
  destruct (lookup_found (lookFiles r m) (_files r)) as [e He].
  - apply Forall_forall. intros k Hk. by apply lookFiles_defined.
  - eapply Exists_impl; [exact Hfp|]. intros k Hk. simpl in Hk. rewrite Hk. simpl.
    apply lookup_found.
    + eapply Forall_impl; [exact Hprot|]. intros k' Hk'. by apply lookLayer_cached.
    + apply Exists_exists. exists n. split; [done|]. rewrite Harc. simpl.
      unfold deref. rewrite Ha. simpl.
      unfold Arc.hasFile in Hm. apply bool_decide_eq_true in Hm as [e He].
      rewrite He. by eexists.
  - by rewrite He.
Qed.

(** The archive behind a node of the protected layer survives
    [unloadPakFile]. *)
Lemma protected_archive_survives name remFromCache r n p a :
  wf r ->
  n ∈ _protectedFiles r -> n_arc n = RefArc p -> heap r !! p = Some a ->
  heap (unloadPakFile name remFromCache r) !! p = Some a.
Proof.
  intros Hwf Hin Harc Ha.
  pose proof Hwf as (Hlive & Hinj & Hnorm & Hprot & Hdist & Hdisj & Hdir & Hfp & Hfresh).
  unfold unloadPakFile.
  destruct (SearchSet.hasArchive (_archiveFiles r) (Str.toUppercase name)) eqn:E;
    [|done].
  destruct remFromCache; [|done]. simpl.
  destruct (_archiveCache r !! Str.toUppercase name) as [q|] eqn:Eq; [|done].
  simpl. rewrite lookup_delete_ne; [done|]. intros ->.
  rewrite Forall_forall in Hprot, Hdisj.
  specialize (Hprot n Hin). specialize (Hdisj n Hin). simpl in Hdisj.
  unfold layerNodeOk in Hprot. rewrite Harc in Hprot.
  assert (n_name n = Str.toUppercase name) by (by eapply wf_cache_inj).
  congruence.
Qed.

(** C2.  [unloadPakFile] never touches the protected layer.  For every
    name and either value of the flag the call leaves [_protectedFiles]
    exactly as it was.  And in a state whose archives are owned by the
    cache, when the protected layer holds an archive under [name], as
    [loadProtectedFiles] registers it, that archive is still alive after
    [unloadPakFile name remFromCache] and every member of it still resolves
    through [_files]. *)
Theorem unloadPakFile_spares_protected (name : string) (remFromCache : bool)
    (r : Resource) :
  _protectedFiles (unloadPakFile name remFromCache r) = _protectedFiles r
  /\ (forall p a m,
        wf r ->
        mkNode 0 name (RefArc p) false ∈ _protectedFiles r ->
        heap r !! p = Some a ->
        Arc.hasFile a m = true ->
        m <> "" ->
        heap (unloadPakFile name remFromCache r) !! p = Some a
        /\ files_hasFile (unloadPakFile name remFromCache r) m = Ret true).
Proof.
  destruct (unloadPakFile_frame name remFromCache r) as (Hp & _).
  split; [done|]. intros p a m Hwf Hin Ha Hm Hne.
  assert (Halive : heap (unloadPakFile name remFromCache r) !! p = Some a)
    by (by eapply protected_archive_survives).
  split; [done|].
  eapply protected_member_resolves; eauto.
  - by apply wf_unloadPakFile.
  - by rewrite Hp.
  - done.
Qed.

(** ** How the well-formed states arise *)

Lemma wf_new env : wf (Resource_new env).
Proof. apply (bool_decide_unpack _). vm_compute. exact I. Qed.

Lemma wf_unloadAllPakFiles r : wf r -> wf (unloadAllPakFiles r).
Proof.
  intros (Hlive & Hinj & Hnorm & Hprot & Hdist & Hdisj & Hdir & Hfp & Hfresh).
  unfold wf, heapFresh, unloadAllPakFiles, distinctNames. simpl.
  repeat split; try done; try by constructor.
  eapply Forall_impl; [exact Hdir|]. intros n Hn. unfold directNodeOk in *. simpl.
  destruct (n_arc n); try done.
  eapply Exists_impl; [exact Hn|]. intros kp [? _]. done.
Qed.

(** Caching a new archive under a key that is not yet in the cache. *)
Lemma wf_cache_new key a r :
  wf r -> _archiveCache r !! key = None ->
  wf (set_archiveCache <[key := next_ptr r]> (alloc a r).2).
Proof.
  intros Hwf Hkey.
  pose proof Hwf as (Hlive & Hinj & Hnorm & Hprot & Hdist & Hdisj & Hdir & Hfp & Hfresh).
  assert (Hold : forall k q, _archiveCache r !! k = Some q -> q <> next_ptr r).
  { intros k q Hk. destruct (wf_cache_live _ _ _ Hwf Hk) as [b Hb].
    pose proof (map_Forall_lookup_1 _ _ _ _ Hfresh Hb). simpl in *. lia. }
  unfold wf, heapFresh. simpl. repeat split; try done.
  - apply map_Forall_lookup_2. intros k q Hk.
    apply lookup_insert_Some in Hk as [[<- <-]|[Hne Hk]].
    + rewrite lookup_insert_eq. by eexists.
    + rewrite lookup_insert_ne by (intros <-; by eapply Hold).
      by eapply wf_cache_live.
  - apply map_Forall_lookup_2. intros k1 p1 H1.
    apply map_Forall_lookup_2. intros k2 p2 H2 ->.
    apply lookup_insert_Some in H1 as [[<- <-]|[Hne1 H1]];
      apply lookup_insert_Some in H2 as [[<- H2]|[Hne2 H2]]; try done.
    + exfalso. by eapply Hold.
    + exfalso. subst p2. by eapply Hold.
    + by eapply wf_cache_inj.
  - eapply Forall_impl; [exact Hnorm|]. intros n Hn. unfold layerNodeOk in *. simpl.
    destruct (n_arc n); try done. rewrite lookup_insert_ne; [done|]. congruence.
  - eapply Forall_impl; [exact Hprot|]. intros n Hn. unfold layerNodeOk in *. simpl.
    destruct (n_arc n); try done. rewrite lookup_insert_ne; [done|]. congruence.
  - eapply Forall_impl; [exact Hdir|]. intros n Hn. unfold directNodeOk in *. simpl.
    destruct (n_arc n) as [| | |q|]; try done.
    apply Exists_exists in Hn as ([k q'] & Hkq & Hq & Hk). simpl in *. subst q'.
    apply Exists_exists. exists (k, q). split; [|done].
    apply elem_of_map_to_list in Hkq. apply elem_of_map_to_list.
    rewrite lookup_insert_ne; [done|]. congruence.
  - apply map_Forall_lookup_2. intros q b Hq.
    apply lookup_insert_Some in Hq as [[<- _]|[_ Hq]]; [lia|].
    pose proof (map_Forall_lookup_1 _ _ _ _ Hfresh Hq). simpl in *. lia.
Qed.

(** What [loadArchive] does to the state: nothing on a cache hit; a longer
    trace on a failure; and on a parse a new archive, cached under the name,
    at the next address. *)
Lemma loadArchive_cases name member r :
  (exists p, _archiveCache r !! name = Some p
             /\ loadArchive name member r = (Some p, r))
  \/ (_archiveCache r !! name = None
      /\ exists evs, loadArchive name member r = (None, emit evs r))
  \/ (_archiveCache r !! name = None
      /\ exists evs a,
           loadArchive name member r
           = (Some (next_ptr r),
              set_archiveCache <[name := next_ptr r]> (alloc a (emit evs r)).2)).
Proof.
  unfold loadArchive. destruct (_archiveCache r !! name) as [p|] eqn:E.
  - left. by exists p.
  - right. destruct (Arc.createReadStream member) as [stream|].
    + destruct (loaderLoop name member 0 _ stream) as [[a|] evs] eqn:El.
      * right. split; [done|]. exists ([EvCreateReadStream (am_name member)] ++ evs), a.
        unfold emit, set_trace, alloc, set_archiveCache. simpl.
        by rewrite <- app_assoc.
      * left. split; [done|]. exists ([EvCreateReadStream (am_name member)] ++ evs).
        unfold emit, set_trace. simpl. by rewrite <- app_assoc.
    + left. split; [done|]. by eexists.
Qed.

Lemma wf_loadArchive name member r :
  wf r -> wf (loadArchive name member r).2.
Proof.
  intros Hwf.
  destruct (loadArchive_cases name member r)
    as [(p & _ & ->)|[(_ & evs & ->)|(Hc & evs & a & ->)]]; simpl; try done.
  by apply (wf_cache_new name a (emit evs r)).
Qed.

Lemma loadArchive_result name member r p :
  (loadArchive name member r).1 = Some p ->
  _archiveCache (loadArchive name member r).2 !! name = Some p
  /\ _archiveFiles (loadArchive name member r).2 = _archiveFiles r
  /\ _protectedFiles (loadArchive name member r).2 = _protectedFiles r
  /\ _files (loadArchive name member r).2 = _files r.
Proof.
  destruct (loadArchive_cases name member r)
    as [(q & Hq & ->)|[(_ & evs & ->)|(Hc & evs & a & ->)]]; simpl.
  - by intros [= <-].
  - done.
  - intros [= <-]. by rewrite lookup_insert_eq.
Qed.

(** Registering in the normal layer an archive cached under [key], when
    the protected layer has no such name and [_files] does not refer to the
    archive directly. *)
Lemma wf_add_normal key p r :
  wf r ->
  _archiveCache r !! key = Some p ->
  SearchSet.hasArchive (_protectedFiles r) key = false ->
  Forall (fun n => n_arc n <> RefArc p) (_files r) ->
  wf (set_archiveFiles (SearchSet.add key (RefArc p) 0 false) r).
Proof.
  intros Hwf Hkey Hpk Hfiles.
  pose proof Hwf as (Hlive & Hinj & Hnorm & Hprot & Hdist & Hdisj & Hdir & Hfp & Hfresh).
  assert (Hhas : forall k, k <> key ->
            SearchSet.hasArchive (_archiveFiles r) k = false ->
            SearchSet.hasArchive (SearchSet.add key (RefArc p) 0 false (_archiveFiles r)) k
            = false).
  { intros k Hne. rewrite !hasArchive_false. intros H n Hin.
    apply In_add in Hin as [->|Hin]; [simpl; congruence|by apply H]. }
  unfold wf, heapFresh. simpl. repeat split; try done.
  - apply Forall_forall. intros n Hin.
    apply list_elem_of_In, In_add in Hin as [->|Hin]; [done|].
    rewrite Forall_forall in Hnorm. by apply Hnorm, list_elem_of_In.
  - by apply distinctNames_add.
  - rewrite hasArchive_false in Hpk. rewrite Forall_forall in Hdisj |- *.
    intros n Hin. simpl. apply Hhas; [|by apply Hdisj].
    intros Heq. by apply (Hpk n); [apply list_elem_of_In|].
  - rewrite Forall_forall in Hdir, Hfiles |- *. intros n Hin.
    specialize (Hdir n Hin). specialize (Hfiles n Hin).
    unfold directNodeOk in *. simpl. destruct (n_arc n) as [| | |q|]; try done.
    apply Exists_exists in Hdir as ([k q'] & Hkq & Hq & Hk). simpl in *. subst q'.
    apply Exists_exists. exists (k, q). split; [done|]. split; [done|]. simpl.
    apply Hhas; [|done]. intros ->.
    apply elem_of_map_to_list in Hkq. congruence.
Qed.

Lemma direct_not_fresh r :
  wf r -> Forall (fun n => n_arc n <> RefArc (next_ptr r)) (_files r).
Proof.
  intros Hwf.
  pose proof Hwf as (Hlive & Hinj & Hnorm & Hprot & Hdist & Hdisj & Hdir & Hfp & Hfresh).
  eapply Forall_impl; [exact Hdir|]. intros n Hn Harc.
  unfold directNodeOk in Hn. rewrite Harc in Hn.
  apply Exists_exists in Hn as ([k q] & Hkq & Hq & _). simpl in *. subst q.
  apply elem_of_map_to_list in Hkq.
  destruct (wf_cache_live _ _ _ Hwf Hkq) as [b Hb].
  pose proof (map_Forall_lookup_1 _ _ _ _ Hfresh Hb). simpl in *. lia.
Qed.

(** [loadPakFile] keeps the state well formed, provided [_files] does not
    refer directly to the archive cached under the name. *)
Lemma wf_loadPakFile name file r :
  wf r ->
  (forall q, _archiveCache r !! Str.toUppercase name = Some q ->
             Forall (fun n => n_arc n <> RefArc q) (_files r)) ->
  wf (loadPakFile name file r).2.
Proof.
  intros Hwf Hdirect. unfold loadPakFile.
  destruct (SearchSet.hasArchive (_archiveFiles r) (Str.toUppercase name)) eqn:En;
    [done|].
  destruct (SearchSet.hasArchive (_protectedFiles r) (Str.toUppercase name)) eqn:Ep;
    [done|]. simpl.
  destruct (loadArchive_cases (Str.toUppercase name) file r)
    as [(p & Hp & ->)|[(_ & evs & ->)|(Hc & evs & a & ->)]]; simpl.
  - apply wf_add_normal; auto.
  - done.
  - apply wf_add_normal.
    + by apply (wf_cache_new _ a (emit evs r)).
    + simpl. by rewrite lookup_insert_eq.
    + done.
    + simpl. by apply (direct_not_fresh r).
Qed.

Lemma wf_add_protected key p r :
  wf r ->
  _archiveCache r !! key = Some p ->
  SearchSet.hasArchive (_archiveFiles r) key = false ->
  wf (set_protectedFiles (SearchSet.add key (RefArc p) 0 false) r).
Proof.
  intros Hwf Hkey Hnk.
  pose proof Hwf as (Hlive & Hinj & Hnorm & Hprot & Hdist & Hdisj & Hdir & Hfp & Hfresh).
  unfold wf, heapFresh. simpl. repeat split; try done.
  - apply Forall_forall. intros n Hin.
    apply list_elem_of_In, In_add in Hin as [->|Hin]; [done|].
    rewrite Forall_forall in Hprot. by apply Hprot, list_elem_of_In.
  - apply Forall_forall. intros n Hin.
    apply list_elem_of_In, In_add in Hin as [->|Hin]; [done|].
    rewrite Forall_forall in Hdisj. by apply Hdisj, list_elem_of_In.
Qed.

(** [loadProtectedFiles], for names that are not loaded in the normal
    layer (as in [reset], which empties the layers first), keeps the state
    well formed and registers every name of the list. *)
Lemma hasArchive_add_mono name arc prio af (l : SearchSet.t) k :
  SearchSet.hasArchive l k = true ->
  SearchSet.hasArchive (SearchSet.add name arc prio af l) k = true.
Proof.
  rewrite !hasArchive_true. intros (n & Hin & Hn). exists n.
  split; [by apply In_add_old|done].
Qed.

Lemma wf_loadProtectedFiles list : forall r b r',
  wf r ->
  Forall (fun n => SearchSet.hasArchive (_archiveFiles r) n = false) list ->
  loadProtectedFiles list r = Ret (b, r') ->
  wf r'
  /\ _archiveFiles r' = _archiveFiles r
  /\ (forall k, SearchSet.hasArchive (_protectedFiles r) k = true ->
                SearchSet.hasArchive (_protectedFiles r') k = true)
  /\ Forall (fun n => SearchSet.hasArchive (_protectedFiles r') n = true) list.
Proof.
  induction list as [|n rest IH]; intros r b r' Hwf Hnames Hrun; simpl in Hrun.
  - inversion Hrun; subst. done.
  - apply Forall_cons in Hnames as [Hn Hrest].
    destruct (files_getMember r n) as [[f|]| | |]; simpl in Hrun; try done.
    destruct (loadArchive n f r) as [[p|] r1] eqn:El; [|done].
    pose proof (wf_loadArchive n f r Hwf) as Hwf1.
    pose proof (loadArchive_result n f r p) as Hres.
    rewrite El in Hwf1, Hres. simpl in *.
    destruct (Hres eq_refl) as (Hc & Ha & Hp & Hf).
    apply IH in Hrun as (Hwf' & Harch & Hmono & Hall).
    + simpl in *. split; [done|]. split; [by rewrite Harch|]. split.
      * intros k Hk. apply Hmono. apply hasArchive_add_mono. by rewrite Hp.
      * apply Forall_cons. split; [|done]. apply Hmono, hasArchive_add.
    + apply wf_add_protected; [done|done|by rewrite Ha].
    + simpl. by rewrite Ha.
Qed.

(** [reset] in the talkie version: both layers are emptied, then the
    sixteen files are protected; the state it leaves is well formed. *)
Lemma wf_teardown_then_protect list r b r' :
  wf r ->
  loadProtectedFiles list (unloadAllPakFiles r) = Ret (b, r') ->
  wf r' /\ _archiveFiles r' = []
  /\ Forall (fun n => SearchSet.hasArchive (_protectedFiles r') n = true) list.
Proof.
  intros Hwf Hrun.
  apply wf_loadProtectedFiles in Hrun as (Hwf' & Ha & _ & Hall).
  - done.
  - by apply wf_unloadAllPakFiles.
  - apply Forall_forall. intros n _. simpl. by apply hasArchive_false.
Qed.

Lemma reset_talkie env r :
  protectsTalkieFiles env = true ->
  reset env r = loadProtectedFiles kyra1TalkieList (unloadAllPakFiles r).
Proof.
  unfold protectsTalkieFiles, reset. intros H.
  repeat (apply andb_prop in H as [H ?]).
  rewrite H. simpl.
  destruct (bool_decide (game env = GI_KYRA1)
            && bool_decide (platform (gameFlags env) = kPlatformMacintosh)
            && useInstallerPackage (gameFlags env)); [done|].
  destruct (bool_decide (game env = GI_KYRA1) || bool_decide (game env = GI_EOB1));
    [|done].
  destruct (isDemo (gameFlags env)); [done|].
  by destruct (isTalkie (gameFlags env)).
Qed.

Lemma wf_reset_talkie env r b r' :
  protectsTalkieFiles env = true ->
  wf r -> reset env r = Ret (b, r') -> wf r'.
Proof.
  intros Hbranch Hwf Hrun. rewrite (reset_talkie env r Hbranch) in Hrun.
  by destruct (wf_teardown_then_protect _ _ _ _ Hwf Hrun).
Qed.

Lemma loadPakFile_files name file r :
  _files (loadPakFile name file r).2 = _files r.
Proof.
  unfold loadPakFile. destruct (_ || _); [done|].
  destruct (loadArchive_cases (Str.toUppercase name) file r)
    as [(p & _ & ->)|[(_ & evs & ->)|(Hc & evs & a & ->)]]; done.
Qed.

Lemma loadProtectedFiles_files list : forall r b r',
  loadProtectedFiles list r = Ret (b, r') -> _files r' = _files r.
Proof.
  induction list as [|n rest IH]; intros r b r' Hrun; simpl in Hrun.
  - by inversion Hrun.
  - destruct (files_getMember r n) as [[f|]| | |]; simpl in Hrun; try done.
    pose proof (loadArchive_result n f r) as Hres.
    destruct (loadArchive n f r) as [[p|] r1]; [|done].
    destruct (Hres p eq_refl) as (_ & _ & _ & Hf). simpl in *.
    apply IH in Hrun. simpl in Hrun. congruence.
Qed.

(** In a configuration where [reset] only protects files, every state the
    public operations reach is well formed. *)
Lemma reachable_wf env list r :
  resetProtects env list -> reachable env r -> wf r /\ layersOnly r.
Proof.
  intros Hreset. induction 1 as [|r b r' _ [Hwf Hlay] Hrun|r name file _ [Hwf Hlay]
    |r name b r' _ [Hwf Hlay] Hrun|r name flag _ [Hwf Hlay]|r _ [Hwf Hlay]].
  - split; [apply wf_new|]. unfold layersOnly. vm_compute. repeat constructor.
  - rewrite Hreset in Hrun. split.
    + by destruct (wf_teardown_then_protect _ _ _ _ Hwf Hrun).
    + unfold layersOnly. by rewrite (loadProtectedFiles_files _ _ _ _ Hrun).
  - split.
    + apply wf_loadPakFile; [done|]. intros q _.
      eapply Forall_impl; [exact Hlay|]. intros n Hn Harc. simpl in Hn.
        by rewrite Harc in Hn.
    + unfold layersOnly. by rewrite loadPakFile_files.
  - unfold loadPakFile_path in Hrun.
    destruct (files_getMember r (Str.toUppercase name)) as [[f|]| | |];
      simpl in Hrun; try done.
    + inversion Hrun as [Heq]. split.
      * replace r' with (loadPakFile (Str.toUppercase name) f r).2
          by (by rewrite Heq).
        apply wf_loadPakFile; [done|]. intros q _.
        eapply Forall_impl; [exact Hlay|]. intros n Hn Harc. simpl in Hn.
        by rewrite Harc in Hn.
      * replace r' with (loadPakFile (Str.toUppercase name) f r).2
          by (by rewrite Heq).
        unfold layersOnly. by rewrite loadPakFile_files.
    + by inversion Hrun; subst.
  - split; [by apply wf_unloadPakFile|].
    unfold layersOnly. destruct (unloadPakFile_frame name flag r) as (_ & Hf & _).
    by rewrite Hf.
  - split; [by apply wf_unloadAllPakFiles|done].
Qed.

(** The talkie version is such a configuration. *)
Lemma talkie_resetProtects env :
  protectsTalkieFiles env = true -> resetProtects env kyra1TalkieList.
Proof. intros H r. by apply reset_talkie. Qed.

(** So is Lands of Lore on floppy without the installer package. *)
Lemma lol_resetProtects env :
  protectsLolFiles env = true -> resetProtects env ["GENERAL.PAK"].
Proof.
  unfold protectsLolFiles. intros H r.
  repeat (apply andb_prop in H as [H ?]).
  apply bool_decide_eq_true in H3.
  destruct (useInstallerPackage (gameFlags env)) eqn:Ei; [done|].
  destruct (isTalkie (gameFlags env)) eqn:Et; [done|].
  destruct (isDemo (gameFlags env)) eqn:Ed; [done|].
  unfold reset. rewrite H, H3, Ei, Et, Ed. reflexivity.
Qed.

(** ** Sequences of unloads, and the teardown *)

Lemma unloadAllPakFiles_idemp r :
  unloadAllPakFiles (unloadAllPakFiles r) = unloadAllPakFiles r.
Proof. reflexivity. Qed.

Lemma loadProtectedFiles_registers list : forall r b r',
  loadProtectedFiles list r = Ret (b, r') ->
  (forall k, SearchSet.hasArchive (_protectedFiles r) k = true ->
             SearchSet.hasArchive (_protectedFiles r') k = true)
  /\ Forall (fun n => SearchSet.hasArchive (_protectedFiles r') n = true) list.
Proof.
  induction list as [|n rest IH]; intros r b r' Hrun; simpl in Hrun.
  - inversion Hrun; subst. done.
  - destruct (files_getMember r n) as [[f|]| | |]; simpl in Hrun; try done.
    pose proof (loadArchive_result n f r) as Hres.
    destruct (loadArchive n f r) as [[p|] r1]; [|done].
    destruct (Hres p eq_refl) as (_ & _ & Hp & _). simpl in Hp.
    apply IH in Hrun as [Hmono Hall]. simpl in Hmono.
    split.
    + intros k Hk. apply Hmono, hasArchive_add_mono. by rewrite Hp.
    + constructor; [|done]. apply Hmono, hasArchive_add.
Qed.

(** Whenever [reset] returns, the files of the game variant are in the
    protected layer. *)
Lemma reset_protects env r b r' :
  reset env r = Ret (b, r') ->
  Forall (fun f => SearchSet.hasArchive (_protectedFiles r') f = true)
         (protectedFilesOf env).
Proof.
  unfold reset, protectedFilesOf.
  destruct (negb (path_isDirectory env)); [done|].
  destruct (_ && _ && useInstallerPackage (gameFlags env)); [by constructor|].
  destruct (_ || _).
  { destruct (isDemo (gameFlags env)), (isTalkie (gameFlags env));
      cbn [negb andb]; try (intros _; by constructor).
    intros Hrun. by apply loadProtectedFiles_registers in Hrun as [_ Hall]. }
  destruct (bool_decide (game env = GI_KYRA2)) eqn:E2.
  { apply bool_decide_eq_true in E2. rewrite E2. intros _.
    rewrite bool_decide_eq_false_2 by done. by constructor. }
  destruct (bool_decide (game env = GI_KYRA3)) eqn:E3.
  { apply bool_decide_eq_true in E3. rewrite E3. intros _.
    rewrite bool_decide_eq_false_2 by done. by constructor. }
  destruct (bool_decide (game env = GI_LOL)); [|by constructor].
  destruct (negb (isTalkie (gameFlags env)) && negb (isDemo (gameFlags env)));
    [|by constructor].
  intros Hrun. by apply loadProtectedFiles_registers in Hrun as [_ Hall].
Qed.

(** C3, as the code has it.  An archive of the protected layer survives
    every sequence of [unloadPakFile] calls, for any names and flags: the
    protected layer stays as it was, the archive stays alive and its members
    still resolve.  [unloadAllPakFiles] is different: it empties the
    protected layer together with the normal layer and leaves the cache and
    the archives alone; [reset] starts with it, so the outcome of [reset] is
    the outcome it has on the state with both layers empty, and whenever
    [reset] returns, the protected files of the game variant are in the
    protected layer again. *)
Theorem protected_survive_unloadPakFile_not_teardown (env : Env)
    (calls : list (string * bool)) (r : Resource) (n : Node) (p : nat)
    (a : Archive) (m : string) :
  wf r ->
  n ∈ _protectedFiles r -> n_arc n = RefArc p ->
  heap r !! p = Some a ->
  Arc.hasFile a m = true ->
  m <> "" ->
  (_protectedFiles (unloadMany calls r) = _protectedFiles r
   /\ heap (unloadMany calls r) !! p = Some a
   /\ files_hasFile (unloadMany calls r) m = Ret true)
  /\ (_protectedFiles (unloadAllPakFiles r) = []
      /\ _archiveFiles (unloadAllPakFiles r) = []
      /\ _archiveCache (unloadAllPakFiles r) = _archiveCache r
      /\ heap (unloadAllPakFiles r) = heap r)
  /\ reset env r = reset env (unloadAllPakFiles r)
  /\ (forall b r', reset env r = Ret (b, r') ->
        Forall (fun f => SearchSet.hasArchive (_protectedFiles r') f = true)
               (protectedFilesOf env)).
Proof.
  intros Hwf Hin Harc Ha Hm Hne. split; [|split; [done|split]];
    [| |intros b r'; apply reset_protects].
  - revert r Hwf Hin Ha. induction calls as [|[name flag] rest IH]; intros r Hwf Hin Ha.
    + simpl. split; [done|]. split; [done|].
      by eapply protected_member_resolves.
    + simpl. destruct (unloadPakFile_frame name flag r) as (Hp & _).
      destruct (IH (unloadPakFile name flag r)) as (H1 & H2 & H3).
      * by apply wf_unloadPakFile.
      * by rewrite Hp.
      * by eapply protected_archive_survives.
      * split; [by rewrite H1|]. done.
  - unfold reset. by rewrite unloadAllPakFiles_idemp.
Qed.

(** ** Unload, then open again *)

Lemma parseCount_app tr evs :
  parseCount (tr ++ evs) = (parseCount tr + parseCount evs)%nat.
Proof. unfold parseCount. by rewrite List.filter_app, length_app. Qed.

Lemma loaderLoop_parses name member ls : forall i stream,
  match loaderLoop name member i ls stream with
  | (Some _, evs) => parseCount evs = 1%nat
  | (None, evs) => (parseCount evs <= 1)%nat
  end.
Proof.
  induction ls as [|l ls IH]; intros i stream; simpl; [unfold parseCount; simpl; lia|].
  destruct (checkFilename l name); [|apply IH].
  destruct (isLoadable l name stream) as [[] pos1].
  - destruct (load l member _); unfold parseCount; simpl; lia.
  - specialize (IH (S i) (Strm.seek (mkStream (st_data stream) pos1) 0)).
    destruct (loaderLoop name member (S i) ls _) as [[a|] evs]; done.
Qed.

(** A load that is not served from the cache and succeeds parses once. *)
Lemma loadArchive_parses_once name member r p :
  _archiveCache r !! name = None ->
  (loadArchive name member r).1 = Some p ->
  parseCount (trace (loadArchive name member r).2) = S (parseCount (trace r)).
Proof.
  intros Hc. unfold loadArchive. rewrite Hc.
  destruct (Arc.createReadStream member) as [stream|]; [|done].
  pose proof (loaderLoop_parses name member (_loaders r) 0 stream) as Hl.
  simpl. destruct (loaderLoop name member 0 (_loaders r) stream) as [[a|] evs];
    [|done].
  simpl. intros _. rewrite !parseCount_app, Hl. unfold parseCount. simpl. lia.
Qed.

Lemma normal_name_cached r key :
  wf r -> SearchSet.hasArchive (_archiveFiles r) key = true ->
  exists p, loadedAsPackage r key p.
Proof.
  intros Hwf Hkey.
  pose proof Hwf as (Hlive & Hinj & Hnorm & Hprot & Hdist & Hdisj & Hdir & Hfp & Hfresh).
  assert (Hp : SearchSet.hasArchive (_protectedFiles r) key = false).
  { apply hasArchive_false. intros n Hin <-.
    rewrite Forall_forall in Hdisj.
    specialize (Hdisj n (proj2 (list_elem_of_In _ _) Hin)). simpl in Hdisj.
    congruence. }
  pose proof Hkey as Hkey'.
  apply hasArchive_true in Hkey' as (n & Hin & <-).
  rewrite Forall_forall in Hnorm.
  specialize (Hnorm n (proj2 (list_elem_of_In _ _) Hin)).
  unfold layerNodeOk in Hnorm. destruct (n_arc n) as [| | |p|]; try done.
  by exists p.
Qed.

(** A package that [loadPakFile] opens is loaded as a package. *)
Lemma loadPakFile_loads name file r r1 :
  distinctNames (_archiveFiles r) ->
  isInPakList name r = false ->
  loadPakFile name file r = (true, r1) ->
  exists p, loadedAsPackage r1 (Str.toUppercase name) p.
Proof.
  intros Hdist Hout Hload. unfold isInPakList in Hout. unfold loadPakFile in Hload.
  rewrite Hout in Hload. apply orb_false_elim in Hout as [_ Hprot].
  pose proof (loadArchive_result (Str.toUppercase name) file r) as Hres.
  destruct (loadArchive (Str.toUppercase name) file r) as [[p|] r'];
    [|discriminate].
  destruct (Hres p eq_refl) as (Hc & Ha & Hp & _). simpl in *.
  inversion Hload; subst r1. exists p. unfold loadedAsPackage. simpl.
  split; [apply hasArchive_add|]. split; [|split; [by rewrite Hp|done]].
  apply distinctNames_add. by rewrite Ha.
Qed.

(** C9.  Unload, then open again.  Let the upper-cased name be loaded as a
    package, its archive [p] cached under it.  After
    [unloadPakFile name false] the cache and the archives are as before,
    [loadArchive] gives back the cached pointer without touching the state,
    and opening the package again succeeds with the trace, hence the parse
    count, unchanged.  After [unloadPakFile name true] the archive is
    destroyed and its cache entry is gone, nothing was parsed by the unload,
    and opening the package again with success parses exactly once. *)
Theorem unload_then_reload (name : string) (file : ArchiveMember) (r : Resource)
    (p : nat) :
  loadedAsPackage r (Str.toUppercase name) p ->
  (let r1 := unloadPakFile name false r in
   _archiveCache r1 = _archiveCache r
   /\ heap r1 = heap r
   /\ isInPakList name r1 = false
   /\ loadArchive (Str.toUppercase name) file r1 = (Some p, r1)
   /\ (loadPakFile name file r1).1 = true
   /\ trace (loadPakFile name file r1).2 = trace r
   /\ parseCount (trace (loadPakFile name file r1).2) = parseCount (trace r))
  /\ (let r1 := unloadPakFile name true r in
      _archiveCache r1 !! Str.toUppercase name = None
      /\ heap r1 !! p = None
      /\ isInPakList name r1 = false
      /\ parseCount (trace r1) = parseCount (trace r)
      /\ ((loadPakFile name file r1).1 = true ->
          parseCount (trace (loadPakFile name file r1).2)
          = S (parseCount (trace r)))).
Proof.
  intros (Hkey & Hdist & Hprot & Hp).
  destruct (remove_distinct (Str.toUppercase name) _ Hdist) as [_ Hgone].
  unfold unloadPakFile. rewrite Hkey. simpl.
  rewrite Hp. split.
  - split; [done|]. split; [done|].
    assert (Hlist : isInPakList name
              (set_archiveFiles (SearchSet.remove (Str.toUppercase name)) r) = false).
    { unfold isInPakList. simpl. by rewrite Hgone, Hprot. }
    split; [done|].
    assert (Hload : loadArchive (Str.toUppercase name) file
              (set_archiveFiles (SearchSet.remove (Str.toUppercase name)) r)
            = (Some p, set_archiveFiles (SearchSet.remove (Str.toUppercase name)) r)).
    { unfold loadArchive. simpl. by rewrite Hp. }
    split; [done|].
    unfold loadPakFile. unfold isInPakList in Hlist. rewrite Hlist, Hload. done.
  - simpl. rewrite lookup_delete_eq. split; [done|].
    rewrite lookup_delete_eq. split; [done|].
    split; [unfold isInPakList; simpl; by rewrite Hgone, Hprot|].
    split.
    { rewrite parseCount_app. unfold parseCount. simpl. lia. }
    set (r1 := set_archiveCache (delete (Str.toUppercase name))
                 (free p (set_archiveFiles (SearchSet.remove (Str.toUppercase name)) r))).
    assert (Hmiss : _archiveCache r1 !! Str.toUppercase name = None)
      by (simpl; apply lookup_delete_eq).
    assert (Htr : parseCount (trace r1) = parseCount (trace r)).
    { simpl. rewrite parseCount_app. unfold parseCount. simpl. lia. }
    unfold loadPakFile.
    replace (SearchSet.hasArchive (_archiveFiles r1) (Str.toUppercase name)) with false
      by (simpl; by rewrite Hgone).
    replace (SearchSet.hasArchive (_protectedFiles r1) (Str.toUppercase name)) with false
      by (simpl; by rewrite Hprot).
    simpl.
    pose proof (loadArchive_parses_once (Str.toUppercase name) file r1) as Honce.
    destruct (loadArchive (Str.toUppercase name) file r1) as [[q|] r2]; simpl in *.
    + intros _. rewrite (Honce q Hmiss eq_refl). by rewrite Htr.
    + done.
Qed.

(** ** The directory scan of reset and its priority override *)

Lemma loadArchive_heap name member r :
  heapFresh r ->
  heapFresh (loadArchive name member r).2
  /\ (forall p a, heap r !! p = Some a ->
                  heap (loadArchive name member r).2 !! p = Some a)
  /\ _files (loadArchive name member r).2 = _files r.
Proof.
  intros Hf.
  destruct (loadArchive_cases name member r)
    as [(p & _ & ->)|[(_ & evs & ->)|(Hc & evs & a & ->)]]; simpl; try done.
  split; [|split; [|done]].
  - apply map_Forall_lookup_2. intros q b Hq. simpl in *.
    apply lookup_insert_Some in Hq as [[<- _]|[_ Hq]]; [lia|].
    pose proof (map_Forall_lookup_1 _ _ _ _ Hf Hq). simpl in *. lia.
  - intros p b Hp. rewrite lookup_insert_ne; [done|]. intros <-.
    pose proof (map_Forall_lookup_1 _ _ _ _ Hf Hp). simpl in *. lia.
Qed.

Section Scan.

Variable env : Env.

Lemma reset_scans r :
  scansDirectory env = true ->
  reset env r
  = let* r1 := resetScan env (scanFiles env) (unloadAllPakFiles r) in Ret (true, r1).
Proof.
  unfold scansDirectory, reset. intros H.
  repeat (apply andb_prop in H as [H ?]).
  rewrite H. simpl.
  destruct (bool_decide (game env = GI_KYRA1)
            && bool_decide (platform (gameFlags env) = kPlatformMacintosh)
            && useInstallerPackage (gameFlags env)); [done|].
  destruct (bool_decide (game env = GI_KYRA1) || bool_decide (game env = GI_EOB1));
    [|done].
  destruct (isDemo (gameFlags env) && negb (isTalkie (gameFlags env))); [done|].
  by destruct (negb (isDemo (gameFlags env)) && isTalkie (gameFlags env)).
Qed.

Lemma scanPriority_spec archive :
  (overrideApplies env archive -> scanPriority env archive = 4)
  /\ (~ overrideApplies env archive -> scanPriority env archive = 0).
Proof.
  unfold overrideApplies, scanPriority. split.
  - intros (Hg & Hl & Hf).
    by rewrite (bool_decide_eq_true_2 _ Hg), (bool_decide_eq_true_2 _ Hl), Hf.
  - intros Hno.
    destruct (bool_decide (game env = GI_EOB1)) eqn:Eg; [|done].
    destruct (bool_decide (lang (gameFlags env) = ES_ESP)) eqn:El; [|done].
    destruct (Arc.hasFile archive "ITEM.DAT") eqn:Ef; [|done].
    exfalso. apply Hno.
    by apply bool_decide_eq_true in Eg; apply bool_decide_eq_true in El.
Qed.

Lemma resetScan_nodes files : forall r r',
  heapFresh r ->
  resetScan env files r = Ret r' ->
  heapFresh r'
  /\ (forall p a, heap r !! p = Some a -> heap r' !! p = Some a)
  /\ (forall n, n ∈ _files r' -> n ∈ _files r \/ scanned env r' n).
Proof.
  induction files as [|i rest IH]; intros r r' Hf Hrun; simpl in Hrun.
  - inversion Hrun; subst. split; [done|]. split; [done|]. by left.
  - destruct (String.eqb (Str.toUppercase (am_name i)) "TWMUSIC.PAK"
              || String.eqb (Str.toUppercase (am_name i)) "EYE.PAK"); [by apply IH|].
    destruct (String.eqb (Str.toUppercase (am_name i)) _); [by apply IH|].
    destruct (loadArchive_heap (am_name i) i r Hf) as (Hf1 & Hmono1 & Hfiles1).
    destruct (loadArchive (am_name i) i r) as [[p|] r1]; [|done]. simpl in *.
    unfold deref in Hrun. destruct (heap r1 !! p) as [a|] eqn:Ea; [|done].
    simpl in Hrun. apply IH in Hrun as (Hf' & Hmono' & Hnodes); [|done].
    split; [done|]. split; [by auto|].
    intros n Hn. destruct (Hnodes n Hn) as [Hold|Hnew]; [|by right].
    simpl in Hold. apply list_elem_of_In, In_add in Hold as [->|Hold].
    + right. exists p, a. split; [done|]. split; [|done]. by apply Hmono'.
    + left. rewrite <- Hfiles1. by apply list_elem_of_In.
Qed.

Lemma scanPriority_decide archive :
  scanPriority env archive = if decide (overrideApplies env archive) then 4 else 0.
Proof.
  destruct (scanPriority_spec archive) as [H4 H0].
  destruct (decide (overrideApplies env archive)); auto.
Qed.

Lemma loadArchive_keeps_cache name member r k p :
  _archiveCache r !! k = Some p ->
  _archiveCache (loadArchive name member r).2 !! k = Some p.
Proof.
  intros Hk.
  destruct (loadArchive_cases name member r)
    as [(q & _ & ->)|[(_ & evs & ->)|(Hc & evs & a & ->)]]; simpl; try done.
  rewrite lookup_insert_ne; [done|]. congruence.
Qed.

Lemma hasArchive_add_other name arc prio af (l : SearchSet.t) k :
  k <> name ->
  SearchSet.hasArchive l k = false ->
  SearchSet.hasArchive (SearchSet.add name arc prio af l) k = false.
Proof.
  rewrite !hasArchive_false. intros Hne Hl n Hin.
  apply In_add in Hin as [->|Hin]; [by simpl | by apply Hl].
Qed.

Lemma In_add_new name arc prio af (l : SearchSet.t) :
  SearchSet.hasArchive l name = false ->
  In (mkNode prio name arc af) (SearchSet.add name arc prio af l).
Proof.
  intros Hl. unfold SearchSet.add. rewrite Hl. apply In_insert. by left.
Qed.

(** The scan registers every file it does not pass over: the archive
    loaded for it is cached and alive, and a node of its name is in [_files];
    when no name comes twice and the name was not in [_files] before, that
    node is the one of this archive, at the priority the override gives
    it. *)
Lemma resetScan_registers files : forall r r',
  heapFresh r ->
  resetScan env files r = Ret r' ->
  (forall n, In n (_files r) -> In n (_files r'))
  /\ (forall k p, _archiveCache r !! k = Some p -> _archiveCache r' !! k = Some p)
  /\ (forall p a, heap r !! p = Some a -> heap r' !! p = Some a)
  /\ (forall i, In i files -> scanSkips env i = false ->
        exists p a,
          _archiveCache r' !! am_name i = Some p
          /\ heap r' !! p = Some a
          /\ SearchSet.hasArchive (_files r') (scanName i) = true
          /\ (NoDup (scanName <$> files) ->
              SearchSet.hasArchive (_files r) (scanName i) = false ->
              In (mkNode (scanPriority env a) (scanName i) (RefArc p) false)
                 (_files r'))).
Proof.
  induction files as [|i0 rest IH]; intros r r' Hf Hrun; cbn [resetScan] in Hrun.
  - inversion Hrun; subst. split_and!; try done.
  - assert (Hskip : scanSkips env i0
                    = (String.eqb (Str.toUppercase (am_name i0)) "TWMUSIC.PAK"
                       || String.eqb (Str.toUppercase (am_name i0)) "EYE.PAK")
                      || String.eqb (Str.toUppercase (am_name i0))
                           (if bool_decide (lang (gameFlags env) = EN_ANY)
                            then "JMC.PAK" else "EMC.PAK")) by reflexivity.
    destruct (String.eqb (Str.toUppercase (am_name i0)) "TWMUSIC.PAK"
              || String.eqb (Str.toUppercase (am_name i0)) "EYE.PAK") eqn:E1.
    { destruct (IH r r' Hf Hrun) as (Hn & Hc & Hh & Hreg).
      split_and!; try done. intros i [<-|Hin] Hi; [by rewrite Hskip in Hi|].
      destruct (Hreg i Hin Hi) as (p & a & H1 & H2 & H3 & H4).
      exists p, a. split_and!; try done. intros Hnd. apply H4.
      rewrite fmap_cons in Hnd. by apply NoDup_cons in Hnd as [_ Hnd]. }
    destruct (String.eqb (Str.toUppercase (am_name i0))
                (if bool_decide (lang (gameFlags env) = EN_ANY)
                 then "JMC.PAK" else "EMC.PAK")) eqn:E2.
    { destruct (IH r r' Hf Hrun) as (Hn & Hc & Hh & Hreg).
      split_and!; try done. intros i [<-|Hin] Hi; [by rewrite Hskip in Hi|].
      destruct (Hreg i Hin Hi) as (p & a & H1 & H2 & H3 & H4).
      exists p, a. split_and!; try done. intros Hnd. apply H4.
      rewrite fmap_cons in Hnd. by apply NoDup_cons in Hnd as [_ Hnd]. }
    destruct (loadArchive_heap (am_name i0) i0 r Hf) as (Hf1 & Hmono1 & Hfiles1).
    pose proof (loadArchive_result (am_name i0) i0 r) as Hres.
    pose proof (fun k p => loadArchive_keeps_cache (am_name i0) i0 r k p) as Hkeep.
    destruct (loadArchive (am_name i0) i0 r) as [[p0|] r1]; [|done].
    destruct (Hres p0 eq_refl) as (Hcache0 & _). simpl in *.
    unfold deref in Hrun. destruct (heap r1 !! p0) as [a0|] eqn:Ea; [|done].
    cbn [obind] in Hrun.
    apply IH in Hrun as (Hn & Hc & Hh & Hreg); [|done]. simpl in Hn, Hc, Hh, Hreg.
    split_and!.
    + intros n Hin. apply Hn, In_add_old. by rewrite Hfiles1.
    + intros k p Hk. by apply Hc, Hkeep.
    + intros p a Hp. by apply Hh, Hmono1.
    + intros i [<-|Hin] Hi.
      * exists p0, a0. split_and!; [by apply Hc | by apply Hh | |].
        -- apply hasArchive_true.
           destruct (SearchSet.hasArchive (_files r) (scanName i0)) eqn:Eh.
           ++ apply hasArchive_true in Eh as (n & Hin & Hname).
              exists n. split; [|done].
              apply Hn, In_add_old. by rewrite Hfiles1.
           ++ exists (mkNode (scanPriority env a0) (scanName i0) (RefArc p0) false).
              split; [|done]. apply Hn. rewrite Hfiles1. by apply In_add_new.
        -- intros _ Hnew. apply Hn. rewrite Hfiles1. by apply In_add_new.
      * destruct (Hreg i Hin Hi) as (p & a & H1 & H2 & H3 & H4).
        exists p, a. split_and!; try done. intros Hnd Hnew.
        rewrite ?fmap_cons in Hnd. apply NoDup_cons in Hnd as [Hnotin Hnd].
        apply H4; [done|]. rewrite Hfiles1. apply hasArchive_add_other; [|done].
        intros Heq. apply Hnotin. unfold scanName in Heq. fold (scanName i0) in Heq.
        rewrite <- Heq. apply list_elem_of_fmap. exists i. split; [done|].
        by apply list_elem_of_In.
Qed.

(** C7.  The priority override applies to its tuple and to nothing else.
    When [reset] scans the game directory, every node that the scan adds to
    [_files] refers to a successfully loaded archive and is registered at
    priority 4 if the game is EOB1, the language is Spanish and the archive
    has a member ITEM.DAT, and at priority 0 in every other case.  And the
    scan registers what it finds: for every file of the directory that it
    does not pass over, the archive loaded for it is cached and alive and a
    node of its upper-cased name is in [_files]; when no two files have the
    same upper-cased name and the name was not in [_files] before, this is
    the node of that archive, at priority 4 or 0 by the same rule.  The
    global search layer is registered at priority 3, below 4. *)
Theorem reset_scan_priority_override (r r' : Resource) (b : bool) :
  scansDirectory env = true ->
  heapFresh r ->
  reset env r = Ret (b, r') ->
  (forall n, n ∈ _files r' -> n ∉ _files r ->
     exists p a,
       n_arc n = RefArc p /\ heap r' !! p = Some a
       /\ (n_priority n = 4 <-> overrideApplies env a)
       /\ (~ overrideApplies env a -> n_priority n = 0))
  /\ (forall i, i ∈ scanFiles env -> scanSkips env i = false ->
        exists p a,
          _archiveCache r' !! am_name i = Some p
          /\ heap r' !! p = Some a
          /\ SearchSet.hasArchive (_files r') (scanName i) = true
          /\ (NoDup (scanName <$> scanFiles env) ->
              SearchSet.hasArchive (_files r) (scanName i) = false ->
              mkNode (if decide (overrideApplies env a) then 4 else 0)
                     (scanName i) (RefArc p) false ∈ _files r'))
  /\ mkNode 3 "global_search" RefSearchMan false ∈ _files (Resource_new env).
Proof.
  intros Hscan Hf Hrun.
  rewrite (reset_scans r Hscan) in Hrun.
  destruct (resetScan env (scanFiles env) (unloadAllPakFiles r)) as [r1| | |] eqn:E;
    simpl in Hrun; [|done|done|done].
  inversion Hrun; subst b r1. clear Hrun.
  split; [|split].
  - intros n Hin Hnew.
    apply resetScan_nodes in E as (_ & _ & Hnodes); [|done].
    destruct (Hnodes n Hin) as [Hold|(p & a & Harc & Ha & Hprio)]; [done|].
    destruct (scanPriority_spec a) as [H4 H0].
    exists p, a. split; [done|]. split; [done|]. rewrite Hprio.
    split; [|done].
    split; [|done]. intros H. destruct (decide (overrideApplies env a)) as [|Hno]; [done|].
    rewrite (H0 Hno) in H. done.
  - intros i Hi Hskip.
    apply resetScan_registers in E as (_ & _ & _ & Hreg); [|done].
    destruct (Hreg i ltac:(by apply list_elem_of_In) Hskip) as (p & a & H1 & H2 & H3 & H4).
    exists p, a. split_and!; try done. intros Hnd Hnew.
    rewrite <- scanPriority_decide. apply list_elem_of_In. by apply H4.
  - vm_compute. set_solver.
Qed.

End Scan.

(** ** The keys of the archive cache *)

Section CacheKeys.

Variable env : Env.

Lemma loadArchive_key name member r k :
  insertedKey r (loadArchive name member r).2 k -> k = name.
Proof.
  intros [Hnone Hsome].
  destruct (loadArchive_cases name member r)
    as [(p & _ & Heq)|[(_ & evs & Heq)|(Hc & evs & a & Heq)]];
    rewrite Heq in Hsome; simpl in Hsome.
  - rewrite Hnone in Hsome. by destruct Hsome.
  - rewrite Hnone in Hsome. by destruct Hsome.
  - destruct (decide (name = k)) as [|Hne]; [done|].
    rewrite lookup_insert_ne, Hnone in Hsome by done. by destruct Hsome.
Qed.

Ltac cache_key Hnone Hsome k name :=
  simpl in Hsome;
  first
    [ rewrite Hnone in Hsome; by destruct Hsome
    | destruct (decide (name = k)) as [|Hne]; [done|];
      rewrite lookup_insert_ne, Hnone in Hsome by done; by destruct Hsome ].

Lemma loadInstallerArchive_key file ext offset r k :
  insertedKey r (loadInstallerArchive env file ext offset r).2 k -> k = file.
Proof.
  intros [Hnone Hsome]. unfold loadInstallerArchive in Hsome.
  destruct (_archiveCache r !! file); [cache_key Hnone Hsome k file|].
  destruct (InstallerLoader_load env r file ext offset);
    cache_key Hnone Hsome k file.
Qed.

Lemma loadStuffItArchive_key file canonicalName r k :
  insertedKey r (loadStuffItArchive env file canonicalName r).2 k ->
  k = canonicalName.
Proof.
  intros [Hnone Hsome]. unfold loadStuffItArchive in Hsome.
  destruct (_archiveCache r !! canonicalName); [cache_key Hnone Hsome k canonicalName|].
  destruct (StuffItLoader_load env r file); cache_key Hnone Hsome k canonicalName.
Qed.

Lemma loadStuffItArchive_stream_key stream canonicalName debugName r k :
  insertedKey r (loadStuffItArchive_stream env stream canonicalName debugName r).2 k ->
  k = canonicalName.
Proof.
  intros [Hnone Hsome]. unfold loadStuffItArchive_stream in Hsome.
  destruct (_archiveCache r !! canonicalName); [cache_key Hnone Hsome k canonicalName|].
  destruct (StuffItLoader_load_stream env r stream debugName);
    cache_key Hnone Hsome k canonicalName.
Qed.

(** C8, as the code has it.  Only [loadPakFile] upper-cases: a key it puts
    into the cache is the upper-cased package name, which is its own
    upper-casing.  [loadArchive], [loadInstallerArchive] and the two
    [loadStuffItArchive] put an archive under exactly the name their caller
    passes, and the Kyrandia Mac installer is cached under the mixed-case
    key "Install Legend of Kyrandia". *)
Theorem cache_keys_are_the_names_passed (r : Resource) (k : string) :
  (forall name file, insertedKey r (loadPakFile name file r).2 k ->
     k = Str.toUppercase name /\ Str.toUppercase k = k)
  /\ (forall name member, insertedKey r (loadArchive name member r).2 k -> k = name)
  /\ (forall file ext offset,
        insertedKey r (loadInstallerArchive env file ext offset r).2 k -> k = file)
  /\ (forall file canonicalName,
        insertedKey r (loadStuffItArchive env file canonicalName r).2 k ->
        k = canonicalName)
  /\ (forall stream canonicalName debugName,
        insertedKey r (loadStuffItArchive_stream env stream canonicalName debugName r).2 k ->
        k = canonicalName)
  /\ (forall res r', loadKyra1MacInstaller env r = Ret (res, r') ->
        insertedKey r r' k ->
        k = "Install Legend of Kyrandia" /\ Str.toUppercase k <> k).
Proof.
  split; [|split; [|split; [|split; [|split]]]].
  - intros name file Hins.
    assert (k = Str.toUppercase name) as ->; [|by rewrite toUppercase_idemp].
    unfold loadPakFile in Hins.
    destruct (_ || _).
    { destruct Hins as [Hnone Hsome]. simpl in Hsome. rewrite Hnone in Hsome.
      by destruct Hsome. }
    apply (loadArchive_key (Str.toUppercase name) file r k).
    destruct (loadArchive (Str.toUppercase name) file r) as [[p|] r1]; exact Hins.
  - intros name member. apply loadArchive_key.
  - intros file ext offset. apply loadInstallerArchive_key.
  - intros file canonicalName. apply loadStuffItArchive_key.
  - intros stream canonicalName debugName. apply loadStuffItArchive_stream_key.
  - intros res r' Hrun Hins.
    assert (k = "Install Legend of Kyrandia") as ->; [|split; [done|by vm_compute]].
    unfold loadKyra1MacInstaller in Hrun.
    destruct (negb (String.eqb (findMacResourceFile env "Install Legend of Kyrandia" "") "")).
    + pose proof (loadStuffItArchive_key
                    (findMacResourceFile env "Install Legend of Kyrandia" "")
                    "Install Legend of Kyrandia" r k) as Hkey.
      destruct (loadStuffItArchive env _ "Install Legend of Kyrandia" r) as [[p|] r1];
        [|done].
      inversion Hrun; subst. by apply Hkey.
    + destruct (negb (String.eqb (findMacResourceFile env "Legend of Kyrandia" " Installer") "")).
      * destruct (openInstallerParts env _ (seq 1 5)) as [parts| | |]; simpl in Hrun;
          [|done|done|done].
        pose proof (loadStuffItArchive_stream_key (ConcatReadStream parts)
                      "Install Legend of Kyrandia"
                      "Legend of Kyrandia(TM) Installer.*" r k) as Hkey.
        destruct (loadStuffItArchive_stream env _ _ _ r) as [res' r1].
        inversion Hrun; subst. by apply Hkey.
      * inversion Hrun; subst. destruct Hins as [Hnone Hsome].
        rewrite Hnone in Hsome. by destruct Hsome.
Qed.

End CacheKeys.

(** * The properties on the concrete installation *)

Import Demo.

(** A.PAK is open and cached: opening it again, and loading its archive
    again, change nothing. *)
Lemma open_package_idempotent_witness :
  loadPakFile "A.PAK" memberA loadedA = (true, loadedA)
  /\ loadArchive "A.PAK" memberA loadedA = (Some 1%nat, loadedA)
  /\ loadPakFile_path "a.pak" loadedA = Ret (true, loadedA).
Proof.
  destruct (open_package_idempotent "A.PAK" memberA loadedA) as (H1 & H2 & _).
  destruct (open_package_idempotent "a.pak" memberA loadedA) as (_ & _ & _ & H4).
  split; [|split].
  - apply H1. reflexivity.
  - apply H2. reflexivity.
  - apply H4; reflexivity.
Defined.

(** Loading A.PAK on the fresh object: the rejecting loader reads four
    bytes, and the PAK loader still sees offset 0. *)
Lemma loadArchive_loaders_see_offset_0_witness :
  trace (loadArchive "A.PAK" memberA fresh).2
  = [EvCreateReadStream "A.PAK"; EvIsLoadable 0 0; EvSeek 0;
     EvIsLoadable 1 0; EvSeek 0; EvLoad 1 0].
Proof.
  destruct (loadArchive_loaders_see_offset_0 "A.PAK" memberA fresh a_pak)
    as (H & _).
  - reflexivity.
  - reflexivity.
  - exact H.
Defined.

(** NOTES.TXT has five bytes; read into eight bytes with [maxSize] 7. *)
Lemma loadFileToBuf_zero_fills_then_copies_witness :
  loadFileToBuf "NOTES.TXT" (replicate 8 "x"%byte) 7 fresh
  = Ret (true, bytes_of "hello" ++ [x00; x00; "x"%byte]).
Proof.
  destruct (loadFileToBuf_zero_fills_then_copies "NOTES.TXT" (replicate 8 "x"%byte)
              7 fresh) as (H & _).
  - lia.
  - simpl. lia.
  - destruct (H "NOTES.TXT" (bytes_of "hello")) as (Hrun & _).
    + reflexivity.
    + exact Hrun.
Defined.

(** The five parts of the demo installer, each with a 100-byte header. *)
Lemma installer_parts_validated_and_concatenated_witness :
  loadKyra1MacInstaller env fresh
  = Ret (loadStuffItArchive_stream env
           (mkStream (bytes_of "part1part2part3part4part5") 0)
           "Install Legend of Kyrandia" "Legend of Kyrandia(TM) Installer.*" fresh).
Proof.
  destruct (installer_parts_validated_and_concatenated env
              "Legend of Kyrandia Installer" fresh) as (H & _).
  - reflexivity.
  - reflexivity.
  - discriminate.
  - destruct (H (installerPart <$> seq 1 5)) as (Hrun & _).
    + repeat constructor; simpl; lia.
    + exact Hrun.
Defined.

(** A.PAK protected and B.PAK loaded: unloading "A.PAK" with cache
    removal leaves the protected archive and its member FACE.CPS. *)
Lemma unloadPakFile_spares_protected_witness :
  _protectedFiles (unloadPakFile "A.PAK" true protectedA_loadedB)
  = _protectedFiles protectedA_loadedB
  /\ files_hasFile (unloadPakFile "A.PAK" true protectedA_loadedB) "FACE.CPS"
     = Ret true.
Proof.
  destruct (unloadPakFile_spares_protected "A.PAK" true protectedA_loadedB)
    as (H1 & H2).
  split; [exact H1|].
  apply (H2 1%nat (mkArchive [("FACE.CPS", bytes_of "pixels")]) "FACE.CPS").
  - apply (bool_decide_unpack _). vm_compute. exact I.
  - apply (bool_decide_unpack _). vm_compute. exact I.
  - reflexivity.
  - reflexivity.
  - discriminate.
Defined.

(** The same state: unloading B.PAK and A.PAK, with and without cache
    removal, keeps the protected A.PAK and its member; the teardown empties
    the protected layer, and the [reset] of Lands of Lore puts GENERAL.PAK
    into it. *)
Lemma protected_survive_unloadPakFile_not_teardown_witness :
  files_hasFile
    (unloadMany [("b.pak", true); ("A.PAK", true); ("A.PAK", false)] protectedA_loadedB)
    "FACE.CPS" = Ret true
  /\ _protectedFiles (unloadAllPakFiles protectedA_loadedB) = []
  /\ SearchSet.hasArchive
       (_protectedFiles
          (stateOf (reset lol protectedA_loadedB) protectedA_loadedB))
       "GENERAL.PAK" = true.
Proof.
  destruct (protected_survive_unloadPakFile_not_teardown lol
              [("b.pak", true); ("A.PAK", true); ("A.PAK", false)]
              protectedA_loadedB (mkNode 0 "A.PAK" (RefArc 1) false) 1%nat
              (mkArchive [("FACE.CPS", bytes_of "pixels")]) "FACE.CPS")
    as ((_ & _ & H1) & (H2 & _) & _ & H3).
  - apply (bool_decide_unpack _). vm_compute. exact I.
  - apply (bool_decide_unpack _). vm_compute. exact I.
  - reflexivity.
  - reflexivity.
  - reflexivity.
  - discriminate.
  - split; [exact H1|]. split; [exact H2|].
    apply (Forall_inv
             (H3 true (stateOf (reset lol protectedA_loadedB) protectedA_loadedB)
                ltac:(vm_compute; reflexivity))).
Defined.

(** C3 as stated fails.  After the [reset] of Lands of Lore GENERAL.PAK is
    in the protected layer and its member FONT.FNT resolves; after
    [unloadAllPakFiles], the teardown [reset] starts with, the protected
    layer is empty and FONT.FNT no longer resolves. *)
Lemma teardown_clears_protected_layer :
  SearchSet.hasArchive (_protectedFiles lolReset) "GENERAL.PAK" = true
  /\ files_hasFile lolReset "FONT.FNT" = Ret true
  /\ _protectedFiles (unloadAllPakFiles lolReset) = []
  /\ files_hasFile (unloadAllPakFiles lolReset) "FONT.FNT" = Ret false.
Proof. repeat split; reflexivity. Qed.

(** The Spanish EOB1: the scan registers B.PAK, which holds ITEM.DAT, at
    priority 4, and A.PAK, which does not, at priority 0. *)
Lemma reset_scan_priority_override_witness :
  mkNode 4 "B.PAK" (RefArc 2) false ∈ _files eobReset
  /\ mkNode 0 "A.PAK" (RefArc 1) false ∈ _files eobReset
  /\ exists a, heap eobReset !! 2%nat = Some a /\ overrideApplies env a.
Proof.
  destruct (reset_scan_priority_override env fresh eobReset true) as (H1 & H2 & _).
  - reflexivity.
  - apply (bool_decide_unpack _). vm_compute. exact I.
  - vm_compute. reflexivity.
  - assert (Hnd : NoDup (scanName <$> scanFiles env)).
    { apply (bool_decide_unpack _). vm_compute. exact I. }
    assert (HB : mkNode 4 "B.PAK" (RefArc 2) false ∈ _files eobReset).
    { destruct (H2 memberB) as (p & a & Hc & Hh & _ & Hnode).
      - vm_compute. apply list_elem_of_further, list_elem_of_here.
      - reflexivity.
      - vm_compute in Hc. injection Hc as <-.
        vm_compute in Hh. injection Hh as <-.
        apply (Hnode Hnd). reflexivity. }
    assert (HA : mkNode 0 "A.PAK" (RefArc 1) false ∈ _files eobReset).
    { destruct (H2 memberA) as (p & a & Hc & Hh & _ & Hnode).
      - vm_compute. apply list_elem_of_here.
      - reflexivity.
      - vm_compute in Hc. injection Hc as <-.
        vm_compute in Hh. injection Hh as <-.
        apply (Hnode Hnd). reflexivity. }
    split; [exact HB|]. split; [exact HA|].
    destruct (H1 (mkNode 4 "B.PAK" (RefArc 2) false) HB) as (p & a & Harc & Ha & H4 & _).
    + apply (bool_decide_unpack _). vm_compute. exact I.
    + simpl in Harc. injection Harc as <-.
      exists a. split; [exact Ha|]. apply H4. reflexivity.
Defined.

(** Opening "a.pak" caches it under "A.PAK". *)
Lemma cache_keys_are_the_names_passed_witness :
  "A.PAK" = Str.toUppercase "a.pak" /\ Str.toUppercase "A.PAK" = "A.PAK".
Proof.
  destruct (cache_keys_are_the_names_passed env fresh "A.PAK") as (H & _).
  apply (H "a.pak" memberA). split.
  - reflexivity.
  - apply (bool_decide_unpack _). vm_compute. exact I.
Defined.

(** C8 as stated fails.  Loading the Kyrandia Mac installer puts an
    archive into the cache under "Install Legend of Kyrandia", which is not
    its own upper-casing; and the directory scan of [reset] caches b.pak
    under its name as found on disk. *)
Lemma installer_cache_key_not_uppercase :
  exists r', loadKyra1MacInstaller env fresh = Ret (Some 1%nat, r')
    /\ _archiveCache fresh !! "Install Legend of Kyrandia" = None
    /\ _archiveCache r' !! "Install Legend of Kyrandia" = Some 1%nat
    /\ Str.toUppercase "Install Legend of Kyrandia" <> "Install Legend of Kyrandia"
    /\ _archiveCache eobReset !! "b.pak" = Some 2%nat
    /\ Str.toUppercase "b.pak" <> "b.pak".
Proof.
  eexists. split; [reflexivity|]. repeat split; try reflexivity; discriminate.
Qed.

(** A.PAK loaded: unload and open again, both ways. *)
Lemma unload_then_reload_witness :
  parseCount (trace (loadPakFile "a.pak" memberA (unloadPakFile "a.pak" false loadedA)).2)
  = parseCount (trace loadedA)
  /\ parseCount (trace (loadPakFile "a.pak" memberA (unloadPakFile "a.pak" true loadedA)).2)
     = S (parseCount (trace loadedA)).
Proof.
  destruct (unload_then_reload "a.pak" memberA loadedA 1%nat)
    as ((_ & _ & _ & _ & _ & _ & H1) & (_ & _ & _ & _ & H2)).
  - split; [reflexivity|]. split; [|split; reflexivity].
    apply (bool_decide_unpack _). vm_compute. exact I.
  - split; [exact H1|]. apply H2. reflexivity.
Defined.

(** A.PAK is protected and cached but not in the normal layer: unloading it
    with cache removal changes nothing. *)
Lemma unloadPakFile_noop_outside_normal_layer_witness :
  unloadPakFile "a.pak" true protectedA = protectedA.
Proof.
  destruct (unloadPakFile_noop_outside_normal_layer "a.pak" true protectedA)
    as (H & _).
  apply H. reflexivity.
Defined.

(** * Further properties of the resource manager *)

(** ** What loadArchive changes *)

(** X1.  [loadArchive] never evicts and never overwrites: every cache entry
    and every live archive is still there after the call, whatever its
    result; the layers and [_files] are not touched.  When it fails (the
    stream does not open, no loader accepts, or the accepting loader's
    [load] fails) the cache and the archives are exactly as before; when it
    succeeds the pointer it returns is cached under the name and alive. *)
Theorem loadArchive_only_adds (name : string) (member : ArchiveMember) (r : Resource) :
  heapFresh r ->
  keepsCache r (loadArchive name member r).2
  /\ _files (loadArchive name member r).2 = _files r
  /\ _archiveFiles (loadArchive name member r).2 = _archiveFiles r
  /\ _protectedFiles (loadArchive name member r).2 = _protectedFiles r
  /\ ((loadArchive name member r).1 = None ->
      _archiveCache (loadArchive name member r).2 = _archiveCache r
      /\ heap (loadArchive name member r).2 = heap r)
  /\ (forall p, (loadArchive name member r).1 = Some p ->
        _archiveCache (loadArchive name member r).2 !! name = Some p
        /\ (_archiveCache r !! name = None -> heap r !! p = None)
        /\ is_Some (heap (loadArchive name member r).2 !! p)
        \/ _archiveCache r !! name = Some p
           /\ (loadArchive name member r).2 = r).
Proof.
  intros Hf. unfold keepsCache.
  destruct (loadArchive_cases name member r)
    as [(p & Hp & ->)|[(Hc & evs & ->)|(Hc & evs & a & ->)]]; simpl.
  - repeat split; try done. intros q [= <-]. by right.
  - repeat split; done.
  - assert (Hnone : heap r !! next_ptr r = None).
    { destruct (heap r !! next_ptr r) eqn:E; [|done].
      pose proof (map_Forall_lookup_1 _ _ _ _ Hf E). simpl in *. lia. }
    split; [|repeat split; try done].
    + split.
      * intros k q Hk. rewrite lookup_insert_ne; [done|]. congruence.
      * intros q b Hq. rewrite lookup_insert_ne; [done|]. congruence.
    + intros q [= <-]. left. split; [apply lookup_insert_eq|]. split; [done|].
      rewrite lookup_insert_eq. by eexists.
Qed.

(** ** The first loader that accepts decides *)

Lemma loaderLoop_at0_first name member data l post : forall pre i,
  Forall (fun l' => checkFilename l' name = false
                    \/ (isLoadable l' name (mkStream data 0)).1 = false) pre ->
  checkFilename l name = true ->
  (isLoadable l name (mkStream data 0)).1 = true ->
  (loaderLoop_at0 name member i (pre ++ l :: post) data).1
  = load l member (mkStream data 0)
  /\ Forall (fun e => ~ loaderCallFrom (S (i + length pre)) e)
            (loaderLoop_at0 name member i (pre ++ l :: post) data).2.
Proof.
  induction pre as [|l' pre IH]; intros i Hpre Hcheck Hok; simpl.
  - rewrite Hcheck, Hok. simpl. split; [done|].
    repeat constructor; simpl; lia.
  - apply Forall_cons in Hpre as [Hl' Hpre].
    specialize (IH (S i) Hpre Hcheck Hok).
    replace (S (i + S (length pre))) with (S (S i + length pre)) by lia.
    destruct (checkFilename l' name) eqn:Ec; [|done].
    destruct Hl' as [|Hl']; [done|]. rewrite Hl'.
    destruct (loaderLoop_at0 name member (S i) (pre ++ l :: post) data) as [a evs].
    simpl in *. destruct IH as [-> IH]. split; [done|].
    repeat constructor; simpl; try lia; done.
Qed.

(** X2.  The first loader that accepts decides.  On a cache miss, let
    loader [l] be the first in [_loaders] that passes both the filename
    check and the content check.  Then the result of [loadArchive] is the
    result of [l]'s [load]: a new archive at the next address when it
    succeeds, and null when it fails, with nothing cached.  The loaders
    after [l] are never called, also when [l]'s [load] fails and one of them
    would have accepted the file. *)
Theorem first_accepting_loader_decides (name : string) (member : ArchiveMember)
    (r : Resource) (data : list byte) (pre : list Loader) (l : Loader)
    (post : list Loader) :
  _archiveCache r !! name = None ->
  am_data member = Some data ->
  _loaders r = pre ++ l :: post ->
  Forall (fun l' => checkFilename l' name = false
                    \/ (isLoadable l' name (mkStream data 0)).1 = false) pre ->
  checkFilename l name = true ->
  (isLoadable l name (mkStream data 0)).1 = true ->
  (loadArchive name member r).1
  = (fun _ => next_ptr r) <$> load l member (mkStream data 0)
  /\ (load l member (mkStream data 0) = None ->
      _archiveCache (loadArchive name member r).2 = _archiveCache r)
  /\ (forall a, load l member (mkStream data 0) = Some a ->
        heap (loadArchive name member r).2 !! next_ptr r = Some a)
  /\ exists evs,
       trace (loadArchive name member r).2 = trace r ++ evs
       /\ Forall (fun e => ~ loaderCallFrom (S (length pre)) e) evs.
Proof.
  intros Hc Hd Hls Hpre Hcheck Hok.
  destruct (loaderLoop_at0_first name member data l post pre 0 Hpre Hcheck Hok)
    as [Hres Hevs].
  unfold loadArchive. rewrite Hc. unfold Arc.createReadStream. rewrite Hd. simpl.
  rewrite loaderLoop_refines, Hls.
  destruct (loaderLoop_at0 name member 0 (pre ++ l :: post) data) as [res evs].
  simpl in *. subst res.
  destruct (load l member (mkStream data 0)) as [a|]; simpl.
  - split; [done|]. split; [done|]. split.
    + intros a' [= <-]. apply lookup_insert_eq.
    + exists (EvCreateReadStream (am_name member) :: evs).
      split; [by rewrite <- app_assoc|]. constructor; [simpl; tauto|done].
  - split; [done|]. split; [done|]. split; [done|].
    exists (EvCreateReadStream (am_name member) :: evs).
    split; [by rewrite <- app_assoc|]. constructor; [simpl; tauto|done].
Qed.

(** ** What loadPakFile changes *)

Lemma hasArchive_insert_mono node (l : SearchSet.t) k :
  SearchSet.hasArchive l k = true ->
  SearchSet.hasArchive (SearchSet.insert node l) k = true.
Proof.
  rewrite !hasArchive_true. intros (n & Hin & Hn). exists n.
  split; [|done]. apply In_insert. by right.
Qed.

(** X3.  [loadPakFile] only ever adds.  Whatever it returns, a package
    that was in the lists before is in the lists after, and the protected
    layer and [_files] are as before.  When it returns false the normal
    layer and the cache are unchanged as well.  When it returns true the
    package is in the lists, and, if it was not there before, its archive is
    now cached under the upper-cased name. *)
Theorem loadPakFile_only_adds (name : string) (file : ArchiveMember) (r : Resource) :
  (forall n, isInPakList n r = true -> isInPakList n (loadPakFile name file r).2 = true)
  /\ _protectedFiles (loadPakFile name file r).2 = _protectedFiles r
  /\ _files (loadPakFile name file r).2 = _files r
  /\ ((loadPakFile name file r).1 = false ->
      _archiveFiles (loadPakFile name file r).2 = _archiveFiles r
      /\ _archiveCache (loadPakFile name file r).2 = _archiveCache r
      /\ heap (loadPakFile name file r).2 = heap r)
  /\ ((loadPakFile name file r).1 = true ->
      isInPakList name (loadPakFile name file r).2 = true
      /\ (isInPakList name r = false ->
          isInCacheList name (loadPakFile name file r).2 = true)).
Proof.
  unfold loadPakFile, isInPakList, isInCacheList.
  destruct (SearchSet.hasArchive (_archiveFiles r) (Str.toUppercase name)
            || SearchSet.hasArchive (_protectedFiles r) (Str.toUppercase name)) eqn:E.
  - simpl. repeat split; try done.
  - destruct (loadArchive_cases (Str.toUppercase name) file r)
      as [(p & Hp & ->)|[(Hc & evs & ->)|(Hc & evs & a & ->)]]; simpl.
    + repeat split; try done.
      * intros n Hn. apply orb_true_iff in Hn as [Hn|Hn]; apply orb_true_iff.
        -- left. by apply hasArchive_add_mono.
        -- by right.
      * by rewrite hasArchive_add.
      * intros _. rewrite Hp. by apply bool_decide_eq_true.
    + repeat split; done.
    + repeat split; try done.
      * intros n Hn. apply orb_true_iff in Hn as [Hn|Hn]; apply orb_true_iff.
        -- left. by apply hasArchive_add_mono.
        -- by right.
      * by rewrite hasArchive_add.
      * intros _. rewrite lookup_insert_eq. by apply bool_decide_eq_true.
Qed.

(** ** The teardown keeps the cache *)

(** X4.  [unloadAllPakFiles] empties both layers and keeps the cache, so a
    package whose archive is cached is opened again without parsing: the
    cached pointer is registered in the normal layer, and the trace, the
    cache and the archives are as they were. *)
Theorem reopen_after_teardown_without_parse (name : string) (file : ArchiveMember)
    (r : Resource) (p : nat) :
  _archiveCache r !! Str.toUppercase name = Some p ->
  let r' := (loadPakFile name file (unloadAllPakFiles r)).2 in
  (loadPakFile name file (unloadAllPakFiles r)).1 = true
  /\ _archiveFiles r' = [mkNode 0 (Str.toUppercase name) (RefArc p) false]
  /\ _protectedFiles r' = []
  /\ trace r' = trace r
  /\ _archiveCache r' = _archiveCache r
  /\ heap r' = heap r.
Proof.
  intros Hp. unfold loadPakFile, loadArchive. simpl. by rewrite Hp.
Qed.

(** ** Installer and StuffIt archives are cached too *)

Section MoreLoading.

Variable env : Env.


Lemma loadStuffItArchive_caches file key r q r1 :
  loadStuffItArchive env file key r = (Some q, r1) ->
  _archiveCache r1 !! key = Some q.
Proof.
  unfold loadStuffItArchive. destruct (_archiveCache r !! key) eqn:E.
  - by intros [= <- <-].
  - destruct (StuffItLoader_load env r file); [|done].
    intros [= <- <-]. simpl. apply lookup_insert_eq.
Qed.

Lemma loadStuffItArchive_stream_caches stream key dbg r q r1 :
  loadStuffItArchive_stream env stream key dbg r = (Some q, r1) ->
  _archiveCache r1 !! key = Some q.
Proof.
  unfold loadStuffItArchive_stream. destruct (_archiveCache r !! key) eqn:E.
  - by intros [= <- <-].
  - destruct (StuffItLoader_load_stream env r stream dbg); [|done].
    intros [= <- <-]. simpl. apply lookup_insert_eq.
Qed.

(** X6.  [loadKyra1MacInstaller] can be called again.  When neither
    installer file is found it returns null and changes nothing.  When it
    has returned an archive, a second call returns the same pointer and
    leaves the object as the first call left it. *)
Theorem loadKyra1MacInstaller_again (r : Resource) :
  (findMacResourceFile env "Install Legend of Kyrandia" "" = "" ->
   findMacResourceFile env "Legend of Kyrandia" " Installer" = "" ->
   loadKyra1MacInstaller env r = Ret (None, r))
  /\ (forall p r1, loadKyra1MacInstaller env r = Ret (Some p, r1) ->
        loadKyra1MacInstaller env r1 = Ret (Some p, r1)).
Proof.
  split.
  - intros H1 H2. unfold loadKyra1MacInstaller. by rewrite H1, H2.
  - intros p r1. unfold loadKyra1MacInstaller.
    destruct (negb (String.eqb (findMacResourceFile env "Install Legend of Kyrandia" "") "")).
    + destruct (loadStuffItArchive env _ "Install Legend of Kyrandia" r)
        as [[q|] r'] eqn:E; [|done].
      intros [= <- <-]. apply loadStuffItArchive_caches in E.
      unfold loadStuffItArchive. by rewrite E.
    + destruct (negb (String.eqb (findMacResourceFile env "Legend of Kyrandia" " Installer") "")).
      * destruct (openInstallerParts env _ (seq 1 5)) as [parts| | |]; simpl; [|done|done|done].
        destruct (loadStuffItArchive_stream env _ _ _ r) as [q r'] eqn:E.
        intros [= -> ->]. apply loadStuffItArchive_stream_caches in E.
        unfold loadStuffItArchive_stream. by rewrite E.
      * done.
Qed.

(** ** reset *)

Lemma loadProtectedFiles_true list : forall r b r',
  loadProtectedFiles list r = Ret (b, r') -> b = true.
Proof.
  induction list as [|n rest IH]; intros r b r' Hrun; simpl in Hrun.
  - by inversion Hrun.
  - destruct (files_getMember r n) as [[f|]| | |]; simpl in Hrun; try done.
    destruct (loadArchive n f r) as [[p|] r1]; [|done]. by eapply IH.
Qed.

(** X7.  [reset] never returns false: whenever it returns, it returns
    true.  With a game path that is no directory it ends, for every game, in
    the fatal error that names the path, and with a game that is none of the
    six known ones in the fatal error that names the number of the game. *)
Theorem reset_true_or_fatal (r : Resource) :
  (forall b r', reset env r = Ret (b, r') -> b = true)
  /\ (path_isDirectory env = false ->
      reset env r = Fatal ("invalid game path '" +:+ gamePath env +:+ "'"))
  /\ (forall id, path_isDirectory env = true -> game env = GI_UNKNOWN id ->
        reset env r = Fatal ("Unknown game id: " +:+ format_int id)).
Proof.
  split; [|split].
  - intros b r'. unfold reset.
    destruct (negb (path_isDirectory env)); [done|].
    destruct (_ && _ && useInstallerPackage (gameFlags env)).
    { destruct (loadKyra1MacInstaller env _) as [[[p|] r1]| | |]; simpl; try done.
      destruct (deref _ p); simpl; try done. by intros [= <- _]. }
    destruct (_ || _).
    { destruct (_ && _); [by intros [= <- _]|].
      destruct (_ && _); [apply loadProtectedFiles_true|].
      destruct (resetScan env _ _); simpl; try done. by intros [= <- _]. }
    destruct (bool_decide (game env = GI_KYRA2)).
    { destruct (_ && _).
      - destruct (loadPakFile_path _ _) as [[? ?]| | |]; simpl; try done.
        by intros [= <- _].
      - destruct (loadPakFile_path _ _) as [[? ?]| | |]; simpl; try done.
        destruct (loadPakFile_path _ _) as [[? ?]| | |]; simpl; try done.
        by intros [= <- _]. }
    destruct (bool_decide (game env = GI_KYRA3)).
    { destruct (loadPakFile_path _ _) as [[? ?]| | |]; simpl; try done.
      destruct (loadFileList_path env _ _) as [[[] ?]| | |]; simpl; try done.
      by intros [= <- _]. }
    destruct (bool_decide (game env = GI_LOL)).
    { destruct (_ && _); [apply loadProtectedFiles_true|]. by intros [= <- _]. }
    destruct (game env); try done; by intros [= <- _].
  - intros H. unfold reset. by rewrite H.
  - intros id Hdir Hgame. unfold reset. rewrite Hdir, Hgame. reflexivity.
Qed.

(** X8.  The directory scan passes over TWMUSIC.PAK, EYE.PAK and the script
    archive of the language that is not played (JMC.PAK when the language is
    English, EMC.PAK otherwise), whatever the case of the name on disk: the
    scan of a list is the scan of the list without these files, so they are
    neither opened nor registered. *)
Theorem resetScan_skips (files : list ArchiveMember) (r : Resource) :
  resetScan env files r
  = resetScan env (List.filter (fun m => negb (scanSkips env m)) files) r.
Proof.
  revert r. induction files as [|i rest IH]; intros r; [done|].
  cbn [List.filter]. unfold scanSkips at 1. cbn [resetScan].
  set (n := Str.toUppercase (am_name i)).
  set (other := if bool_decide (lang (gameFlags env) = EN_ANY)
                then "JMC.PAK" else "EMC.PAK").
  destruct (String.eqb n "TWMUSIC.PAK" || String.eqb n "EYE.PAK") eqn:E1;
    cbn [orb negb]; [apply IH|].
  destruct (String.eqb n other) eqn:E2; cbn [negb]; [apply IH|].
  cbn [resetScan]. fold n other. rewrite E1, E2.
  destruct (loadArchive (am_name i) i r) as [[p|] r1]; [|done].
  destruct (deref r1 p); cbn; try done.
Qed.

End MoreLoading.

(** ** Loading lists of packages *)

Lemma loadPakFile_lists name file r :
  (forall n, isInPakList n r = true -> isInPakList n (loadPakFile name file r).2 = true)
  /\ ((loadPakFile name file r).1 = true ->
      isInPakList name (loadPakFile name file r).2 = true).
Proof.
  unfold loadPakFile, isInPakList.
  destruct (SearchSet.hasArchive (_archiveFiles r) (Str.toUppercase name)
            || SearchSet.hasArchive (_protectedFiles r) (Str.toUppercase name)) eqn:E;
    [done|].
  destruct (loadArchive_cases (Str.toUppercase name) file r)
    as [(p & Hp & ->)|[(Hc & evs & ->)|(Hc & evs & a & ->)]]; simpl;
    (split; [|try done; by rewrite hasArchive_add]); try done;
    intros n Hn; apply orb_true_iff in Hn as [Hn|Hn]; apply orb_true_iff;
    [left; by apply hasArchive_add_mono|by right
    |left; by apply hasArchive_add_mono|by right].
Qed.

Lemma loadPakFile_path_lists name r b r' :
  loadPakFile_path name r = Ret (b, r') ->
  (forall n, isInPakList n r = true -> isInPakList n r' = true)
  /\ (b = true -> isInPakList name r' = true).
Proof.
  unfold loadPakFile_path.
  destruct (files_getMember r (Str.toUppercase name)) as [[f|]| | |]; simpl; try done.
  - destruct (loadPakFile_lists (Str.toUppercase name) f r) as [Hmono Hin].
    destruct (loadPakFile (Str.toUppercase name) f r) as [b1 r1]. simpl in *.
    intros [= <- <-]. split; [done|]. intros Hb. specialize (Hin Hb).
    unfold isInPakList in *. by rewrite toUppercase_idemp in Hin.
  - by intros [= <- <-].
Qed.

Lemma loadFileList_while_lists l numFiles : forall r b r',
  loadFileList_while l numFiles r = Ret (b, r') ->
  b = true
  /\ (numFiles <= length l)%nat
  /\ (forall n, isInPakList n r = true -> isInPakList n r' = true)
  /\ Forall (fun f => isInPakList f r' = true) (take numFiles l).
Proof.
  induction numFiles as [|k IH]; intros r b r' Hrun; cbn [loadFileList_while] in Hrun.
  - inversion Hrun; subst. split_and!; [done | lia | done | by rewrite take_0].
  - destruct (l !! k) as [f|] eqn:Ef; [|done].
    destruct (loadPakFile_path f r) as [[ok r1]| | |] eqn:E; simpl in Hrun; try done.
    destruct ok; [|done].
    destruct (loadPakFile_path_lists _ _ _ _ E) as [Hmono Hin].
    destruct (IH _ _ _ Hrun) as (-> & Hlen & Hmono' & Hall).
    pose proof (lookup_lt_Some _ _ _ Ef) as Hk.
    split_and!; [done | lia | by auto |].
    rewrite (take_S_r _ _ _ Ef). apply Forall_app. split; [done|].
    constructor; [|done]. by apply Hmono', Hin.
Qed.

Lemma loadFileList_while_overrun l numFiles r :
  (length l < numFiles)%nat -> loadFileList_while l numFiles r = Undefined.
Proof.
  destruct numFiles as [|k]; [lia|]. intros Hlt. cbn [loadFileList_while].
  by rewrite lookup_ge_None_2 by lia.
Qed.

(** X9.  [loadFileList] over an array of names.  A null list gives false.
    Otherwise the names at the indices below [numFiles] are opened from the
    last to the first.  When [numFiles] is more than the array has, the
    first name is read from outside the array.  Whenever the call returns,
    it returns true, [numFiles] is within the array, every one of these
    names is in the package lists, and so is every package that was there
    before. *)
Theorem loadFileList_loads_every_name (numFiles : nat) (r : Resource) :
  loadFileList None numFiles r = Ret (false, r)
  /\ (forall l, (length l < numFiles)%nat ->
        loadFileList (Some l) numFiles r = Undefined)
  /\ (forall l b r', loadFileList (Some l) numFiles r = Ret (b, r') ->
        b = true
        /\ (numFiles <= length l)%nat
        /\ Forall (fun f => isInPakList f r' = true) (take numFiles l)
        /\ (forall n, isInPakList n r = true -> isInPakList n r' = true)).
Proof.
  split; [done|]. split.
  - intros l Hlt. by apply loadFileList_while_overrun.
  - intros l b r' Hrun. unfold loadFileList in Hrun.
    destruct (loadFileList_while_lists _ _ _ _ _ Hrun) as (-> & Hlen & Hmono & Hall).
    done.
Qed.

(** ** The cache never holds a deleted archive *)

Lemma cacheSound_new_entry key a r :
  cacheSound r -> _archiveCache r !! key = None ->
  cacheSound (set_archiveCache <[key := next_ptr r]> (alloc a r).2).
Proof.
  intros (Hlive & Hinj & Hfresh) Hkey.
  assert (Hold : forall k q, _archiveCache r !! k = Some q -> q <> next_ptr r).
  { intros k q Hk. destruct (map_Forall_lookup_1 _ _ _ _ Hlive Hk) as [b Hb].
    pose proof (map_Forall_lookup_1 _ _ _ _ Hfresh Hb). simpl in *. lia. }
  unfold cacheSound, heapFresh. simpl. repeat split.
  - apply map_Forall_lookup_2. intros k q Hk.
    apply lookup_insert_Some in Hk as [[<- <-]|[Hne Hk]].
    + rewrite lookup_insert_eq. by eexists.
    + rewrite lookup_insert_ne by (intros <-; by eapply Hold).
      exact (map_Forall_lookup_1 _ _ _ _ Hlive Hk).
  - apply map_Forall_lookup_2. intros k1 p1 H1.
    apply map_Forall_lookup_2. intros k2 p2 H2 ->.
    apply lookup_insert_Some in H1 as [[<- <-]|[Hne1 H1]];
      apply lookup_insert_Some in H2 as [[<- H2]|[Hne2 H2]]; try done.
    + exfalso. by eapply Hold.
    + exfalso. subst p2. by eapply Hold.
    + exact (map_Forall_lookup_1 _ _ _ _
               (map_Forall_lookup_1 _ _ _ _ Hinj H1) H2 eq_refl).
  - apply map_Forall_lookup_2. intros q b Hq.
    apply lookup_insert_Some in Hq as [[<- _]|[_ Hq]]; [lia|].
    pose proof (map_Forall_lookup_1 _ _ _ _ Hfresh Hq). simpl in *. lia.
Qed.

Lemma cacheSound_loadArchive name member r :
  cacheSound r -> cacheSound (loadArchive name member r).2.
Proof.
  intros Hs.
  destruct (loadArchive_cases name member r)
    as [(p & _ & ->)|[(_ & evs & ->)|(Hc & evs & a & ->)]]; simpl; try done.
  by apply (cacheSound_new_entry name a (emit evs r)).
Qed.

Lemma cacheSound_unloadPakFile name remFromCache r :
  cacheSound r -> cacheSound (unloadPakFile name remFromCache r).
Proof.
  intros Hs. unfold unloadPakFile.
  destruct (SearchSet.hasArchive _ _); [|done].
  destruct remFromCache; [|done]. simpl.
  destruct (_archiveCache r !! Str.toUppercase name) as [p|] eqn:Ep; [|done].
  destruct Hs as (Hlive & Hinj & Hfresh).
  unfold cacheSound, heapFresh. simpl. repeat split.
  - apply map_Forall_lookup_2. intros k q Hk.
    apply lookup_delete_Some in Hk as [Hne Hk].
    rewrite lookup_delete_ne.
    + exact (map_Forall_lookup_1 _ _ _ _ Hlive Hk).
    + intros ->. apply Hne.
      exact (map_Forall_lookup_1 _ _ _ _
               (map_Forall_lookup_1 _ _ _ _ Hinj Ep) Hk eq_refl).
  - apply map_Forall_lookup_2. intros k1 p1 H1.
    apply map_Forall_lookup_2. intros k2 p2 H2 ->.
    apply lookup_delete_Some in H1 as [_ H1].
    apply lookup_delete_Some in H2 as [_ H2].
    exact (map_Forall_lookup_1 _ _ _ _
             (map_Forall_lookup_1 _ _ _ _ Hinj H1) H2 eq_refl).
  - apply map_Forall_lookup_2. intros q a Hq.
    apply lookup_delete_Some in Hq as [_ Hq].
    exact (map_Forall_lookup_1 _ _ _ _ Hfresh Hq).
Qed.

Lemma cacheSound_loadPakFile name file r :
  cacheSound r -> cacheSound (loadPakFile name file r).2.
Proof.
  intros Hs. unfold loadPakFile. destruct (_ || _); [done|].
  pose proof (cacheSound_loadArchive (Str.toUppercase name) file r Hs) as H.
  by destruct (loadArchive (Str.toUppercase name) file r) as [[p|] r1].
Qed.

Lemma cacheSound_loadPakFile_path name r b r' :
  cacheSound r -> loadPakFile_path name r = Ret (b, r') -> cacheSound r'.
Proof.
  intros Hs. unfold loadPakFile_path.
  destruct (files_getMember r _) as [[f|]| | |]; simpl; try done.
  - pose proof (cacheSound_loadPakFile (Str.toUppercase name) f r Hs) as H.
    destruct (loadPakFile _ f r). by intros [= <- <-].
  - by intros [= <- <-].
Qed.

Lemma cacheSound_loadProtectedFiles list : forall r b r',
  cacheSound r -> loadProtectedFiles list r = Ret (b, r') -> cacheSound r'.
Proof.
  induction list as [|n rest IH]; intros r b r' Hs Hrun; simpl in Hrun.
  - by inversion Hrun; subst.
  - destruct (files_getMember r n) as [[f|]| | |]; simpl in Hrun; try done.
    pose proof (cacheSound_loadArchive n f r Hs) as H.
    destruct (loadArchive n f r) as [[p|] r1]; [|done].
    eapply IH; [|exact Hrun]. exact H.
Qed.

Section CacheSound.

Variable env : Env.

Lemma cacheSound_loadInstallerArchive file ext offset r :
  cacheSound r -> cacheSound (loadInstallerArchive env file ext offset r).2.
Proof.
  intros Hs. unfold loadInstallerArchive.
  destruct (_archiveCache r !! file) eqn:E; [done|].
  destruct (InstallerLoader_load env r file ext offset); [|done].
  by apply (cacheSound_new_entry file _ (emit _ r)).
Qed.

Lemma cacheSound_loadStuffItArchive file key r :
  cacheSound r -> cacheSound (loadStuffItArchive env file key r).2.
Proof.
  intros Hs. unfold loadStuffItArchive.
  destruct (_archiveCache r !! key) eqn:E; [done|].
  destruct (StuffItLoader_load env r file); [|done].
  by apply (cacheSound_new_entry key _ (emit _ r)).
Qed.

Lemma cacheSound_loadStuffItArchive_stream stream key dbg r :
  cacheSound r -> cacheSound (loadStuffItArchive_stream env stream key dbg r).2.
Proof.
  intros Hs. unfold loadStuffItArchive_stream.
  destruct (_archiveCache r !! key) eqn:E; [done|].
  destruct (StuffItLoader_load_stream env r stream dbg); [|done].
  by apply (cacheSound_new_entry key _ (emit _ r)).
Qed.

Lemma cacheSound_loadKyra1MacInstaller r res r' :
  cacheSound r -> loadKyra1MacInstaller env r = Ret (res, r') -> cacheSound r'.
Proof.
  intros Hs. unfold loadKyra1MacInstaller.
  destruct (negb _).
  - pose proof (cacheSound_loadStuffItArchive
                  (findMacResourceFile env "Install Legend of Kyrandia" "")
                  "Install Legend of Kyrandia" r Hs) as H.
    destruct (loadStuffItArchive env _ _ r) as [[p|] r1]; [|done].
    by intros [= <- <-].
  - destruct (negb _); [|by intros [= <- <-]].
    destruct (openInstallerParts env _ _) as [parts| | |]; simpl; [|done|done|done].
    pose proof (cacheSound_loadStuffItArchive_stream (ConcatReadStream parts)
                  "Install Legend of Kyrandia"
                  "Legend of Kyrandia(TM) Installer.*" r Hs) as H.
    destruct (loadStuffItArchive_stream env _ _ _ r). by intros [= <- <-].
Qed.

Lemma cacheSound_loadFileList_loop fuel : forall f r b r',
  cacheSound r -> loadFileList_loop env fuel f r = Ret (b, r') -> cacheSound r'.
Proof.
  induction fuel as [|fuel IH]; intros f r b r' Hs Hrun; [done|].
  cbn [loadFileList_loop] in Hrun.
  destruct (readUint32LE f) as [[off f1]| | |]; cbn [obind] in Hrun; try done.
  destruct (off =? 0); [by inversion Hrun; subst|].
  destruct (Strm.read _ [] 12) as [[buffer k] f3].
  destruct ((k <? 12) && _); [done|].
  destruct (Str.hasSuffix _ ".PAK"); [|by eapply IH].
  destruct (exists_ _ false r) as [present| | |]; cbn [obind] in Hrun; try done.
  destruct (negb present && isDemo (gameFlags env)); [by eapply IH|].
  destruct (loadPakFile_path _ r) as [[ok r1]| | |] eqn:E; cbn [obind] in Hrun;
    try done.
  destruct ok; [|done].
  eapply IH; [|exact Hrun]. by eapply cacheSound_loadPakFile_path.
Qed.

Lemma cacheSound_resetScan files : forall r r',
  cacheSound r -> resetScan env files r = Ret r' -> cacheSound r'.
Proof.
  induction files as [|i rest IH]; intros r r' Hs Hrun; simpl in Hrun.
  - by inversion Hrun; subst.
  - destruct (_ || _); [by eapply IH|].
    destruct (String.eqb _ _); [by eapply IH|].
    pose proof (cacheSound_loadArchive (am_name i) i r Hs) as H.
    destruct (loadArchive (am_name i) i r) as [[p|] r1]; [|done].
    destruct (deref r1 p); simpl in Hrun; try done.
    eapply IH; [|exact Hrun]. exact H.
Qed.

Lemma cacheSound_resetInstallerPaks members : forall r,
  cacheSound r -> cacheSound (resetInstallerPaks members r).
Proof.
  induction members as [|it rest IH]; intros r Hs; simpl; [done|].
  pose proof (cacheSound_loadArchive (am_name it) it r Hs) as H.
  destruct (loadArchive (am_name it) it r) as [pak r1]. apply IH. exact H.
Qed.

Lemma cacheSound_reset r b r' :
  cacheSound r -> reset env r = Ret (b, r') -> cacheSound r'.
Proof.
  intros Hs0.
  assert (Hs : cacheSound (unloadAllPakFiles r)) by exact Hs0.
  unfold reset. generalize dependent (unloadAllPakFiles r). clear Hs0 r.
  intros r Hs.
  destruct (negb (path_isDirectory env)); [done|].
  destruct (_ && _ && useInstallerPackage (gameFlags env)).
  { destruct (loadKyra1MacInstaller env r) as [[[p|] r1]| | |] eqn:E; simpl; try done.
    apply cacheSound_loadKyra1MacInstaller in E; [|done].
    destruct (deref _ p); simpl; try done. intros [= _ <-].
    by apply cacheSound_resetInstallerPaks. }
  destruct (_ || _).
  { destruct (_ && _); [by intros [= _ <-]|].
    destruct (_ && _); [by apply cacheSound_loadProtectedFiles|].
    destruct (resetScan env _ r) as [r1| | |] eqn:E; simpl; try done.
    intros [= _ <-]. by eapply cacheSound_resetScan. }
  assert (Hinst : forall ext offset,
            cacheSound (if useInstallerPackage (gameFlags env)
                        then let '(p, r0) := loadInstallerArchive env "WESTWOOD" ext offset r in
                             set_files (SearchSet.add "installer" (ptrRef p) 2 false) r0
                        else r)).
  { intros ext offset. destruct (useInstallerPackage (gameFlags env)); [|done].
    pose proof (cacheSound_loadInstallerArchive "WESTWOOD" ext offset r Hs) as H.
    by destruct (loadInstallerArchive env "WESTWOOD" ext offset r). }
  destruct (bool_decide (game env = GI_KYRA2)).
  { specialize (Hinst "%03d" 6).
    destruct (_ && _).
    - destruct (loadPakFile_path _ _) as [[? r2]| | |] eqn:E; simpl; try done.
      intros [= _ <-]. by eapply cacheSound_loadPakFile_path.
    - destruct (loadPakFile_path "INTROGEN.PAK" _) as [[? r2]| | |] eqn:E1;
        simpl; try done.
      destruct (loadPakFile_path "OTHER.PAK" _) as [[? r3]| | |] eqn:E2;
        simpl; try done.
      intros [= _ <-]. eapply cacheSound_loadPakFile_path; [|exact E2].
      by eapply cacheSound_loadPakFile_path. }
  destruct (bool_decide (game env = GI_KYRA3)).
  { destruct (loadPakFile_path _ _) as [[? r1]| | |] eqn:E1; simpl; try done.
    destruct (loadFileList_path env _ _) as [[ok r2]| | |] eqn:E2; simpl; try done.
    destruct ok; [|done]. intros [= _ <-].
    unfold loadFileList_path in E2.
    destruct (createReadStream _ r1) as [[f|]| | |]; cbn [obind] in E2; try done.
    eapply cacheSound_loadFileList_loop; [|exact E2].
    by eapply cacheSound_loadPakFile_path. }
  destruct (bool_decide (game env = GI_LOL)).
  { specialize (Hinst "%d" 0).
    destruct (_ && _); [by apply cacheSound_loadProtectedFiles|].
    by intros [= _ <-]. }
  destruct (game env); try done; by intros [= _ <-].
Qed.

(** X10.  The cache never holds a deleted archive.  In every state that
    [reset], the two [loadPakFile], [unloadPakFile] and [unloadAllPakFiles]
    reach from the constructor, for every game, every cached pointer is
    alive and no archive is cached under two keys; so the pointer that
    [getCachedArchive] gives can be dereferenced. *)
Theorem cache_never_dangles (r : Resource) :
  reachable env r ->
  cacheSound r
  /\ (forall file p, getCachedArchive file r = Some p -> exists a, deref r p = Ret a).
Proof.
  intros Hreach.
  assert (Hs : cacheSound r).
  { induction Hreach as [|r b r' _ IH Hrun|r name file _ IH
      |r name b r' _ IH Hrun|r name flag _ IH|r _ IH].
    - apply (bool_decide_unpack _). vm_compute. exact I.
    - by eapply cacheSound_reset.
    - by apply cacheSound_loadPakFile.
    - by eapply cacheSound_loadPakFile_path.
    - by apply cacheSound_unloadPakFile.
    - exact IH. }
  split; [done|]. intros file p Hp. unfold getCachedArchive in Hp.
  destruct Hs as (Hlive & _).
  destruct (map_Forall_lookup_1 _ _ _ _ Hlive Hp) as [a Ha].
  exists a. unfold deref. by rewrite Ha.
Qed.

End CacheSound.

(** ** An archive that [_files] refers to can be deleted *)

(** X11.  [unloadPakFile] with cache removal deletes the archive cached
    under the name without looking at [_files].  So when [_files] refers
    directly to an archive, as it does to every archive of the directory
    scan, and that archive is cached under an upper-case name, opening that
    name as a package and unloading it with cache removal leaves the node
    in [_files] while its archive is gone: a lookup that comes to this node
    dereferences a deleted object. *)
Theorem unload_deletes_archive_that_files_uses (name : string) (file : ArchiveMember)
    (r : Resource) (n : Node) (p : nat) :
  n ∈ _files r ->
  n_arc n = RefArc p ->
  _archiveCache r !! Str.toUppercase name = Some p ->
  isInPakList name r = false ->
  let r2 := unloadPakFile name true (loadPakFile name file r).2 in
  (loadPakFile name file r).1 = true
  /\ n ∈ _files r2
  /\ heap r2 !! p = None
  /\ (forall m, lookFiles r2 m (n_arc n) = Undefined).
Proof.
  intros Hin Harc Hp Hout. unfold isInPakList in Hout.
  unfold loadPakFile. rewrite Hout. unfold loadArchive. rewrite Hp. simpl.
  unfold unloadPakFile. simpl. rewrite hasArchive_add. simpl. rewrite Hp. simpl.
  split; [done|]. split; [done|]. split; [apply lookup_delete_eq|].
  intros m. rewrite Harc. simpl. unfold deref. simpl. by rewrite lookup_delete_eq.
Qed.

(** ** Reading whole files *)

(** X12.  The three readers agree.  For a file that resolves and is
    shorter than 2^32 bytes, [getFileSize] is its length and [fileData]
    gives a buffer of that size holding exactly its bytes.  For a file that
    does not resolve, [getFileSize] is 0, [fileData] is null, [exists] is
    false, and [exists] with the error flag ends in the fatal error. *)
Theorem whole_file_readers (file : string) (r : Resource) :
  (forall name data, findFile r file = Ret (Some (name, data)) ->
     Z.of_nat (length data) < 2 ^ 32 ->
     getFileSize file r = Ret (Z.of_nat (length data))
     /\ fileData file r = Ret (Some (data, Z.of_nat (length data)))
     /\ exists_ file true r = Ret true)
  /\ (findFile r file = Ret None ->
      getFileSize file r = Ret 0
      /\ fileData file r = Ret None
      /\ exists_ file false r = Ret false
      /\ exists_ file true r = Fatal ("File '" +:+ file +:+ "' can't be found")).
Proof.
  split.
  - intros name data Hfind Hlen.
    unfold getFileSize, fileData, exists_, files_hasFile, createReadStream.
    rewrite Hfind. simpl. unfold Strm.size, uint32. simpl.
    rewrite Z.mod_small by lia. split; [done|]. split; [|done].
    unfold Strm.read, Strm.size. simpl.
    rewrite Z.sub_0_r, (Z.max_r 0) by lia. rewrite Z.min_id.
    rewrite Nat2Z.id, firstn_all.
    rewrite (drop_ge (replicate _ _)) by (rewrite length_replicate; lia).
    by rewrite app_nil_r.
  - intros Hfind.
    unfold getFileSize, fileData, exists_, files_hasFile, createReadStream.
    by rewrite Hfind.
Qed.

(** ** The file list of a path *)

Section FileList.

Variable env : Env.

Lemma readUint32LE_Ret f v f1 :
  readUint32LE f = Ret (v, f1) ->
  st_pos f + 4 <= Strm.size f /\ f1 = mkStream (st_data f) (st_pos f + 4).
Proof.
  unfold readUint32LE, Strm.read.
  destruct (Z.min 4 (Z.max 0 (Strm.size f - st_pos f)) <? 4) eqn:E; [done|].
  apply Z.ltb_ge in E. intros [= _ <-]. split; [lia|].
  f_equal. lia.
Qed.

Lemma readUint32LE_finished f : readUint32LE f <> Unfinished.
Proof.
  unfold readUint32LE, Strm.read.
  by destruct (Z.min 4 (Z.max 0 (Strm.size f - st_pos f)) <? 4).
Qed.

Lemma lookup_finished {A} (look : ArcRef -> Outcome (option A)) (l : SearchSet.t) :
  (forall ref, look ref <> Unfinished) -> SearchSet.lookup look l <> Unfinished.
Proof.
  intros Hl. induction l as [|n l IH]; simpl; [done|].
  specialize (Hl (n_arc n)).
  by destruct (look (n_arc n)) as [[x|]| | |].
Qed.

Lemma lookLayer_finished r name ref : lookLayer r name ref <> Unfinished.
Proof.
  unfold lookLayer, deref. destruct ref; try done.
  by destruct (heap r !! _).
Qed.

Lemma findFile_finished r name : findFile r name <> Unfinished.
Proof.
  unfold findFile. destruct (String.eqb name ""); [done|].
  apply lookup_finished. intros ref. unfold lookFiles.
  destruct ref; try apply lookLayer_finished;
    apply lookup_finished; intros ref'; apply lookLayer_finished.
Qed.

Lemma exists_finished file flag r : exists_ file flag r <> Unfinished.
Proof.
  unfold exists_, files_hasFile. pose proof (findFile_finished r file) as Hf.
  destruct (findFile r file) as [e| | |]; simpl; try done.
  destruct (bool_decide (is_Some e)); [done|]. by destruct flag.
Qed.

Lemma loadPakFile_path_finished name r : loadPakFile_path name r <> Unfinished.
Proof.
  unfold loadPakFile_path, files_getMember.
  pose proof (findFile_finished r (Str.toUppercase name)) as Hf.
  destruct (findFile r (Str.toUppercase name)) as [[e|]| | |]; simpl; done.
Qed.

(** With the position within 16 bytes of the end at most and no wrap
    around, the rounds allowed are enough when 20 times their number is more
    than the distance to 16 bytes after the end. *)
Lemma loadFileList_loop_fuel fuel1 : forall fuel2 f r,
  0 <= st_pos f <= Strm.size f + 16 ->
  Strm.size f + 16 < 2 ^ 32 ->
  Strm.size f - st_pos f + 16 < 20 * Z.of_nat fuel1 ->
  Strm.size f - st_pos f + 16 < 20 * Z.of_nat fuel2 ->
  loadFileList_loop env fuel1 f r = loadFileList_loop env fuel2 f r
  /\ loadFileList_loop env fuel1 f r <> Unfinished.
Proof.
  induction fuel1 as [|fuel1 IH]; intros [|fuel2] f r Hpos Hsize H1 H2; try lia.
  cbn [loadFileList_loop].
  pose proof (readUint32LE_finished f) as Hfin.
  destruct (readUint32LE f) as [[off f1]| | |] eqn:Er; cbn [obind]; try done.
  apply readUint32LE_Ret in Er as [Hle ->].
  destruct (off =? 0); [done|].
  unfold Strm.read, Strm.seek, Strm.pos. cbn [st_data st_pos].
  destruct (_ && _); [done|].
  assert (Hnext : forall r1,
    loadFileList_loop env fuel1
      (mkStream (st_data f) (uint32 (uint32 (st_pos f + 4) + 16))) r1
    = loadFileList_loop env fuel2
        (mkStream (st_data f) (uint32 (uint32 (st_pos f + 4) + 16))) r1
    /\ loadFileList_loop env fuel1
         (mkStream (st_data f) (uint32 (uint32 (st_pos f + 4) + 16))) r1
       <> Unfinished).
  { intros r1. unfold uint32. rewrite !Z.mod_small by (rewrite ?Z.mod_small; lia).
    apply IH; unfold Strm.size in *; cbn [st_data st_pos]; lia. }
  destruct (Str.hasSuffix _ ".PAK"); [|apply Hnext].
  pose proof (exists_finished
                (Str.toUppercase
                   (cstring
                      (take (Z.to_nat (Z.min 12 (Z.max 0 (Strm.size
                         (mkStream (st_data f) off) - off))))
                         (drop (Z.to_nat off) (st_data f)) ++
                       drop (Z.to_nat (Z.min 12 (Z.max 0 (Strm.size
                         (mkStream (st_data f) off) - off)))) [])))
                false r) as Hex.
  destruct (exists_ _ false r) as [present| | |]; cbn [obind]; try done.
  destruct (negb present && isDemo (gameFlags env)); [apply Hnext|].
  match goal with
  | |- context [loadPakFile_path ?n r] =>
      pose proof (loadPakFile_path_finished n r) as Hpak;
      destruct (loadPakFile_path n r) as [[ok r1]| | |]; cbn [obind]; try done
  end.
  destruct ok; [apply Hnext | done].
Qed.

Lemma loadFileList_loop_lists fuel : forall f r b r',
  loadFileList_loop env fuel f r = Ret (b, r') ->
  b = true /\ (forall n, isInPakList n r = true -> isInPakList n r' = true).
Proof.
  induction fuel as [|fuel IH]; intros f r b r' Hrun; [done|].
  cbn [loadFileList_loop] in Hrun.
  destruct (readUint32LE f) as [[off f1]| | |]; cbn [obind] in Hrun; try done.
  destruct (off =? 0); [by inversion Hrun; subst|].
  destruct (Strm.read _ [] 12) as [[buffer k] f3].
  destruct ((k <? 12) && _); [done|].
  destruct (Str.hasSuffix _ ".PAK"); [|by eapply IH].
  destruct (exists_ _ false r) as [present| | |]; cbn [obind] in Hrun; try done.
  destruct (negb present && isDemo (gameFlags env)); [by eapply IH|].
  destruct (loadPakFile_path _ r) as [[ok r1]| | |] eqn:E; cbn [obind] in Hrun;
    try done.
  destruct ok; [|done].
  apply loadPakFile_path_lists in E as [Hmono _].
  destruct (IH _ _ _ _ Hrun) as [-> Hmono']. split; [done|].
  intros n Hn. by apply Hmono', Hmono.
Qed.

(** X28.  The loop of [loadFileList] over a list file ends.  Every round
    reads four bytes and moves the position 20 bytes on, so for a list file
    of fewer than 2^32 - 16 bytes, read from its start, the rounds are at
    most one more than a twentieth of its bytes plus 16: with that many
    rounds allowed the loop is not cut off, and allowing more gives the same
    outcome.  The rounds that [loadFileList] allows are enough. *)
Theorem loadFileList_loop_ends (data : list byte) (r : Resource) :
  Z.of_nat (length data) + 16 < 2 ^ 32 ->
  loadFileList_loop env (S ((length data + 16) / 20)) (mkStream data 0) r <> Unfinished
  /\ (forall fuel, ((length data + 16) / 20 < fuel)%nat ->
        loadFileList_loop env fuel (mkStream data 0) r
        = loadFileList_loop env (S ((length data + 16) / 20)) (mkStream data 0) r)
  /\ (forall filedata,
        createReadStream filedata r = Ret (Some (mkStream data 0)) ->
        loadFileList_path env filedata r <> Unfinished).
Proof.
  intros Hlen.
  assert (Hdiv : Z.of_nat (length data) + 16
                 < 20 * Z.of_nat (S ((length data + 16) / 20))).
  { pose proof (Nat.div_mod_eq (length data + 16) 20) as Hd.
    pose proof (Nat.mod_upper_bound (length data + 16) 20 ltac:(lia)). lia. }
  assert (Hall : forall fuel, ((length data + 16) / 20 < fuel)%nat ->
            loadFileList_loop env fuel (mkStream data 0) r
            = loadFileList_loop env (S ((length data + 16) / 20)) (mkStream data 0) r
            /\ loadFileList_loop env fuel (mkStream data 0) r <> Unfinished).
  { intros fuel Hfuel.
    apply loadFileList_loop_fuel; unfold Strm.size; cbn [st_data st_pos]; lia. }
  split; [apply (Hall (S ((length data + 16) / 20))); lia|].
  split; [intros fuel Hfuel; by apply Hall|].
  intros filedata Hopen. unfold loadFileList_path. rewrite Hopen. cbn [obind st_data].
  apply Hall.
  destruct (length data) as [|n]; [simpl; lia|].
  apply Nat.lt_succ_r, Nat.Div0.div_le_upper_bound. lia.
Qed.

(** X29.  [loadFileList] for the path of a file list returns false only
    when the list cannot be opened, and then changes nothing; whenever it
    returns true, every package that was in the lists before is still in
    them. *)
Theorem loadFileList_path_only_adds (filedata : string) (r : Resource) :
  (createReadStream filedata r = Ret None ->
   loadFileList_path env filedata r = Ret (false, r))
  /\ (forall b r', loadFileList_path env filedata r = Ret (b, r') ->
        (b = false -> createReadStream filedata r = Ret None /\ r' = r)
        /\ (forall n, isInPakList n r = true -> isInPakList n r' = true)).
Proof.
  unfold loadFileList_path. split.
  - by intros ->.
  - intros b r'. destruct (createReadStream filedata r) as [[f|]| | |]; cbn [obind];
      try done.
    + intros Hrun. apply loadFileList_loop_lists in Hrun as [-> Hmono].
      split; [done | exact Hmono].
    + by intros [= <- <-].
Qed.

End FileList.

(** * The further properties on the concrete installation *)

(** A.PAK is open; loading b.pak keeps it and caches b.pak at address 2. *)
Lemma loadArchive_only_adds_witness :
  keepsCache loadedA (loadArchive "b.pak" memberB loadedA).2
  /\ _archiveCache (loadArchive "b.pak" memberB loadedA).2 !! "b.pak" = Some 2%nat.
Proof.
  destruct (loadArchive_only_adds "b.pak" memberB loadedA)
    as (H1 & _ & _ & _ & _ & H6).
  - apply (bool_decide_unpack _). vm_compute. exact I.
  - split; [exact H1|].
    destruct (H6 2%nat) as [(Hc & _)|(Hc & _)].
    + reflexivity.
    + exact Hc.
    + vm_compute in Hc. discriminate Hc.
Defined.

(** On the fresh object the rejecting loader comes first and the PAK loader
    accepts A.PAK: the result is the PAK loader's archive, at address 1. *)
Lemma first_accepting_loader_decides_witness :
  (loadArchive "A.PAK" memberA fresh).1 = Some 1%nat.
Proof.
  destruct (first_accepting_loader_decides "A.PAK" memberA fresh a_pak
              [rejecting] pak [tlk]) as (H & _).
  - reflexivity.
  - reflexivity.
  - reflexivity.
  - constructor; [right; reflexivity | constructor].
  - reflexivity.
  - reflexivity.
  - exact H.
Defined.

(** A.PAK is open: opening b.pak keeps A.PAK in the package list and puts
    b.pak into the list and the cache; opening a text file fails and leaves
    list and cache alone. *)
Lemma loadPakFile_only_adds_witness :
  isInPakList "A.PAK" (loadPakFile "b.pak" memberB loadedA).2 = true
  /\ isInPakList "b.pak" (loadPakFile "b.pak" memberB loadedA).2 = true
  /\ isInCacheList "b.pak" (loadPakFile "b.pak" memberB loadedA).2 = true
  /\ _archiveCache
       (loadPakFile "NOTES.TXT" (mkMember "NOTES.TXT" (Some (bytes_of "hello")))
          loadedA).2
     = _archiveCache loadedA.
Proof.
  destruct (loadPakFile_only_adds "b.pak" memberB loadedA)
    as (H1 & _ & _ & _ & H5).
  destruct (loadPakFile_only_adds "NOTES.TXT"
              (mkMember "NOTES.TXT" (Some (bytes_of "hello"))) loadedA)
    as (_ & _ & _ & H4 & _).
  destruct H5 as (H5 & H6); [reflexivity|].
  destruct H4 as (_ & H4 & _); [reflexivity|].
  split; [apply H1; reflexivity|].
  split; [exact H5|].
  split; [apply H6; reflexivity | exact H4].
Defined.

(** A.PAK is open: after the teardown, opening it again reads nothing. *)
Lemma reopen_after_teardown_without_parse_witness :
  trace (loadPakFile "a.pak" memberA (unloadAllPakFiles loadedA)).2 = trace loadedA.
Proof.
  destruct (reopen_after_teardown_without_parse "a.pak" memberA loadedA 1%nat)
    as (_ & _ & _ & H & _).
  - reflexivity.
  - exact H.
Defined.


(** Without an installer file nothing is loaded; with the demo installer a
    second call gives the archive of the first. *)
Lemma loadKyra1MacInstaller_again_witness :
  loadKyra1MacInstaller MoreDemo.noInstaller fresh = Ret (None, fresh)
  /\ loadKyra1MacInstaller env MoreDemo.installed = Ret (Some 1%nat, MoreDemo.installed).
Proof.
  destruct (loadKyra1MacInstaller_again MoreDemo.noInstaller fresh) as (H1 & _).
  destruct (loadKyra1MacInstaller_again env fresh) as (_ & H2).
  split.
  - apply H1; reflexivity.
  - apply H2. vm_compute. reflexivity.
Defined.

(** The Spanish EOB1 resets with result true; without a game directory and
    with an unknown game the reset is a fatal error. *)
Lemma reset_true_or_fatal_witness :
  reset env fresh = Ret (true, eobReset)
  /\ reset MoreDemo.noDirectory fresh = Fatal "invalid game path '/games/nowhere'"
  /\ reset MoreDemo.unknownGame fresh = Fatal "Unknown game id: 99".
Proof.
  destruct (reset_true_or_fatal env fresh) as (H1 & _).
  destruct (reset_true_or_fatal MoreDemo.noDirectory fresh) as (_ & H2 & _).
  destruct (reset_true_or_fatal MoreDemo.unknownGame fresh) as (_ & _ & H3).
  assert (Hr : reset env fresh = Ret (true, eobReset)) by (vm_compute; reflexivity).
  pose proof (H1 true eobReset Hr) as _.
  split; [exact Hr|]. split.
  - apply H2. reflexivity.
  - apply (H3 99); reflexivity.
Defined.

(** The first two names of a list of three, loaded on the fresh object;
    four names asked of the three are read from outside the array. *)
Lemma loadFileList_loads_every_name_witness :
  Forall (fun f => isInPakList f
                     (stateOf (loadFileList (Some ["A.PAK"; "b.pak"; "zz"]) 2 fresh) fresh)
                   = true)
         ["A.PAK"; "b.pak"]
  /\ loadFileList (Some ["A.PAK"; "b.pak"; "zz"]) 4 fresh = Undefined.
Proof.
  destruct (loadFileList_loads_every_name 2 fresh) as (_ & _ & H).
  destruct (loadFileList_loads_every_name 4 fresh) as (_ & Hover & _).
  destruct (H ["A.PAK"; "b.pak"; "zz"] true
              (stateOf (loadFileList (Some ["A.PAK"; "b.pak"; "zz"]) 2 fresh) fresh))
    as (_ & _ & H2 & _).
  - vm_compute. reflexivity.
  - split; [exact H2|]. apply Hover. simpl. lia.
Defined.

(** The Spanish EOB1 after its reset: the cache is sound, and the archive
    cached for A.PAK is alive. *)
Lemma cache_never_dangles_witness :
  cacheSound eobReset
  /\ exists a, deref eobReset 1%nat = Ret a.
Proof.
  destruct (cache_never_dangles env eobReset) as (H1 & H2).
  - apply (reach_reset env fresh true eobReset).
    + apply reach_new.
    + vm_compute. reflexivity.
  - split; [exact H1|]. apply (H2 "A.PAK"). reflexivity.
Defined.

(** After the reset of the Spanish EOB1, [_files] refers to the archive of
    A.PAK, cached under "A.PAK": opening it as a package and unloading it
    with cache removal deletes the archive that [_files] still refers to. *)
Lemma unload_deletes_archive_that_files_uses_witness :
  mkNode 0 "A.PAK" (RefArc 1) false
    ∈ _files (unloadPakFile "A.PAK" true (loadPakFile "A.PAK" memberA eobReset).2)
  /\ heap (unloadPakFile "A.PAK" true (loadPakFile "A.PAK" memberA eobReset).2)
       !! 1%nat = None.
Proof.
  destruct (unload_deletes_archive_that_files_uses "A.PAK" memberA eobReset
              (mkNode 0 "A.PAK" (RefArc 1) false) 1%nat) as (_ & H1 & H2 & _).
  - apply (bool_decide_unpack _). vm_compute. exact I.
  - reflexivity.
  - vm_compute. reflexivity.
  - vm_compute. reflexivity.
  - split; [exact H1 | exact H2].
Defined.

(** NOTES.TXT has five bytes; NOPE.TXT does not exist. *)
Lemma whole_file_readers_witness :
  getFileSize "NOTES.TXT" fresh = Ret 5
  /\ exists_ "NOPE.TXT" true fresh = Fatal "File 'NOPE.TXT' can't be found".
Proof.
  destruct (whole_file_readers "NOTES.TXT" fresh) as (H1 & _).
  destruct (whole_file_readers "NOPE.TXT" fresh) as (_ & H2).
  split.
  - destruct (H1 "NOTES.TXT" (bytes_of "hello")) as (H & _).
    + reflexivity.
    + simpl. lia.
    + exact H.
  - destruct H2 as (_ & _ & _ & H); [reflexivity | exact H].
Defined.

(** The file list of 52 bytes: four rounds are enough, sixty give the
    same, and [loadFileList] is not cut off. *)
Lemma loadFileList_loop_ends_witness :
  loadFileList_loop MoreDemo.withFileList 4 (mkStream MoreDemo.fdt 0)
    (Resource_new MoreDemo.withFileList) <> Unfinished
  /\ loadFileList_loop MoreDemo.withFileList 60 (mkStream MoreDemo.fdt 0)
       (Resource_new MoreDemo.withFileList)
     = loadFileList_loop MoreDemo.withFileList 4 (mkStream MoreDemo.fdt 0)
         (Resource_new MoreDemo.withFileList)
  /\ loadFileList_path MoreDemo.withFileList "FILEDATA.FDT"
       (Resource_new MoreDemo.withFileList) <> Unfinished.
Proof.
  destruct (loadFileList_loop_ends MoreDemo.withFileList MoreDemo.fdt
              (Resource_new MoreDemo.withFileList)) as (H1 & H2 & H3).
  - simpl. lia.
  - split; [exact H1|]. split.
    + apply (H2 60%nat). simpl. lia.
    + apply H3. reflexivity.
Defined.

(** b.pak is open: the file list opens A.PAK and keeps b.pak; a list that
    is not there gives false. *)
Lemma loadFileList_path_only_adds_witness :
  isInPakList "b.pak"
    (stateOf (loadFileList_path MoreDemo.withFileList "FILEDATA.FDT" MoreDemo.loadedB)
       MoreDemo.loadedB) = true
  /\ isInPakList "A.PAK"
       (stateOf (loadFileList_path MoreDemo.withFileList "FILEDATA.FDT" MoreDemo.loadedB)
          MoreDemo.loadedB) = true
  /\ loadFileList_path MoreDemo.withFileList "NOPE.FDT" MoreDemo.loadedB
     = Ret (false, MoreDemo.loadedB).
Proof.
  destruct (loadFileList_path_only_adds MoreDemo.withFileList "FILEDATA.FDT"
              MoreDemo.loadedB) as (_ & H1).
  destruct (loadFileList_path_only_adds MoreDemo.withFileList "NOPE.FDT"
              MoreDemo.loadedB) as (H2 & _).
  destruct (H1 true
              (stateOf (loadFileList_path MoreDemo.withFileList "FILEDATA.FDT"
                          MoreDemo.loadedB) MoreDemo.loadedB)) as (_ & Hmono).
  { vm_compute. reflexivity. }
  split; [apply Hmono; reflexivity|].
  split; [vm_compute; reflexivity|].
  apply H2. reflexivity.
Defined.

(** * Further properties: the Toon inventory *)

Import Toon ToonSpec.

(** ** Array accesses within the bounds *)

Lemma arrGet_nat (a : list Z) (i : nat) x :
  a !! i = Some x -> arrGet a (Z.of_nat i) = Ret x.
Proof.
  intros H. unfold arrGet.
  pose proof (lookup_lt_Some _ _ _ H) as Hlt.
  replace ((0 <=? Z.of_nat i) && (Z.of_nat i <? Z.of_nat (length a))) with true
    by (symmetry; apply andb_true_iff; split; [apply Z.leb_le | apply Z.ltb_lt]; lia).
  by rewrite Nat2Z.id, H.
Qed.

Lemma arrSet_nat (a : list Z) (i : nat) v :
  (i < length a)%nat -> arrSet a (Z.of_nat i) v = Ret (<[i := v]> a).
Proof.
  intros Hlt. unfold arrSet.
  replace ((0 <=? Z.of_nat i) && (Z.of_nat i <? Z.of_nat (length a))) with true
    by (symmetry; apply andb_true_iff; split; [apply Z.leb_le | apply Z.ltb_lt]; lia).
  by rewrite Nat2Z.id.
Qed.

Lemma arrSet_out (a : list Z) (i : Z) v :
  Z.of_nat (length a) <= i -> arrSet a i v = Undefined.
Proof.
  intros H. unfold arrSet.
  replace (i <? Z.of_nat (length a)) with false by (symmetry; apply Z.ltb_ge; lia).
  by rewrite andb_false_r.
Qed.

(** ** The loops of the inventory functions *)

Section InventoryProperties.

Variable narrow : Z -> Z.

Lemma shiftLoop_spec k : forall (j : nat) inv,
  (1 <= j)%nat -> (j + k <= length inv)%nat ->
  shiftLoop k (Z.of_nat j) (Z.of_nat (j + k)) inv
  = Ret (take (j - 1) inv ++ take k (drop j inv) ++ drop (j - 1 + k) inv).
Proof.
  induction k as [|k IH]; intros j inv Hj Hlen.
  - simpl. rewrite Nat.add_0_r, take_drop. done.
  - cbn [shiftLoop].
    replace (Z.of_nat j <? Z.of_nat (j + S k)) with true
      by (symmetry; apply Z.ltb_lt; lia).
    destruct (lookup_lt_is_Some_2 inv j ltac:(lia)) as [x Hx].
    rewrite (arrGet_nat _ _ _ Hx). cbn [obind].
    replace (Z.of_nat j - 1) with (Z.of_nat (j - 1)) by lia.
    rewrite arrSet_nat by lia. cbn [obind].
    replace (Z.of_nat j + 1) with (Z.of_nat (S j)) by lia.
    replace (Z.of_nat (j + S k)) with (Z.of_nat (S j + k)) by lia.
    rewrite IH by (rewrite ?length_insert; lia).
    f_equal.
    replace (S j - 1)%nat with (S (j - 1)) by lia.
    assert (Hins : <[(j - 1)%nat := x]> inv = take (j - 1) inv ++ x :: drop j inv).
    { rewrite <- (take_drop (j - 1) inv) at 1.
      rewrite insert_app_r_alt by (rewrite length_take; lia).
      rewrite length_take, Nat.min_l by lia.
      replace (j - 1 - (j - 1))%nat with 0%nat by lia.
      destruct (drop (j - 1) inv) as [|y t] eqn:Hd.
      { apply (f_equal length) in Hd. rewrite length_drop in Hd. simpl in Hd. lia. }
      simpl. f_equal. f_equal.
      replace (drop j inv) with (drop 1 (drop (j - 1) inv))
        by (rewrite drop_drop; f_equal; lia).
      rewrite Hd. done. }
    rewrite Hins.
    assert (Hl : length (take (j - 1) inv) = (j - 1)%nat) by (rewrite length_take; lia).
    rewrite (take_app_ge _ _ (S (j - 1))) by lia.
    rewrite Hl. replace (S (j - 1) - (j - 1))%nat with 1%nat by lia.
    rewrite (drop_app_ge _ _ (S j)) by lia.
    rewrite Hl. replace (S j - (j - 1))%nat with 2%nat by lia.
    rewrite (drop_app_ge _ _ (S (j - 1) + k)) by lia.
    rewrite Hl. replace (S (j - 1) + k - (j - 1))%nat with (S k) by lia.
    simpl. rewrite <- app_assoc. f_equal. simpl.
    rewrite (drop_S _ x j) by done. simpl.
    rewrite !drop_drop. f_equal.
    replace (j + 1)%nat with (S j) by lia. f_equal.
    + f_equal. f_equal. lia.
    + rewrite <- (drop_S _ x j) by done. rewrite drop_drop. f_equal. lia.
Qed.

Lemma drop_length_cons (a : Z) m r :
  exists z, drop (length m) (a :: m ++ r) = z :: r.
Proof.
  revert a. induction m as [|b m IH]; intros a; simpl.
  - by exists a.
  - apply IH.
Qed.

Lemma rearrangeLoop_spec k : forall pre mid rest inv c nc m,
  inv = pre ++ mid ++ rest ->
  (length mid <= k)%nat ->
  exists inv',
    rearrangeLoop k (Z.of_nat (length pre))
      (mkState inv (Z.of_nat (length pre + length mid)) c nc m)
    = Ret (mkState inv' (Z.of_nat (length pre + length (squeeze mid))) c nc m)
    /\ take (length pre + length (squeeze mid)) inv' = pre ++ squeeze mid
    /\ length inv' = length inv
    /\ drop (length pre + length mid) inv' = rest.
Proof.
  induction k as [|k IH]; intros pre mid rest inv c nc m Hinv Hk.
  - destruct mid; [|simpl in Hk; lia]. simpl in *. subst inv.
    exists (pre ++ rest). rewrite Nat.add_0_r, app_nil_r.
    split_and!; [done | by rewrite take_app_length | done | by rewrite drop_app_length].
  - destruct mid as [|x mid'].
    { simpl in Hinv. subst inv. cbn [rearrangeLoop _numInventoryItems]. simpl length.
      rewrite Nat.add_0_r, Z.ltb_irrefl.
      exists (pre ++ rest). simpl. rewrite ?Nat.add_0_r, ?app_nil_r.
      split_and!; [done | by rewrite take_app_length | done | by rewrite drop_app_length]. }
    cbn [rearrangeLoop _numInventoryItems _inventory].
    replace (Z.of_nat (length pre) <? Z.of_nat (length pre + length (x :: mid')))
      with true by (symmetry; apply Z.ltb_lt; simpl; lia).
    assert (Hx : inv !! length pre = Some x).
    { subst inv. by rewrite lookup_app_r, Nat.sub_diag by lia. }
    rewrite (arrGet_nat _ _ _ Hx). cbn [obind].
    destruct (x =? 0) eqn:Hz.
    + apply Z.eqb_eq in Hz. subst x.
      replace (Z.to_nat (Z.of_nat (length pre + length (0 :: mid'))
                          - (Z.of_nat (length pre) + 1)))
        with (length mid') by (simpl; lia).
      replace (Z.of_nat (length pre) + 1) with (Z.of_nat (S (length pre))) by lia.
      replace (Z.of_nat (length pre + length (0 :: mid')))
        with (Z.of_nat (S (length pre) + length mid')) by (simpl; lia).
      rewrite shiftLoop_spec
        by (subst inv; rewrite ?length_app; simpl; rewrite ?length_app; lia).
      cbn [obind]. unfold set_numInventoryItems, set_inventory.
      cbn [_inventory _numInventoryItems
           _confiscatedInventory _numConfiscatedInventoryItems _mouseState].
      destruct (drop_length_cons 0 mid' rest) as [z Hzr].
      assert (Hinv1 : take (S (length pre) - 1) inv
                      ++ take (length mid') (drop (S (length pre)) inv)
                      ++ drop (S (length pre) - 1 + length mid') inv
                      = pre ++ mid' ++ z :: rest).
      { subst inv. replace (S (length pre) - 1)%nat with (length pre) by lia.
        rewrite take_app_length. f_equal.
        rewrite (drop_app_ge _ _ (S (length pre))) by lia.
        replace (S (length pre) - length pre)%nat with 1%nat by lia. simpl.
        rewrite drop_0, take_app_length. f_equal.
        rewrite drop_app_ge by lia.
        replace (length pre + length mid' - length pre)%nat with (length mid') by lia.
        exact Hzr. }
      rewrite Hinv1.
      replace (Z.of_nat (S (length pre) + length mid') - 1)
        with (Z.of_nat (length pre + length mid')) by lia.
      destruct mid' as [|y t].
      * exists (pre ++ z :: rest). simpl. rewrite Nat.add_0_r.
        replace (rearrangeLoop k (Z.of_nat (S (length pre)))
                   (mkState (pre ++ z :: rest) (Z.of_nat (length pre)) c nc m))
          with (Ret (mkState (pre ++ z :: rest) (Z.of_nat (length pre)) c nc m)).
        2:{ destruct k; [done|]. cbn [rearrangeLoop _numInventoryItems].
            replace (Z.of_nat (S (length pre)) <? Z.of_nat (length pre)) with false
              by (symmetry; apply Z.ltb_ge; lia). done. }
        split_and!; [done| | |].
        -- by rewrite take_app_length, app_nil_r.
        -- subst inv. rewrite !length_app. done.
        -- rewrite drop_app_ge by lia.
           by replace (length pre + 1 - length pre)%nat with 1%nat by lia.
      * destruct (IH (pre ++ [y]) t (z :: rest) (pre ++ (y :: t) ++ z :: rest) c nc m)
          as (inv' & Hrun & Htake & Hlen & Hdrop).
        { by rewrite <- app_assoc. }
        { simpl in Hk. lia. }
        rewrite length_app in Hrun, Htake, Hdrop. simpl in Hrun, Htake, Hdrop.
        exists inv'. simpl.
        replace (Z.of_nat (S (length pre))) with (Z.of_nat (length pre + 1)) by lia.
        replace (Z.of_nat (length pre + S (length t)))
          with (Z.of_nat (length pre + 1 + length t)) by lia.
        rewrite Hrun.
        replace (length pre + S (length (squeeze t)))%nat
          with (length pre + 1 + length (squeeze t))%nat by lia.
        split_and!; [done| | |].
        -- rewrite Htake, <- app_assoc. done.
        -- rewrite Hlen. subst inv. rewrite !length_app. simpl. rewrite ?length_app. simpl. lia.
        -- replace (length pre + S (S (length t)))%nat
             with ((length pre + 1 + length t) + 1)%nat by lia.
           rewrite <- drop_drop, Hdrop. done.
    + destruct (IH (pre ++ [x]) mid' rest inv c nc m) as (inv' & Hrun & Htake & Hlen & Hdrop).
      { subst inv. by rewrite <- app_assoc. }
      { simpl in Hk. lia. }
      rewrite length_app in Hrun, Htake, Hdrop. simpl in Hrun, Htake, Hdrop.
      exists inv'. simpl. rewrite Hz.
      replace (Z.of_nat (length pre) + 1) with (Z.of_nat (length pre + 1)) by lia.
      replace (Z.of_nat (length pre + S (length mid')))
        with (Z.of_nat (length pre + 1 + length mid')) by lia.
      rewrite Hrun.
      replace (length pre + length (x :: squeeze mid'))%nat
        with (length pre + 1 + length (squeeze mid'))%nat by (simpl; lia).
      split_and!; [done| | |].
      * rewrite Htake, <- app_assoc. done.
      * done.
      * replace (length pre + S (length mid'))%nat
          with (length pre + 1 + length mid')%nat by lia. done.
Qed.

Lemma squeeze_packed l : packed l -> squeeze l = l.
Proof.
  induction 1 as [|x l Hx _ IH]; [done|]. simpl.
  destruct (x =? 0) eqn:E; [apply Z.eqb_eq in E; done|]. by rewrite IH.
Qed.

Lemma squeeze_hole l1 l2 :
  packed l1 -> packed l2 -> squeeze (l1 ++ 0 :: l2) = l1 ++ l2.
Proof.
  intros H1 H2. induction H1 as [|x l Hx _ IH].
  - simpl. destruct l2 as [|y t]; [done|].
    f_equal. apply squeeze_packed. by inversion H2.
  - simpl. destruct (x =? 0) eqn:E; [apply Z.eqb_eq in E; done|]. by rewrite IH.
Qed.

Lemma squeeze_two_holes l1 l2 :
  packed l1 -> squeeze (l1 ++ 0 :: 0 :: l2) = l1 ++ 0 :: squeeze l2.
Proof.
  induction 1 as [|x l Hx _ IH]; [done|].
  simpl. destruct (x =? 0) eqn:E; [apply Z.eqb_eq in E; done|]. by rewrite IH.
Qed.

Lemma squeeze_noAdjacentZeros l :
  noAdjacentZeros l -> squeeze l = filter (fun x => x <> 0) l.
Proof.
  induction l as [l IH] using (induction_ltof1 _ (@length Z)). unfold ltof in IH.
  destruct l as [|x l]; [done|]. intros [Hadj Hrest].
  cbn [squeeze]. destruct (x =? 0) eqn:E.
  - apply Z.eqb_eq in E. subst x.
    rewrite filter_cons_False by (intros H; by apply H).
    destruct l as [|y t]; [done|].
    assert (y <> 0) by (intros ->; by apply Hadj).
    rewrite filter_cons_True by done. f_equal.
    apply IH; [simpl; lia | by destruct Hrest].
  - apply Z.eqb_neq in E. rewrite filter_cons_True by done. f_equal.
    apply IH; [simpl; lia | done].
Qed.

Lemma length_squeeze l : (length (squeeze l) <= length l)%nat.
Proof.
  induction l as [l IH] using (induction_ltof1 _ (@length Z)). unfold ltof in IH.
  destruct l as [|x l]; [done|]. cbn [squeeze].
  destruct (x =? 0).
  - destruct l as [|y t]; [simpl; lia|].
    specialize (IH t ltac:(simpl; lia)). simpl. lia.
  - specialize (IH l ltac:(simpl; lia)). simpl. lia.
Qed.

Lemma rearrangeInventory_spec st :
  inBounds st ->
  exists st',
    rearrangeInventory st = Ret st'
    /\ live st' = squeeze (live st)
    /\ _numInventoryItems st' = Z.of_nat (length (squeeze (live st)))
    /\ length (_inventory st') = length (_inventory st)
    /\ drop (Z.to_nat (_numInventoryItems st)) (_inventory st')
       = drop (Z.to_nat (_numInventoryItems st)) (_inventory st)
    /\ sameElsewhere st st'.
Proof.
  intros [H0 Hn]. destruct st as [inv n c nc m]. simpl in H0, Hn.
  unfold rearrangeInventory, live. cbn [_numInventoryItems _inventory].
  set (k := Z.to_nat n).
  assert (Hlen : length (take k inv) = k) by (rewrite length_take; lia).
  destruct (rearrangeLoop_spec k [] (take k inv) (drop k inv) inv c nc m)
    as (inv' & Hrun & Htake & Hlen' & Hdrop).
  { simpl. by rewrite take_drop. }
  { lia. }
  simpl in Hrun, Htake, Hdrop. rewrite Hlen in Hrun, Hdrop.
  replace (Z.of_nat k) with n in Hrun by lia.
  eexists. split; [exact Hrun|]. cbn [_numInventoryItems _inventory].
  rewrite Nat2Z.id. split_and!; try done.
Qed.

Lemma live_set_inventory l rest (st : State) :
  _numInventoryItems st = Z.of_nat (length l) ->
  live (set_inventory (l ++ rest) st) = l.
Proof.
  intros Hn. unfold live, set_inventory. cbn [_numInventoryItems _inventory].
  by rewrite Hn, Nat2Z.id, take_app_length.
Qed.

Lemma length_replaceFirst item new l :
  length (replaceFirst item new l) = length l.
Proof.
  induction l as [|x l IH]; [done|]. simpl. destruct (x =? item); simpl; congruence.
Qed.

Lemma replaceFirst_absent item new l :
  item ∉ l -> replaceFirst item new l = l.
Proof.
  induction l as [|x l IH]; [done|]. intros Hni. simpl.
  destruct (x =? item) eqn:E.
  - apply Z.eqb_eq in E. subst. exfalso. apply Hni. left.
  - f_equal. apply IH. intros Hin. apply Hni. by right.
Qed.

Lemma removeFirst_absent item l :
  item ∉ l -> removeFirst item l = l.
Proof.
  induction l as [|x l IH]; [done|]. intros Hni. simpl.
  destruct (x =? item) eqn:E.
  - apply Z.eqb_eq in E. subst. exfalso. apply Hni. left.
  - f_equal. apply IH. intros Hin. apply Hni. by right.
Qed.

Lemma squeeze_replaceFirst_0 item l :
  packed l -> squeeze (replaceFirst item 0 l) = removeFirst item l.
Proof.
  induction 1 as [|x l Hx Hl IH]; [done|]. simpl.
  destruct (x =? item) eqn:E.
  - simpl. destruct l as [|y t]; [done|]. f_equal.
    apply squeeze_packed. by inversion Hl.
  - cbn [squeeze]. destruct (x =? 0) eqn:E0; [apply Z.eqb_eq in E0; done|].
    by rewrite IH.
Qed.

Lemma packed_removeFirst item l : packed l -> packed (removeFirst item l).
Proof.
  induction 1 as [|x l Hx Hl IH]; [constructor|]. simpl.
  destruct (x =? item); [done|]. by constructor.
Qed.

Lemma insert_middle (pre : list Z) x mid v :
  <[length pre := v]> (pre ++ x :: mid) = pre ++ v :: mid.
Proof.
  rewrite insert_app_r_alt by lia. by rewrite Nat.sub_diag.
Qed.

Lemma deleteLoop_spec item mid : forall pre rest (st : State),
  _inventory st = pre ++ mid ++ rest ->
  deleteLoop (length mid) (Z.of_nat (length pre)) item st
  = if decide (item ∈ mid)
    then rearrangeInventory (set_inventory (pre ++ replaceFirst item 0 mid ++ rest) st)
    else Ret st.
Proof.
  induction mid as [|x mid IH]; intros pre rest st Hinv.
  - simpl. destruct (decide (item ∈ [])) as [Hin|]; [by apply elem_of_nil in Hin | done].
  - cbn [length deleteLoop replaceFirst].
    assert (Hx : _inventory st !! length pre = Some x).
    { rewrite Hinv. by rewrite lookup_app_r, Nat.sub_diag by lia. }
    rewrite (arrGet_nat _ _ _ Hx). cbn [obind].
    destruct (x =? item) eqn:E.
    + apply Z.eqb_eq in E. subst x.
      rewrite arrSet_nat by (apply lookup_lt_Some in Hx; done). cbn [obind].
      rewrite decide_True by left.
      rewrite Hinv. simpl. by rewrite insert_middle.
    + apply Z.eqb_neq in E.
      replace (Z.of_nat (length pre) + 1) with (Z.of_nat (length (pre ++ [x])))
        by (rewrite length_app; simpl; lia).
      rewrite (IH (pre ++ [x]) rest st) by (by rewrite Hinv, <- app_assoc).
      destruct (decide (item ∈ mid)) as [Hin|Hni].
      * rewrite decide_True by (by right). by rewrite <- !app_assoc.
      * rewrite decide_False; [done|]. intros Hin. apply elem_of_cons in Hin.
        destruct Hin; [congruence | done].
Qed.

Lemma deleteItemFromInventory_spec item st :
  inBounds st ->
  exists st',
    deleteItemFromInventory item st = Ret st'
    /\ live st' = (if decide (item ∈ live st)
                   then squeeze (replaceFirst item 0 (live st)) else live st)
    /\ _numInventoryItems st' = Z.of_nat (length (live st'))
    /\ length (_inventory st') = length (_inventory st)
    /\ drop (Z.to_nat (_numInventoryItems st)) (_inventory st')
       = drop (Z.to_nat (_numInventoryItems st)) (_inventory st)
    /\ sameElsewhere st st'
    /\ (item ∉ live st -> st' = st).
Proof.
  intros [H0 Hn]. unfold deleteItemFromInventory.
  set (k := Z.to_nat (_numInventoryItems st)).
  assert (Hlen : length (live st) = k) by (unfold live; rewrite length_take; lia).
  pose proof (deleteLoop_spec item (live st) [] (drop k (_inventory st)) st) as Hrun.
  rewrite Hlen in Hrun. change (Z.of_nat (length [])) with 0 in Hrun.
  simpl in Hrun. rewrite Hrun by (unfold live; by rewrite take_drop).
  destruct (decide (item ∈ live st)) as [Hin|Hni].
  - set (st1 := set_inventory _ st).
    assert (Hlive1 : live st1 = replaceFirst item 0 (live st)).
    { apply live_set_inventory. rewrite length_replaceFirst. lia. }
    assert (Hlen1 : length (_inventory st1) = length (_inventory st)).
    { unfold st1. simpl. rewrite length_app, length_replaceFirst, length_drop. lia. }
    destruct (rearrangeInventory_spec st1) as (st' & Hr & Hl & Hnum & Hlen' & Hdrop & Hsame).
    { unfold inBounds. rewrite Hlen1. done. }
    exists st'. rewrite Hl, Hlive1. split_and!; try done.
    + by rewrite Hnum, Hlive1.
    + congruence.
    + change (_numInventoryItems st1) with (_numInventoryItems st) in Hdrop.
      fold k in Hdrop. rewrite Hdrop. unfold st1. simpl.
      rewrite drop_app_length'; [done|]. by rewrite length_replaceFirst.
  - exists st. split_and!; try done. rewrite Hlen. lia.
Qed.

Lemma replaceLoop_spec item newitem mid : forall pre rest (st : State),
  _inventory st = pre ++ mid ++ rest ->
  replaceLoop narrow (length mid) (Z.of_nat (length pre)) item newitem st
  = if decide (item ∈ mid)
    then Ret (set_inventory
                (pre ++ replaceFirst item (narrow newitem) mid ++ rest) st)
    else Ret st.
Proof.
  induction mid as [|x mid IH]; intros pre rest st Hinv.
  - simpl. destruct (decide (item ∈ [])) as [Hin|]; [by apply elem_of_nil in Hin | done].
  - cbn [length replaceLoop replaceFirst].
    assert (Hx : _inventory st !! length pre = Some x).
    { rewrite Hinv. by rewrite lookup_app_r, Nat.sub_diag by lia. }
    rewrite (arrGet_nat _ _ _ Hx). cbn [obind].
    destruct (x =? item) eqn:E.
    + apply Z.eqb_eq in E. subst x.
      rewrite arrSet_nat by (apply lookup_lt_Some in Hx; done). cbn [obind].
      rewrite decide_True by left.
      rewrite Hinv. simpl. by rewrite insert_middle.
    + apply Z.eqb_neq in E.
      replace (Z.of_nat (length pre) + 1) with (Z.of_nat (length (pre ++ [x])))
        by (rewrite length_app; simpl; lia).
      rewrite (IH (pre ++ [x]) rest st) by (by rewrite Hinv, <- app_assoc).
      destruct (decide (item ∈ mid)) as [Hin|Hni].
      * rewrite decide_True by (by right). by rewrite <- !app_assoc.
      * rewrite decide_False; [done|]. intros Hin. apply elem_of_cons in Hin.
        destruct Hin; [congruence | done].
Qed.

Lemma addLoop_spec item mid : forall pre rest (st : State),
  _inventory st = pre ++ mid ++ rest ->
  _numInventoryItems st = Z.of_nat (length pre + length mid) ->
  addLoop narrow (length mid) (Z.of_nat (length pre)) item st
  = if decide (0 ∈ mid)
    then Ret (set_mouseState (-1)
                (set_inventory
                   (pre ++ replaceFirst 0 (narrow item) mid ++ rest) st))
    else match rest with
         | [] => Undefined
         | _ :: rest' =>
             Ret (set_mouseState (-1)
                    (set_numInventoryItems (_numInventoryItems st + 1)
                       (set_inventory (pre ++ mid ++ narrow item :: rest') st)))
         end.
Proof.
  induction mid as [|x mid IH]; intros pre rest st Hinv Hnum.
  - cbn [length addLoop]. rewrite decide_False by apply not_elem_of_nil.
    simpl in Hinv, Hnum. rewrite Nat.add_0_r in Hnum. rewrite Hnum, Hinv.
    destruct rest as [|r rest'].
    + rewrite arrSet_out; [done|]. rewrite app_nil_r. lia.
    + rewrite arrSet_nat by (rewrite length_app; simpl; lia). cbn [obind].
      by rewrite insert_middle.
  - cbn [length addLoop replaceFirst].
    assert (Hx : _inventory st !! length pre = Some x).
    { rewrite Hinv. by rewrite lookup_app_r, Nat.sub_diag by lia. }
    rewrite (arrGet_nat _ _ _ Hx). cbn [obind].
    destruct (x =? 0) eqn:E.
    + apply Z.eqb_eq in E. subst x.
      rewrite arrSet_nat by (apply lookup_lt_Some in Hx; done). cbn [obind].
      rewrite decide_True by left.
      rewrite Hinv. simpl. by rewrite insert_middle.
    + apply Z.eqb_neq in E.
      replace (Z.of_nat (length pre) + 1) with (Z.of_nat (length (pre ++ [x])))
        by (rewrite length_app; simpl; lia).
      rewrite (IH (pre ++ [x]) rest st);
        [| by rewrite Hinv, <- app_assoc | rewrite Hnum, length_app; simpl; lia].
      destruct (decide (0 ∈ mid)) as [Hin|Hni].
      * rewrite decide_True by (by right). by rewrite <- !app_assoc.
      * rewrite decide_False.
        2:{ intros Hin. apply elem_of_cons in Hin. destruct Hin; [congruence | done]. }
        destruct rest; [done|]. by rewrite <- !app_assoc.
Qed.

Lemma packed_not_elem l : packed l <-> 0 ∉ l.
Proof.
  unfold packed. rewrite Forall_forall. split.
  - intros H Hin. by apply (H 0 Hin).
  - intros H x Hin ->. done.
Qed.

Lemma addItemToInventory_spec d item st :
  ordinary item -> inBounds st ->
  addItemToInventory narrow (S d) item st
  = Some (if decide (0 ∈ live st)
          then Ret (set_mouseState (-1)
                      (set_inventory
                         (replaceFirst 0 (narrow item) (live st)
                          ++ drop (Z.to_nat (_numInventoryItems st)) (_inventory st)) st))
          else match drop (Z.to_nat (_numInventoryItems st)) (_inventory st) with
               | [] => Undefined
               | _ :: rest' =>
                   Ret (set_mouseState (-1)
                          (set_numInventoryItems (_numInventoryItems st + 1)
                             (set_inventory (live st ++ narrow item :: rest') st)))
               end).
Proof.
  intros [Hb H41] [H0 Hn]. cbn [addItemToInventory]. rewrite Hb.
  replace (item =? 41) with false by (symmetry; by apply Z.eqb_neq).
  f_equal.
  set (k := Z.to_nat (_numInventoryItems st)).
  assert (Hlen : length (live st) = k) by (unfold live; rewrite length_take; lia).
  pose proof (addLoop_spec item (live st) [] (drop k (_inventory st)) st) as Hrun.
  rewrite Hlen in Hrun. change (Z.of_nat (length [])) with 0 in Hrun.
  simpl in Hrun. apply Hrun; [unfold live; by rewrite take_drop | lia].
Qed.



Lemma addItemToInventory_41 d st :
  addItemToInventory narrow (S d) 41 st
  = match confiscatedLoop narrow d
            (Z.to_nat (_numConfiscatedInventoryItems st)) 0 st with
    | Some (Ret st') =>
        Some (Ret (set_mouseState (-1) (set_numConfiscatedInventoryItems 0 st')))
    | other => other
    end.
Proof.
  cbn [addItemToInventory]. change (cannotBeAdded 41) with false. cbv iota.
  change (41 =? 41) with true. cbv iota. unfold confiscatedLoop.
  match goal with |- match ?x with _ => _ end = _ => destruct x as [[]|] end;
    reflexivity.
Qed.

Lemma live_length st : inBounds st ->
  length (live st) = Z.to_nat (_numInventoryItems st).
Proof. intros [H0 Hn]. unfold live. rewrite length_take. lia. Qed.

Lemma add_one d c st :
  c <> 41 -> inBounds st -> packed (live st) ->
  (cannotBeAdded c = false ->
   narrow c <> 0 /\ _numInventoryItems st < Z.of_nat (length (_inventory st))) ->
  exists st',
    addItemToInventory narrow (S d) c st = Some (Ret st')
    /\ live st' = live st ++ (if cannotBeAdded c then [] else [narrow c])
    /\ _numInventoryItems st'
       = _numInventoryItems st + (if cannotBeAdded c then 0 else 1)
    /\ _confiscatedInventory st' = _confiscatedInventory st
    /\ _numConfiscatedInventoryItems st' = _numConfiscatedInventoryItems st
    /\ length (_inventory st') = length (_inventory st)
    /\ _mouseState st' = -1.
Proof.
  intros H41 Hb Hp Hroom. destruct (cannotBeAdded c) eqn:Hc.
  - exists (set_mouseState (-1) st). cbn [addItemToInventory]. rewrite Hc.
    split_and!; try done; [by rewrite app_nil_r | simpl; lia].
  - destruct (Hroom eq_refl) as [Hnz Hlt].
    rewrite addItemToInventory_spec by done.
    rewrite decide_False by (by apply packed_not_elem).
    pose proof (live_length st Hb) as Hlen.
    destruct Hb as [H0 Hn].
    destruct (drop (Z.to_nat (_numInventoryItems st)) (_inventory st))
      as [|r rest'] eqn:Hd.
    { apply (f_equal length) in Hd. rewrite length_drop in Hd. simpl in Hd. lia. }
    eexists. split; [reflexivity|].
    split_and!; try done.
    + unfold live. cbn [_numInventoryItems _inventory set_mouseState
                        set_numInventoryItems set_inventory].
      fold (live st).
      replace (Z.to_nat (_numInventoryItems st + 1)) with (length (live st) + 1)%nat
        by lia.
      by rewrite take_app_add.
    + cbn [_inventory set_mouseState set_numInventoryItems set_inventory].
      transitivity (length (take (Z.to_nat (_numInventoryItems st)) (_inventory st)
                            ++ drop (Z.to_nat (_numInventoryItems st)) (_inventory st)));
        [|by rewrite take_drop].
      fold (live st). rewrite Hd, !length_app. done.
Qed.

Lemma confiscatedLoop_spec d cmid : forall cpre crest st k,
  _confiscatedInventory st = cpre ++ cmid ++ crest ->
  _numConfiscatedInventoryItems st = Z.of_nat (length cpre + length cmid) ->
  (length cmid <= k)%nat ->
  inBounds st -> packed (live st) ->
  Forall (fun c => c <> 41 /\ (addable c -> narrow c <> 0)) cmid ->
  _numInventoryItems st + Z.of_nat (length (filter addable cmid))
    <= Z.of_nat (length (_inventory st)) ->
  exists st',
    confiscatedLoop narrow (S d) k (Z.of_nat (length cpre)) st = Some (Ret st')
    /\ live st' = live st ++ (narrow <$> filter addable cmid)
    /\ _confiscatedInventory st' = _confiscatedInventory st
    /\ _numConfiscatedInventoryItems st' = _numConfiscatedInventoryItems st
    /\ length (_inventory st') = length (_inventory st).
Proof.
  induction cmid as [|c cmid IH]; intros cpre crest st k Hconf Hnum Hk Hb Hp Hall Hroom.
  - exists st. simpl in Hnum. rewrite Nat.add_0_r in Hnum.
    split_and!; try done; [|by rewrite app_nil_r].
    destruct k; cbn [confiscatedLoop]; rewrite Hnum, Z.ltb_irrefl; done.
  - destruct k as [|k]; [simpl in Hk; lia|].
    apply Forall_cons in Hall as [[H41 Hnz] Hall].
    cbn [confiscatedLoop].
    replace (Z.of_nat (length cpre) <? _numConfiscatedInventoryItems st) with true
      by (symmetry; apply Z.ltb_lt; rewrite Hnum; simpl; lia).
    assert (Hc : _confiscatedInventory st !! length cpre = Some c).
    { rewrite Hconf. by rewrite lookup_app_r, Nat.sub_diag by lia. }
    rewrite (arrGet_nat _ _ _ Hc).
    destruct (add_one d c st H41 Hb Hp) as (st1 & Hadd & Hl1 & Hn1 & Hc1 & Hnc1 & Hlen1 & _).
    { intros Ha. split; [by apply Hnz|].
      rewrite filter_cons_True in Hroom by done. simpl in Hroom. lia. }
    rewrite Hadd.
    replace (Z.of_nat (length cpre) + 1) with (Z.of_nat (length (cpre ++ [c])))
      by (rewrite length_app; simpl; lia).
    destruct (IH (cpre ++ [c]) crest st1 k) as (st' & Hrun & Hl & Hc' & Hnc' & Hlen').
    + by rewrite Hc1, Hconf, <- app_assoc.
    + rewrite Hnc1, Hnum, length_app. simpl. lia.
    + simpl in Hk. lia.
    + unfold inBounds. rewrite Hn1, Hlen1. destruct Hb as [H0 Hn].
      destruct (cannotBeAdded c) eqn:E; [lia|].
      rewrite filter_cons_True in Hroom by done. simpl in Hroom. lia.
    + rewrite Hl1. apply Forall_app. split; [done|].
      destruct (cannotBeAdded c) eqn:E; [constructor|].
      constructor; [by apply Hnz | constructor].
    + done.
    + rewrite Hn1, Hlen1. destruct (cannotBeAdded c) eqn:E.
      * rewrite filter_cons_False in Hroom by (unfold addable; congruence). lia.
      * rewrite filter_cons_True in Hroom by done. simpl in Hroom. lia.
    + exists st'. split; [exact Hrun|]. split_and!; try congruence.
      rewrite Hl, Hl1, <- app_assoc. f_equal.
      destruct (cannotBeAdded c) eqn:E.
      * by rewrite filter_cons_False by (unfold addable; congruence).
      * by rewrite filter_cons_True by done.
Qed.

Lemma removeFirst_snoc_absent item l :
  item ∉ l -> removeFirst item (l ++ [item]) = l.
Proof.
  induction l as [|x l IH]; intros Hni; simpl.
  - by rewrite Z.eqb_refl.
  - destruct (x =? item) eqn:E.
    + apply Z.eqb_eq in E. subst. exfalso. apply Hni. left.
    + f_equal. apply IH. intros Hin. apply Hni. by right.
Qed.

Lemma packed_filter l : packed (filter (fun x => x <> 0) l).
Proof.
  apply Forall_forall. intros x Hx. by apply list_elem_of_filter in Hx as [Hx _].
Qed.

(** ** The inventory functions *)

(** X13.  [rearrangeInventory] makes one pass over the slots in use: it
    closes an empty slot by moving the later items down and counting one
    item less, and goes on with the next slot, so the item that has just
    moved down is not looked at.  With the count within the array the
    function returns, nothing is read or written outside the array, the
    count is the number of items left, the slots beyond the old count and
    the rest of the state are as before. *)
Theorem rearrangeInventory_one_pass (st : State) :
  inBounds st ->
  exists st',
    rearrangeInventory st = Ret st'
    /\ live st' = squeeze (live st)
    /\ _numInventoryItems st' = Z.of_nat (length (live st'))
    /\ (length (live st') <= length (live st))%nat
    /\ length (_inventory st') = length (_inventory st)
    /\ drop (Z.to_nat (_numInventoryItems st)) (_inventory st')
       = drop (Z.to_nat (_numInventoryItems st)) (_inventory st)
    /\ sameElsewhere st st'.
Proof.
  intros Hb.
  destruct (rearrangeInventory_spec st Hb) as (st' & Hr & Hl & Hn & Hlen & Hd & Hs).
  exists st'. rewrite Hl. split_and!; try done. apply length_squeeze.
Qed.

(** X14.  When no two neighbouring slots in use are both empty,
    [rearrangeInventory] removes every empty slot and keeps the items in
    their order: afterwards no slot in use is empty. *)
Theorem rearrangeInventory_isolated_holes (st : State) :
  inBounds st ->
  noAdjacentZeros (live st) ->
  exists st',
    rearrangeInventory st = Ret st'
    /\ live st' = filter (fun x => x <> 0) (live st)
    /\ packed (live st').
Proof.
  intros Hb Hadj.
  destruct (rearrangeInventory_spec st Hb) as (st' & Hr & Hl & _).
  exists st'. rewrite Hl, squeeze_noAdjacentZeros by done.
  split_and!; try done. apply packed_filter.
Qed.

(** X15.  Two neighbouring empty slots are not both removed: when the
    first empty slot in use is followed by another one,
    [rearrangeInventory] closes the first and steps over the second, which
    stays in the inventory as an empty slot in use. *)
Theorem rearrangeInventory_adjacent_holes (st : State) (l1 l2 : list Z) :
  inBounds st ->
  live st = l1 ++ 0 :: 0 :: l2 ->
  packed l1 ->
  exists st',
    rearrangeInventory st = Ret st'
    /\ live st' = l1 ++ 0 :: squeeze l2
    /\ 0 ∈ live st'.
Proof.
  intros Hb Hlive Hp.
  destruct (rearrangeInventory_spec st Hb) as (st' & Hr & Hl & _).
  exists st'. rewrite Hl, Hlive, squeeze_two_holes by done.
  split_and!; try done. apply elem_of_app. right. left.
Qed.

(** X16.  On an inventory without empty slots, [deleteItemFromInventory]
    removes the first occurrence of the item and nothing else: the items
    after it move down by one, the count goes down by one, and the
    inventory still has no empty slot.  When the item is not there the state
    is unchanged. *)
Theorem deleteItemFromInventory_removes_first (item : Z) (st : State) :
  inBounds st ->
  packed (live st) ->
  exists st',
    deleteItemFromInventory item st = Ret st'
    /\ live st' = removeFirst item (live st)
    /\ packed (live st')
    /\ _numInventoryItems st' = Z.of_nat (length (live st'))
    /\ length (_inventory st') = length (_inventory st)
    /\ sameElsewhere st st'
    /\ (item ∉ live st -> st' = st).
Proof.
  intros Hb Hp.
  destruct (deleteItemFromInventory_spec item st Hb)
    as (st' & Hr & Hl & Hn & Hlen & _ & Hs & Hsame).
  assert (Hl' : live st' = removeFirst item (live st)).
  { rewrite Hl. destruct (decide (item ∈ live st)).
    - by apply squeeze_replaceFirst_0.
    - by rewrite removeFirst_absent. }
  exists st'. split_and!; try done.
  rewrite Hl'. by apply packed_removeFirst.
Qed.

(** X17.  [replaceItemFromInventory] overwrites the first slot in use that
    holds the item, with the new item converted to the element type, and
    changes nothing else: not the count, not a later occurrence, not the
    slots beyond the count.  Replacing by item 0 leaves an empty slot in
    use. *)
Theorem replaceItemFromInventory_first (item newitem : Z) (st : State) :
  inBounds st ->
  exists st',
    replaceItemFromInventory narrow item newitem st = Ret st'
    /\ live st' = replaceFirst item (narrow newitem) (live st)
    /\ _numInventoryItems st' = _numInventoryItems st
    /\ drop (Z.to_nat (_numInventoryItems st)) (_inventory st')
       = drop (Z.to_nat (_numInventoryItems st)) (_inventory st)
    /\ sameElsewhere st st'.
Proof.
  intros Hb. pose proof (live_length st Hb) as Hlen. destruct Hb as [H0 Hn].
  unfold replaceItemFromInventory.
  set (k := Z.to_nat (_numInventoryItems st)) in *.
  pose proof (replaceLoop_spec item newitem (live st) [] (drop k (_inventory st)) st)
    as Hrun.
  rewrite Hlen in Hrun. change (Z.of_nat (length [])) with 0 in Hrun.
  simpl in Hrun. rewrite Hrun by (unfold live; by rewrite take_drop).
  destruct (decide (item ∈ live st)) as [Hin|Hni].
  - eexists. split; [reflexivity|]. split_and!; try done.
    + apply live_set_inventory. rewrite length_replaceFirst. lia.
    + simpl. fold k. rewrite drop_app_length'; [done|].
      by rewrite length_replaceFirst.
  - exists st. split_and!; try done. by rewrite replaceFirst_absent.
Qed.

(** X18.  An item that is neither one of the four that cannot be added nor
    the confiscated inventory goes into the first empty slot in use when
    there is one, and the count stays; otherwise, when the array has a slot
    left, it goes into the slot after the last one in use and the count
    goes up by one.  Either way the mouse state is reset and the confiscated
    inventory is untouched. *)
Theorem addItemToInventory_ordinary (depth : nat) (item : Z) (st : State) :
  ordinary item ->
  inBounds st ->
  (0 ∈ live st ->
   exists st',
     addItemToInventory narrow (S depth) item st = Some (Ret st')
     /\ live st' = replaceFirst 0 (narrow item) (live st)
     /\ _numInventoryItems st' = _numInventoryItems st
     /\ _mouseState st' = -1
     /\ confiscated st' = confiscated st)
  /\ (0 ∉ live st ->
      _numInventoryItems st < Z.of_nat (length (_inventory st)) ->
      exists st',
        addItemToInventory narrow (S depth) item st = Some (Ret st')
        /\ live st' = live st ++ [narrow item]
        /\ _numInventoryItems st' = _numInventoryItems st + 1
        /\ _mouseState st' = -1
        /\ confiscated st' = confiscated st).
Proof.
  intros Ho Hb. pose proof (live_length st Hb) as Hlen.
  rewrite addItemToInventory_spec by done.
  split.
  - intros Hin. rewrite decide_True by done.
    eexists. split; [reflexivity|]. split_and!; try done.
    apply live_set_inventory. rewrite length_replaceFirst. destruct Hb. lia.
  - intros Hni Hlt. rewrite decide_False by done. destruct Hb as [H0 Hn].
    destruct (drop (Z.to_nat (_numInventoryItems st)) (_inventory st))
      as [|r rest'] eqn:Hd.
    { apply (f_equal length) in Hd. rewrite length_drop in Hd. simpl in Hd. lia. }
    eexists. split; [reflexivity|]. split_and!; try done.
    unfold live at 1. cbn [_numInventoryItems _inventory set_mouseState
                           set_numInventoryItems set_inventory].
    replace (Z.to_nat (_numInventoryItems st + 1)) with (length (live st) + 1)%nat
      by lia.
    by rewrite take_app_add.
Qed.

(** X19.  When every slot of the array is in use and none is empty, adding
    such an item stores it in the element after the last one of the array:
    the function has no check for a full inventory. *)
Theorem addItemToInventory_full_overruns (depth : nat) (item : Z) (st : State) :
  ordinary item ->
  inBounds st ->
  0 ∉ live st ->
  _numInventoryItems st = Z.of_nat (length (_inventory st)) ->
  addItemToInventory narrow (S depth) item st = Some Undefined.
Proof.
  intros Ho Hb Hni Hfull.
  rewrite addItemToInventory_spec by done.
  rewrite decide_False by done.
  rewrite drop_ge by lia. done.
Qed.

(** X20.  Item 41 gives back the confiscated inventory.  When none of the
    confiscated items is item 41 itself, the inventory has no empty slot,
    no item is stored as 0 and the array has room, every confiscated item
    other than the four that cannot be added is appended, in order; the
    confiscated count becomes 0 and the mouse state is reset.  Two levels
    of calls are enough. *)
Theorem addItemToInventory_confiscated (depth : nat) (st : State) :
  inBounds st ->
  0 <= _numConfiscatedInventoryItems st
    <= Z.of_nat (length (_confiscatedInventory st)) ->
  packed (live st) ->
  Forall (fun c => c <> 41 /\ (addable c -> narrow c <> 0)) (confiscated st) ->
  _numInventoryItems st + Z.of_nat (length (filter addable (confiscated st)))
    <= Z.of_nat (length (_inventory st)) ->
  exists st',
    addItemToInventory narrow (S (S depth)) 41 st = Some (Ret st')
    /\ live st' = live st ++ (narrow <$> filter addable (confiscated st))
    /\ _numConfiscatedInventoryItems st' = 0
    /\ _confiscatedInventory st' = _confiscatedInventory st
    /\ _mouseState st' = -1.
Proof.
  intros Hb [Hc0 Hcn] Hp Hall Hroom.
  set (k := Z.to_nat (_numConfiscatedInventoryItems st)).
  assert (Hlen : length (confiscated st) = k)
    by (unfold confiscated; rewrite length_take; lia).
  destruct (confiscatedLoop_spec depth (confiscated st) []
              (drop k (_confiscatedInventory st)) st k)
    as (st' & Hrun & Hl & Hc' & Hnc' & Hlen'); try done.
  - unfold confiscated. by rewrite take_drop.
  - rewrite Hlen. simpl. lia.
  - lia.
  - change (Z.of_nat (length [])) with 0 in Hrun.
    rewrite addItemToInventory_41. fold k. rewrite Hrun.
    eexists. split; [reflexivity|]. split_and!; done.
Qed.

(** X21.  When the first confiscated item is item 41 itself, adding item
    41 calls itself with the same state again and again: no bound on the
    depth of the calls is enough for it to return. *)
Theorem addItemToInventory_41_never_returns (st : State) :
  _confiscatedInventory st !! 0%nat = Some 41 ->
  1 <= _numConfiscatedInventoryItems st ->
  forall depth, addItemToInventory narrow depth 41 st = None.
Proof.
  intros Hc Hn depth. induction depth as [|d IH]; [done|].
  rewrite addItemToInventory_41.
  destruct (Z.to_nat (_numConfiscatedInventoryItems st)) as [|k] eqn:Hk; [lia|].
  cbn [confiscatedLoop].
  replace (0 <? _numConfiscatedInventoryItems st) with true
    by (symmetry; apply Z.ltb_lt; lia).
  pose proof (arrGet_nat _ 0%nat _ Hc) as Hg. change (Z.of_nat 0) with 0 in Hg.
  by rewrite Hg, IH.
Qed.

(** X22.  Adding and deleting cancel: on an inventory without empty slots
    and with room, adding an item that is not there yet, is not 0 and fits
    the element type, and then deleting it, gives back the items and the
    count there were. *)
Theorem add_then_delete (depth : nat) (item : Z) (st : State) :
  ordinary item ->
  narrow item = item ->
  item <> 0 ->
  inBounds st ->
  packed (live st) ->
  _numInventoryItems st < Z.of_nat (length (_inventory st)) ->
  item ∉ live st ->
  exists st1 st2,
    addItemToInventory narrow (S depth) item st = Some (Ret st1)
    /\ deleteItemFromInventory item st1 = Ret st2
    /\ live st1 = live st ++ [item]
    /\ live st2 = live st
    /\ _numInventoryItems st2 = _numInventoryItems st.
Proof.
  intros [Hadd H41] Hnarrow Hnz Hb Hp Hroom Hni.
  destruct (add_one depth item st H41 Hb Hp)
    as (st1 & Hrun1 & Hl1 & Hn1 & _ & _ & Hlen1 & _).
  { intros _. by rewrite Hnarrow. }
  rewrite Hadd, Hnarrow in Hl1. rewrite Hadd in Hn1.
  assert (Hb1 : inBounds st1).
  { unfold inBounds. rewrite Hn1, Hlen1. destruct Hb. lia. }
  destruct (deleteItemFromInventory_spec item st1 Hb1)
    as (st2 & Hrun2 & Hl2 & Hn2 & _).
  rewrite decide_True in Hl2 by (rewrite Hl1; apply elem_of_app; right; left).
  rewrite Hl1, squeeze_replaceFirst_0, removeFirst_snoc_absent in Hl2; try done.
  2:{ apply Forall_app. split; [done|]. by constructor. }
  exists st1, st2. split_and!; try done.
  rewrite Hn2, Hl2, (live_length st Hb). destruct Hb. lia.
Qed.

End InventoryProperties.

(** * Further properties: dirty rectangles, palette, test counter *)

Lemma int16_id z : - 2 ^ 15 <= z < 2 ^ 15 -> int16 z = z.
Proof. intros H. unfold int16. rewrite Z.mod_small by lia. lia. Qed.

Section DirtyRectProperties.

Variable W H : Z.
Variable contains : Rect -> Rect -> bool.

Lemma scanDirtyRects_sublist rect l :
  sublist (scanDirtyRects contains rect l).2 l.
Proof.
  induction l as [|d l IH]; simpl; [constructor|].
  destruct (contains d rect); [done|].
  destruct (contains rect d).
  - by apply sublist_cons.
  - destruct (scanDirtyRects contains rect l) as [f l']. simpl in *.
    by apply sublist_skip.
Qed.

Lemma scanDirtyRects_not_found rect l :
  (scanDirtyRects contains rect l).1 = false ->
  Forall (fun d => contains d rect = false /\ contains rect d = false)
    (scanDirtyRects contains rect l).2.
Proof.
  induction l as [|d l IH]; simpl; [constructor|].
  destruct (contains d rect) eqn:E1; [done|].
  destruct (contains rect d) eqn:E2; [done|].
  destruct (scanDirtyRects contains rect l) as [f l']. simpl in *.
  intros ->. constructor; [done | by apply IH].
Qed.

Lemma irredundant_sublist l' l :
  sublist l' l -> irredundant contains l -> irredundant contains l'.
Proof.
  induction 1 as [|x l1 l2 Hs IH|x l1 l2 Hs IH]; simpl; [done| |].
  - intros [Hx Hl]. split; [|by apply IH].
    rewrite Forall_forall in Hx |- *. intros b Hb. apply Hx.
    by eapply elem_of_sublist.
  - intros [_ Hl]. by apply IH.
Qed.

Lemma irredundant_snoc l r :
  irredundant contains l ->
  Forall (fun d => contains d r = false /\ contains r d = false) l ->
  irredundant contains (l ++ [r]).
Proof.
  induction l as [|a l IH]; simpl; [done|].
  intros [Ha Hl] Hr. apply Forall_cons in Hr as [Har Hr].
  split; [|by apply IH].
  apply Forall_app. split; [done|]. by constructor.
Qed.

Lemma addDirtyRect_irredundant left top right bottom s :
  irredundant contains (_dirtyRects s) ->
  irredundant contains (_dirtyRects (addDirtyRect W H contains left top right bottom s)).
Proof.
  intros Hirr. unfold addDirtyRect.
  destruct (_ || _); [done|].
  set (rect := mkRect _ _ _ _).
  pose proof (scanDirtyRects_sublist rect (_dirtyRects s)) as Hsub.
  pose proof (scanDirtyRects_not_found rect (_dirtyRects s)) as Hnf.
  destruct (scanDirtyRects contains rect (_dirtyRects s)) as [found dirty].
  simpl in Hsub, Hnf.
  destruct found; simpl.
  - by eapply irredundant_sublist.
  - apply irredundant_snoc; [by eapply irredundant_sublist | by apply Hnf].
Qed.

Lemma addDirtyRects_irredundant calls : forall s,
  irredundant contains (_dirtyRects s) ->
  irredundant contains (_dirtyRects (addDirtyRects W H contains calls s)).
Proof.
  induction calls as [|[[[l t] r] b] calls IH]; intros s Hs; [done|].
  simpl. apply IH. by apply addDirtyRect_irredundant.
Qed.


(** X23.  The list of dirty rectangles never holds a rectangle that contains
    another rectangle of the list: this is so after [clearDirtyRects] and
    after [dirtyAllScreen], and every [addDirtyRect] keeps it so, whatever
    the containment test is. *)
Theorem dirty_rects_irredundant (calls : list (Z * Z * Z * Z)) (s : Screen) :
  irredundant contains
    (_dirtyRects (addDirtyRects W H contains calls (clearDirtyRects s)))
  /\ irredundant contains
       (_dirtyRects (addDirtyRects W H contains calls (dirtyAllScreen s))).
Proof. split; by apply addDirtyRects_irredundant. Qed.

Hypothesis contains_sound : forall a b, contains a b = true ->
  forall x y, inside x y b -> inside x y a.

Lemma scanDirtyRects_covers rect l x y :
  (covered x y l ->
   covered x y (scanDirtyRects contains rect l).2 \/ inside x y rect)
  /\ ((scanDirtyRects contains rect l).1 = true ->
      inside x y rect -> covered x y (scanDirtyRects contains rect l).2).
Proof.
  unfold covered. induction l as [|d l [IH1 IH2]]; simpl.
  - split; [intros Hc; by apply Exists_nil in Hc | done].
  - destruct (contains d rect) eqn:E1.
    { split; [by left|]. intros _ Hin. apply Exists_cons_hd.
      by apply (contains_sound _ _ E1). }
    destruct (contains rect d) eqn:E2.
    { split; [|done]. intros Hc. apply Exists_cons in Hc as [Hd|Hl]; [|by apply IH1].
      right. by apply (contains_sound _ _ E2). }
    destruct (scanDirtyRects contains rect l) as [f l']. simpl in *.
    split.
    + intros Hc. apply Exists_cons in Hc as [Hd|Hl]; [left; by apply Exists_cons_hd|].
      destruct (IH1 Hl) as [Hc'|Hin]; [left; by apply Exists_cons_tl | by right].
    + intros Hf Hin. apply Exists_cons_tl. by apply IH2.
Qed.

Hypothesis W_range : 0 <= W < 2 ^ 15.
Hypothesis H_range : 0 <= H < 2 ^ 15.

Lemma addDirtyRect_covers_aux left top right bottom s x y :
  (covered x y (_dirtyRects s) ->
   covered x y (_dirtyRects (addDirtyRect W H contains left top right bottom s)))
  /\ (inside x y (clampedRect W H left top right bottom) ->
      covered x y (_dirtyRects (addDirtyRect W H contains left top right bottom s))).
Proof.
  unfold addDirtyRect.
  destruct (_ || _) eqn:Hempty.
  { split; [done|]. intros [[H1 H2] [H3 H4]]. simpl in *.
    apply orb_true_iff in Hempty as [He|He]; apply Z.leb_le in He; lia. }
  rewrite !int16_id by lia.
  fold (clampedRect W H left top right bottom).
  set (rect := clampedRect _ _ _ _ _ _).
  destruct (scanDirtyRects_covers rect (_dirtyRects s) x y) as [Hc1 Hc2].
  destruct (scanDirtyRects contains rect (_dirtyRects s)) as [found dirty].
  simpl in Hc1, Hc2. unfold covered in *.
  destruct found; simpl.
  - split; [|by apply Hc2]. intros Hc. destruct (Hc1 Hc); [done | by apply Hc2].
  - split.
    + intros Hc. apply Exists_app. destruct (Hc1 Hc); [by left|].
      right. by apply Exists_cons_hd.
    + intros Hin. apply Exists_app. right. by apply Exists_cons_hd.
Qed.

End DirtyRectProperties.

(** X24.  [addDirtyRect] loses no dirty area.  With a back buffer whose
    sides fit 16 bits and a containment test that is sound for the points of
    the rectangles, every point covered by the dirty rectangles before the
    call is covered after it, although rectangles are removed; and every
    point of the rectangle given, clipped to the back buffer, is covered
    after the call. *)
Theorem addDirtyRect_covers (W H : Z) (contains : Rect -> Rect -> bool)
    (left top right bottom : Z) (s : Screen) (x y : Z) :
  (forall a b, contains a b = true -> forall x y, inside x y b -> inside x y a) ->
  0 <= W < 2 ^ 15 ->
  0 <= H < 2 ^ 15 ->
  (covered x y (_dirtyRects s) ->
   covered x y (_dirtyRects (addDirtyRect W H contains left top right bottom s)))
  /\ (inside x y (clampedRect W H left top right bottom) ->
      covered x y (_dirtyRects (addDirtyRect W H contains left top right bottom s))).
Proof. intros Hs HW HH. by apply addDirtyRect_covers_aux. Qed.

(** ** The palette *)

Lemma sixToEight_step a :
  isByte a -> (if 255 <? a * 4 then 255 else a * 4) mod 256 = sixToEight a.
Proof.
  intros Ha. unfold isByte in Ha. unfold sixToEight.
  destruct (255 <? a * 4) eqn:E.
  - apply Z.ltb_lt in E. rewrite Z.min_r by lia. done.
  - apply Z.ltb_ge in E. rewrite Z.min_l by lia. apply Z.mod_small. lia.
Qed.

Lemma fixPaletteLoop_spec mid : forall pre rest,
  Forall isByte mid ->
  fixPaletteLoop (length mid) (Z.of_nat (length pre)) (pre ++ mid ++ rest)
  = Ret (pre ++ (sixToEight <$> mid) ++ rest).
Proof.
  induction mid as [|a mid IH]; intros pre rest Hb; [done|].
  apply Forall_cons in Hb as [Ha Hb].
  cbn [length fixPaletteLoop].
  assert (Hx : (pre ++ (a :: mid) ++ rest) !! length pre = Some a).
  { by rewrite lookup_app_r, Nat.sub_diag by lia. }
  rewrite (arrGet_nat _ _ _ Hx). cbn [obind].
  rewrite arrSet_nat by (apply lookup_lt_Some in Hx; done). cbn [obind].
  rewrite sixToEight_step by done.
  change ((a :: mid) ++ rest) with (a :: mid ++ rest). rewrite insert_middle.
  pose proof (IH (pre ++ [sixToEight a]) rest Hb) as IH'.
  rewrite length_app in IH'. change (length [sixToEight a]) with 1%nat in IH'.
  rewrite <- !app_assoc in IH'.
  replace (Z.of_nat (length pre + 1)) with (Z.of_nat (length pre) + 1) in IH' by lia.
  exact IH'.
Qed.

Lemma fixPaletteLoop_overrun k : forall pre,
  fixPaletteLoop (S k) (Z.of_nat (length pre)) pre = Undefined.
Proof.
  intros pre. cbn [fixPaletteLoop]. unfold arrGet.
  replace (Z.of_nat (length pre) <? Z.of_nat (length pre)) with false
    by (symmetry; apply Z.ltb_ge; lia).
  by rewrite andb_false_r.
Qed.

Lemma fixPaletteLoop_app k1 : forall k2 i p p',
  fixPaletteLoop k1 i p = Ret p' ->
  fixPaletteLoop (k1 + k2) i p = fixPaletteLoop k2 (i + Z.of_nat k1) p'.
Proof.
  induction k1 as [|k1 IH]; intros k2 i p p' Hrun.
  - simpl in Hrun. injection Hrun as <-. simpl. f_equal. lia.
  - cbn [fixPaletteLoop Nat.add] in *.
    destruct (arrGet p i) as [a| | |]; try done. cbn [obind] in *.
    destruct (arrSet p i _) as [p1| | |]; try done. cbn [obind] in *.
    rewrite (IH k2 (i + 1) p1 p' Hrun). f_equal. lia.
Qed.


(** X25.  [fixPaletteEntries] turns each of the first [num * 3] bytes of the
    palette into four times its value, or 255 when that is more, and leaves
    the bytes after them as they are; for a [num] that is not positive it
    changes nothing. *)
Theorem fixPaletteEntries_six_to_eight (palette : list Z) (num : Z) :
  - 2 ^ 31 <= num * 3 < 2 ^ 31 ->
  num * 3 <= Z.of_nat (length palette) ->
  Forall isByte (take (Z.to_nat (num * 3)) palette) ->
  fixPaletteEntries palette num
  = Ret ((sixToEight <$> take (Z.to_nat (num * 3)) palette)
         ++ drop (Z.to_nat (num * 3)) palette)
  /\ (num <= 0 -> fixPaletteEntries palette num = Ret palette).
Proof.
  intros Hr Hlen Hb. unfold fixPaletteEntries.
  replace ((- 2 ^ 31 <=? num * 3) && (num * 3 <? 2 ^ 31)) with true
    by (symmetry; apply andb_true_iff; split; [apply Z.leb_le | apply Z.ltb_lt]; lia).
  split.
  - set (k := Z.to_nat (num * 3)) in *.
    pose proof (fixPaletteLoop_spec (take k palette) [] (drop k palette) Hb) as Hrun.
    rewrite length_take, Nat.min_l in Hrun by lia.
    change (Z.of_nat (length [])) with 0 in Hrun. simpl in Hrun.
    by rewrite take_drop in Hrun.
  - intros Hneg. by replace (Z.to_nat (num * 3)) with 0%nat by lia.
Qed.

(** X26.  When the palette has fewer than [num * 3] bytes,
    [fixPaletteEntries] goes on past its end: the function cannot know the
    length of the array it is given. *)
Theorem fixPaletteEntries_overrun (palette : list Z) (num : Z) :
  Forall isByte palette ->
  Z.of_nat (length palette) < num * 3 < 2 ^ 31 ->
  fixPaletteEntries palette num = Undefined.
Proof.
  intros Hb [Hlt Hr]. unfold fixPaletteEntries.
  replace ((- 2 ^ 31 <=? num * 3) && (num * 3 <? 2 ^ 31)) with true
    by (symmetry; apply andb_true_iff; split; [apply Z.leb_le | apply Z.ltb_lt]; lia).
  pose proof (fixPaletteLoop_spec palette [] [] Hb) as Hrun.
  change (Z.of_nat (length [])) with 0 in Hrun. simpl in Hrun.
  rewrite app_nil_r in Hrun.
  destruct (Z.to_nat (num * 3) - length palette)%nat as [|k] eqn:Hk; [lia|].
  replace (Z.to_nat (num * 3)) with (length palette + S k)%nat by lia.
  rewrite (fixPaletteLoop_app _ _ _ _ _ Hrun). rewrite app_nil_r.
  replace (0 + Z.of_nat (length palette))
    with (Z.of_nat (length (sixToEight <$> palette)))
    by (rewrite length_fmap; lia).
  apply fixPaletteLoop_overrun.
Qed.

(** ** The test counter of the Burger console *)

Section TestCounter.
Variable flags : Z -> Z.
Variable k1 k2 k3 k4 k5 : Z.

Lemma testsPassed_spec :
  Burger.testsPassed flags k1 k2 k3 k4 k5
  = if bool_decide (flags k1 = 0 /\ flags k2 = 0 /\ flags k3 = 0
                    /\ flags k4 = 0 /\ flags k5 = 0)
    then 0 else 1.
Proof.
  unfold Burger.testsPassed. rewrite !Z.add_0_l.
  destruct (flags k1 =? 0) eqn:E1; simpl;
    [apply Z.eqb_eq in E1 | apply Z.eqb_neq in E1; by rewrite bool_decide_eq_false_2 by tauto].
  destruct (flags k2 =? 0) eqn:E2; simpl;
    [apply Z.eqb_eq in E2 | apply Z.eqb_neq in E2; by rewrite bool_decide_eq_false_2 by tauto].
  destruct (flags k3 =? 0) eqn:E3; simpl;
    [apply Z.eqb_eq in E3 | apply Z.eqb_neq in E3; by rewrite bool_decide_eq_false_2 by tauto].
  destruct (flags k4 =? 0) eqn:E4; simpl;
    [apply Z.eqb_eq in E4 | apply Z.eqb_neq in E4; by rewrite bool_decide_eq_false_2 by tauto].
  destruct (flags k5 =? 0) eqn:E5; simpl;
    [apply Z.eqb_eq in E5 | apply Z.eqb_neq in E5; by rewrite bool_decide_eq_false_2 by tauto].
  by rewrite bool_decide_eq_true_2 by tauto.
Qed.


(** X27.  [cmdTest] does not count the tests passed.  The conditional
    operators of its initialiser take in the sums that follow them, so the
    number printed is 1 when at least one of the five flags is set and 0
    when none is: with all five tests passed it still prints 1. *)
Theorem cmdTest_prints_0_or_1 :
  Burger.cmdTest flags k1 k2 k3 k4 k5
  = (if bool_decide (flags k1 = 0 /\ flags k2 = 0 /\ flags k3 = 0
                     /\ flags k4 = 0 /\ flags k5 = 0)
     then "Tests passed = 0" +:+ String "010"%char ""
     else "Tests passed = 1" +:+ String "010"%char "",
     true).
Proof.
  unfold Burger.cmdTest. rewrite testsPassed_spec.
  by destruct (bool_decide _).
Qed.

End TestCounter.

(** * The further properties on concrete values *)

Import MoreDemo.

Lemma rectContains_sound (a b : Rect) :
  rectContains a b = true -> forall x y, inside x y b -> inside x y a.
Proof.
  unfold rectContains, inside. intros Hc x y.
  apply andb_true_iff in Hc as [Hc H4]. apply andb_true_iff in Hc as [Hc H3].
  apply andb_true_iff in Hc as [H1 H2].
  apply Z.leb_le in H1, H2, H3, H4. lia.
Qed.

(** Six slots in use, three of them empty, two of these neighbours: one
    empty slot is left. *)
Lemma rearrangeInventory_one_pass_witness :
  exists st', rearrangeInventory holes = Ret st' /\ live st' = [12; 7; 0; 3].
Proof.
  destruct (rearrangeInventory_one_pass holes) as (st' & H1 & H2 & _).
  - unfold inBounds. simpl. lia.
  - exists st'. split; [exact H1 | exact H2].
Defined.

(** Two empty slots that are no neighbours: both go. *)
Lemma rearrangeInventory_isolated_holes_witness :
  exists st',
    rearrangeInventory (mkState [12; 0; 7; 0; 3; 9] 5 [] 0 0) = Ret st'
    /\ live st' = [12; 7; 3].
Proof.
  destruct (rearrangeInventory_isolated_holes (mkState [12; 0; 7; 0; 3; 9] 5 [] 0 0))
    as (st' & H1 & H2 & _).
  - unfold inBounds. simpl. lia.
  - simpl. repeat split; lia.
  - exists st'. split; [exact H1 | exact H2].
Defined.

(** Two empty slots that are neighbours: the second stays. *)
Lemma rearrangeInventory_adjacent_holes_witness :
  exists st',
    rearrangeInventory (mkState [12; 0; 0; 3; 9] 4 [] 0 0) = Ret st'
    /\ live st' = [12; 0; 3].
Proof.
  destruct (rearrangeInventory_adjacent_holes (mkState [12; 0; 0; 3; 9] 4 [] 0 0)
              [12] [3]) as (st' & H1 & H2 & _).
  - unfold inBounds. simpl. lia.
  - reflexivity.
  - repeat constructor. lia.
  - exists st'. split; [exact H1 | exact H2].
Defined.

(** Deleting item 7 from the items 12, 7, 3. *)
Lemma deleteItemFromInventory_removes_first_witness :
  exists st', deleteItemFromInventory 7 tidy = Ret st' /\ live st' = [12; 3].
Proof.
  destruct (deleteItemFromInventory_removes_first 7 tidy) as (st' & H1 & H2 & _).
  - unfold inBounds. simpl. lia.
  - repeat constructor; lia.
  - exists st'. split; [exact H1 | exact H2].
Defined.

(** Replacing item 7 by item 0. *)
Lemma replaceItemFromInventory_first_witness :
  exists st',
    replaceItemFromInventory wide 7 0 holes = Ret st'
    /\ live st' = [12; 0; 0; 0; 0; 3].
Proof.
  destruct (replaceItemFromInventory_first wide 7 0 holes) as (st' & H1 & H2 & _).
  - unfold inBounds. simpl. lia.
  - exists st'. split; [exact H1 | exact H2].
Defined.

(** Item 50 goes into the first empty slot, or after the last item. *)
Lemma addItemToInventory_ordinary_witness :
  (exists st', addItemToInventory wide 1 50 holes = Some (Ret st')
               /\ live st' = [12; 50; 7; 0; 0; 3])
  /\ (exists st', addItemToInventory wide 1 50 tidy = Some (Ret st')
                  /\ live st' = [12; 7; 3; 50]).
Proof.
  destruct (addItemToInventory_ordinary wide 0 50 holes) as (H1 & _).
  { split; [reflexivity | lia]. }
  { unfold inBounds. simpl. lia. }
  destruct (addItemToInventory_ordinary wide 0 50 tidy) as (_ & H2).
  { split; [reflexivity | lia]. }
  { unfold inBounds. simpl. lia. }
  split.
  - destruct H1 as (st' & Ha & Hb & _).
    + apply (bool_decide_unpack _). vm_compute. exact I.
    + exists st'. split; [exact Ha | exact Hb].
  - destruct H2 as (st' & Ha & Hb & _).
    + apply (bool_decide_unpack _). vm_compute. exact I.
    + simpl. lia.
    + exists st'. split; [exact Ha | exact Hb].
Defined.

(** All three slots in use: item 50 is written to a fourth. *)
Lemma addItemToInventory_full_overruns_witness :
  addItemToInventory wide 1 50 full = Some Undefined.
Proof.
  apply (addItemToInventory_full_overruns wide 0 50 full).
  - split; [reflexivity | lia].
  - unfold inBounds. simpl. lia.
  - apply (bool_decide_unpack _). vm_compute. exact I.
  - reflexivity.
Defined.

(** The confiscated items 5, 103 and 8: 5 and 8 come back. *)
Lemma addItemToInventory_confiscated_witness :
  exists st',
    addItemToInventory wide 2 41 tidy = Some (Ret st')
    /\ live st' = [12; 7; 3; 5; 8]
    /\ _numConfiscatedInventoryItems st' = 0.
Proof.
  destruct (addItemToInventory_confiscated wide 0 tidy) as (st' & H1 & H2 & H3 & _).
  - unfold inBounds. simpl. lia.
  - simpl. lia.
  - repeat constructor; lia.
  - repeat constructor; unfold wide; lia.
  - vm_compute. discriminate.
  - exists st'. split; [exact H1|]. split; [exact H2 | exact H3].
Defined.

(** Item 41 among the confiscated items: a hundred levels of calls are not
    enough. *)
Lemma addItemToInventory_41_never_returns_witness :
  addItemToInventory wide 100 41 selfConfiscated = None.
Proof.
  apply (addItemToInventory_41_never_returns wide selfConfiscated).
  - reflexivity.
  - simpl. lia.
Defined.

(** Item 50 added to the items 12, 7, 3 and deleted again. *)
Lemma add_then_delete_witness :
  exists st1 st2,
    addItemToInventory wide 1 50 tidy = Some (Ret st1)
    /\ deleteItemFromInventory 50 st1 = Ret st2
    /\ live st2 = [12; 7; 3].
Proof.
  destruct (add_then_delete wide 0 50 tidy) as (st1 & st2 & H1 & H2 & _ & H3 & _).
  - split; [reflexivity | lia].
  - reflexivity.
  - lia.
  - unfold inBounds. simpl. lia.
  - repeat constructor; lia.
  - simpl. lia.
  - apply (bool_decide_unpack _). vm_compute. exact I.
  - exists st1, st2. split; [exact H1|]. split; [exact H2 | exact H3].
Defined.

(** The point (25, 25) is in the second dirty rectangle; the rectangle
    added contains both dirty rectangles, and the point stays covered. *)
Lemma addDirtyRect_covers_witness :
  covered 25 25 (_dirtyRects (addDirtyRect 1280 400 rectContains (-5) (-5) 40 40 screen))
  /\ covered 39 0 (_dirtyRects (addDirtyRect 1280 400 rectContains (-5) (-5) 40 40 screen)).
Proof.
  destruct (addDirtyRect_covers 1280 400 rectContains (-5) (-5) 40 40 screen 25 25)
    as (H1 & _); [exact rectContains_sound | lia | lia |].
  destruct (addDirtyRect_covers 1280 400 rectContains (-5) (-5) 40 40 screen 39 0)
    as (_ & H2); [exact rectContains_sound | lia | lia |].
  split.
  - apply H1. apply Exists_cons_tl, Exists_cons_hd. unfold inside. simpl. lia.
  - apply H2. unfold inside. simpl. lia.
Defined.

(** Three entries of six bits. *)
Lemma fixPaletteEntries_six_to_eight_witness :
  fixPaletteEntries palette 3
  = Ret [40; 252; 0; 124; 128; 20; 0; 4; 8; 200; 64; 255].
Proof.
  destruct (fixPaletteEntries_six_to_eight palette 3) as (H & _).
  - lia.
  - simpl. lia.
  - repeat constructor; unfold isByte; lia.
  - exact H.
Defined.

(** Five entries asked of a palette of twelve bytes. *)
Lemma fixPaletteEntries_overrun_witness :
  fixPaletteEntries palette 5 = Undefined.
Proof.
  apply (fixPaletteEntries_overrun palette 5).
  - repeat constructor; unfold isByte; lia.
  - simpl. lia.
Defined.
